(** * Resource lifecycle and bind dispatch of the ora driver

    A shallow embedding of [srv.go] and of the statement file
    (Stmt.Close / close / exe / qry / bind / setNilBind) together with the
    properties the specification states about them.

    Conventions of the embedding:
    - a Go pointer to a driver object is an [option addr]; [None] is [nil];
      the objects live in a store ([State]) indexed by address;
    - every call that leaves the modelled files (OCI functions, methods of
      bind descriptors, result sets and sessions) is appended to the [log]
      of the state and answered by a [World];
    - a Go function is a state transformer that either returns or panics;
      [catch] is [defer func() { recover() ... }()];
    - the reader/writer locks protect against concurrent callers and change
      nothing for one caller, so they are not represented; logging goes
      through the driver configuration, whose default logger discards every
      message, and is not represented either. *)

From Stdlib Require Import ZArith List Bool Ascii String Lia.
From stdpp Require Import base option list gmap strings.

Local Open Scope string_scope.
Local Open Scope Z_scope.
Local Open Scope list_scope.

(** ** Errors *)

(** The error helpers [er], [errF], [errE], [errR] and the provider error
    live in a file outside the modelled ones; they are kept as free
    constructors, so nothing is assumed about them. *)
#[warnings="-register-all"]
Inductive error : Type :=
| er (msg : string)
| errF (msg : string)
| ociError (msg : string)
| errR (value : string)
| errE (e : error)
| MultiErr (es : list error).

(** Modelled from the spec: [newMultiErrL] is missing from the sources.  The
    aggregator reduces the collected failures to one outcome, nil when
    nothing failed. *)
Definition newMultiErrL (errs : list error) : option error :=
  match errs with
  | [] => None
  | _ :: _ => Some (MultiErr errs)
  end.

(** The error class of the taxonomy: an error is AlreadyClosed-class when,
    below the [errE] annotations, it is one of the two "is closed" errors. *)
Fixpoint isAlreadyClosed (e : error) : bool :=
  match e with
  | errE e' => isAlreadyClosed e'
  | er msg => (msg =? "Srv is closed.")%string || (msg =? "Stmt is closed.")%string
              || (msg =? "Env is closed.")%string
  | _ => false
  end.

(** ** Constants of the OCI interface *)

Inductive sword : Set :=
| OCI_SUCCESS | OCI_SUCCESS_WITH_INFO | OCI_NEED_DATA | OCI_NO_DATA
| OCI_ERROR | OCI_INVALID_HANDLE | OCI_STILL_EXECUTING.

Definition sword_eqb (a b : sword) : bool :=
  match a, b with
  | OCI_SUCCESS, OCI_SUCCESS | OCI_SUCCESS_WITH_INFO, OCI_SUCCESS_WITH_INFO
  | OCI_NEED_DATA, OCI_NEED_DATA | OCI_NO_DATA, OCI_NO_DATA
  | OCI_ERROR, OCI_ERROR | OCI_INVALID_HANDLE, OCI_INVALID_HANDLE
  | OCI_STILL_EXECUTING, OCI_STILL_EXECUTING => true
  | _, _ => false
  end.

Definition OCI_DEFAULT : Z := 0.
Definition OCI_SYSDBA : Z := 2.
Definition OCI_SYSOPER : Z := 4.
Definition OCI_COMMIT_ON_SUCCESS : Z := 32.

Definition OCI_STMT_SELECT : Z := 1.
Definition OCI_STMT_UPDATE : Z := 2.
Definition OCI_STMT_DELETE : Z := 3.
Definition OCI_STMT_INSERT : Z := 4.
Definition OCI_STMT_CREATE : Z := 5.
Definition OCI_STMT_DROP : Z := 6.
Definition OCI_STMT_ALTER : Z := 7.
Definition OCI_STMT_BEGIN : Z := 8.
Definition OCI_STMT_DECLARE : Z := 9.

Inductive SQLT : Set :=
| SQLT_CHR | SQLT_INT | SQLT_UIN | SQLT_BDOUBLE | SQLT_BFLOAT | SQLT_VNU
| SQLT_BIN | SQLT_BLOB | SQLT_CLOB | SQLT_DAT | SQLT_TIMESTAMP_TZ
| SQLT_INTERVAL_YM | SQLT_INTERVAL_DS | SQLT_FILE.

Inductive htype : Set := OCI_HTYPE_SESSION | OCI_HTYPE_SVCCTX | OCI_HTYPE_STMT.

Inductive attr : Set :=
| OCI_ATTR_USERNAME | OCI_ATTR_PASSWORD | OCI_ATTR_SERVER | OCI_ATTR_DRIVER_NAME
| OCI_ATTR_DEFAULT_LOBPREFETCH_SIZE | OCI_ATTR_SESSION | OCI_ATTR_STMTCACHESIZE
| OCI_ATTR_PREFETCH_ROWS | OCI_ATTR_PREFETCH_MEMORY | OCI_ATTR_UB8_ROW_COUNT
| OCI_ATTR_BIND_COUNT.

(** [uint32(x)]: conversion to an unsigned 32-bit integer wraps around. *)
Definition uint32 (x : Z) : Z := x mod 2 ^ 32.

(** ** Configuration *)

Inductive ByteSlice : Set := Bin | U8.

(** The statement configuration is declared outside the modelled files; the
    fields are those the modelled code reads. *)
Record StmtCfg : Set := mkStmtCfg {
  IsAutoCommitting : bool;
  prefetchRowCount : Z;
  prefetchMemorySize : Z;
  lobBufferSize : Z;
  cfg_stringPtrBufferSize : Z;
  byteSlice : ByteSlice;
  TrueRune : Z;
  FalseRune : Z
}.

#[global] Instance ByteSlice_eq_dec : EqDecision ByteSlice.
Proof. solve_decision. Defined.
#[global] Instance StmtCfg_eq_dec : EqDecision StmtCfg.
Proof. solve_decision. Defined.

(** [StmtCfg{}], the zero value. *)
Definition StmtCfg_zero : StmtCfg :=
  mkStmtCfg false 0 0 0 0 Bin 0 0.

(** Modelled from the spec: [StmtCfg.IsZero] is missing from the sources; a
    configuration is unset when it is the zero value. *)
Definition StmtCfg_IsZero (c : StmtCfg) : bool := bool_decide (c = StmtCfg_zero).

Record SrvCfg : Set := mkSrvCfg {
  Dblink : string;
  srv_StmtCfg : StmtCfg
}.

Definition SrvCfg_zero : SrvCfg := mkSrvCfg "" StmtCfg_zero.

Definition SrvCfg_IsZero (c : SrvCfg) : bool := StmtCfg_IsZero (srv_StmtCfg c).

Inductive SesMode : Set := DSNMode | SysDba | SysOper.

(** Modelled from the spec: the session configuration is declared outside
    the modelled files; it carries the credentials, the credential mode and
    a statement configuration, and is unset when all of them are. *)
Record SesCfg : Set := mkSesCfg {
  Username : string;
  Password : string;
  Mode : SesMode;
  ses_StmtCfg : StmtCfg
}.

Definition SesCfg_IsZero (c : SesCfg) : bool :=
  (Username c =? "")%string && (Password c =? "")%string
  && match Mode c with DSNMode => true | _ => false end
  && StmtCfg_IsZero (ses_StmtCfg c).

(** ** Parameters of a bind pass *)

(** A pointer handed to the driver: nil, the address of the local variable
    [lastInsertId] of [exe], or a cell of the caller. *)
Inductive ptr : Set := nilptr | lastInsertIdVar | heapPtr (l : nat).

Record Lob : Set := mkLob { C : bool; Reader : option nat }.

(** The dynamic type and value of one parameter: one constructor per case
    of the type switch of [Stmt.bind], in the order of the source; [_ptr] is
    a pointer, [_s] a slice, [_sp] a pointer to a slice.  Floating-point
    values, times and dates are carried as opaque numbers: the dispatcher
    never computes with them.  [p_nil] is the nil interface value and
    [p_other] any type without a case. *)
Inductive param : Set :=
| p_int64 (v : Z) | p_int32 (v : Z) | p_int16 (v : Z) | p_int8 (v : Z)
| p_uint64 (v : Z) | p_uint32 (v : Z) | p_uint16 (v : Z) | p_uint8 (v : Z)
| p_float64 (v : Z) | p_float32 (v : Z)
| p_Int64 (IsNull : bool) (Value : Z) | p_Int32 (IsNull : bool) (Value : Z)
| p_Int16 (IsNull : bool) (Value : Z) | p_Int8 (IsNull : bool) (Value : Z)
| p_Uint64 (IsNull : bool) (Value : Z) | p_Uint32 (IsNull : bool) (Value : Z)
| p_Uint16 (IsNull : bool) (Value : Z) | p_Uint8 (IsNull : bool) (Value : Z)
| p_Float64 (IsNull : bool) (Value : Z) | p_Float32 (IsNull : bool) (Value : Z)
| p_Num (v : string) | p_OraNum (IsNull : bool) (Value : string)
| p_int64_ptr (p : ptr) | p_int32_ptr (p : ptr) | p_int16_ptr (p : ptr)
| p_int8_ptr (p : ptr) | p_uint64_ptr (p : ptr) | p_uint32_ptr (p : ptr)
| p_uint16_ptr (p : ptr) | p_uint8_ptr (p : ptr) | p_float64_ptr (p : ptr)
| p_float32_ptr (p : ptr)
| p_int64_s (vs : list Z) | p_int32_s (vs : list Z) | p_int16_s (vs : list Z)
| p_int8_s (vs : list Z) | p_uint64_s (vs : list Z) | p_uint32_s (vs : list Z)
| p_uint16_s (vs : list Z)
| p_uint8_s (v : option (list Z))
| p_int64_sp (vs : list Z) | p_int32_sp (vs : list Z) | p_int16_sp (vs : list Z)
| p_int8_sp (vs : list Z) | p_uint64_sp (vs : list Z) | p_uint32_sp (vs : list Z)
| p_uint16_sp (vs : list Z)
| p_float64_s (vs : list Z) | p_float32_s (vs : list Z)
| p_float64_sp (vs : list Z) | p_float32_sp (vs : list Z)
| p_Num_s (vs : list string)
| p_Int64_s (vs : list (bool * Z)) | p_Int64_sp (vs : list (bool * Z))
| p_Int32_s (vs : list (bool * Z)) | p_Int32_sp (vs : list (bool * Z))
| p_Int16_s (vs : list (bool * Z)) | p_Int16_sp (vs : list (bool * Z))
| p_Int8_s (vs : list (bool * Z)) | p_Uint64_s (vs : list (bool * Z))
| p_Uint32_s (vs : list (bool * Z)) | p_Uint16_s (vs : list (bool * Z))
| p_Uint8_s (vs : list (bool * Z))
| p_Float64_s (vs : list (bool * Z)) | p_Float64_sp (vs : list (bool * Z))
| p_Float32_s (vs : list (bool * Z)) | p_Float32_sp (vs : list (bool * Z))
| p_OraNum_s (vs : list (bool * string))
| p_time (v : Z) | p_time_ptr (p : ptr) | p_time_s (vs : list Z)
| p_Time (IsNull : bool) (Value : Z) | p_Time_ptr (p : ptr)
| p_Time_s (vs : list (bool * Z))
| p_Date (IsNull : bool) (Date : Z) | p_Date_ptr (p : ptr)
| p_Date_s (vs : list (bool * Z)) | p_Date_sp (vs : list (bool * Z))
| p_string (v : string) | p_string_ptr (p : ptr)
| p_String (IsNull : bool) (Value : string)
| p_string_s (vs : list string) | p_String_s (vs : list (bool * string))
| p_string_sp (vs : list string) | p_String_sp (vs : list (bool * string))
| p_bool (v : bool) | p_bool_ptr (p : ptr) | p_Bool (IsNull : bool) (Value : bool)
| p_bool_s (vs : list bool) | p_Bool_s (vs : list (bool * bool))
| p_Raw (IsNull : bool) (Value : option (list Z))
| p_Lob (l : Lob) | p_Lob_ptr (l : option Lob)
| p_bytes_s (vs : list (option (list Z)))
| p_Raw_s (vs : list (bool * option (list Z))) | p_Lob_s (vs : list Lob)
| p_IntervalYM (IsNull : bool) (Year Month : Z)
| p_IntervalYM_s (vs : list (bool * Z * Z))
| p_IntervalDS (IsNull : bool) (Day Hour Minute Second Nanosecond : Z)
| p_IntervalDS_s (vs : list (bool * Z))
| p_Bfile (IsNull : bool) (DirectoryAlias Filename : string)
| p_Rset_ptr (r : option nat)
| p_nil
| p_other (tyName : string) (isSlice : bool) (elemIsInterface : bool).

(** ** Bind descriptors *)

(** The indexes of the descriptor pools ([_drv.bndPools]). *)
Inductive bndIdx : Set :=
| bndIdxInt64 | bndIdxInt32 | bndIdxInt16 | bndIdxInt8
| bndIdxUint64 | bndIdxUint32 | bndIdxUint16 | bndIdxUint8
| bndIdxFloat64 | bndIdxFloat32 | bndIdxNumString
| bndIdxInt64Ptr | bndIdxInt32Ptr | bndIdxInt16Ptr | bndIdxInt8Ptr
| bndIdxUint64Ptr | bndIdxUint32Ptr | bndIdxUint16Ptr | bndIdxUint8Ptr
| bndIdxFloat64Ptr | bndIdxFloat32Ptr
| bndIdxInt64Slice | bndIdxInt32Slice | bndIdxInt16Slice | bndIdxInt8Slice
| bndIdxUint64Slice | bndIdxUint32Slice | bndIdxUint16Slice | bndIdxUint8Slice
| bndIdxFloat64Slice | bndIdxFloat32Slice | bndIdxNumStringSlice
| bndIdxTime | bndIdxTimePtr | bndIdxTimeSlice
| bndIdxDate | bndIdxDatePtr | bndIdxDateSlice
| bndIdxString | bndIdxStringPtr | bndIdxStringSlice
| bndIdxBool | bndIdxBoolPtr | bndIdxBoolSlice
| bndIdxBin | bndIdxBinSlice
| bndIdxLob | bndIdxLobPtr | bndIdxLobSlice
| bndIdxIntervalYM | bndIdxIntervalYMSlice
| bndIdxIntervalDS | bndIdxIntervalDSSlice
| bndIdxBfile | bndIdxRset | bndIdxNil.

(** The method of the descriptor that the dispatcher calls. *)
Inductive meth : Set := m_bind | m_bindOra | m_bindReader | m_bindLob.

(** A descriptor taken from pool [idx] and bound at the 1-based position
    [pos] to [arg]; a NULL descriptor ([bndNil]) carries the wire-type tag
    instead of a value. *)
Inductive bnd : Set :=
| Bound (idx : bndIdx) (m : meth) (pos : nat) (arg : param)
| BoundNil (pos : nat) (sqlt : SQLT).

(** A Go slice: the backing array (its length is the capacity) and the
    length of the slice.  The nil slice has an empty array and length 0. *)
Record slice (A : Type) : Type := mkSlice { arr : list A; len : nat }.
Arguments mkSlice {A} arr len.
Arguments arr {A} s.
Arguments len {A} s.

Definition nilSlice {A : Type} : slice A := mkSlice [] 0.
Definition cap {A : Type} (s : slice A) : nat := length (arr s).
(** The elements a [range] over the slice visits. *)
Definition elems {A : Type} (s : slice A) : list A := take (len s) (arr s).

(** ** The store *)

Definition addr := nat.
Definition handle := nat.

Record Env : Set := mkEnv {
  ocienv : option handle;
  ocierr : option handle;
  isPkgEnv : bool;
  env_cfg : StmtCfg;
  openSrvs : list addr
}.

Record Srv : Set := mkSrv {
  srv_id : Z;
  srv_cfg : option SrvCfg;
  srv_env : option addr;
  ocisrv : option handle;
  isUTF8 : Z;
  openSess : list addr
}.

(** Modelled from the spec: the session struct is declared outside the
    modelled files; the fields are those the modelled code reads or writes.
    [openStmts] is a pointer that the statement code tests against nil. *)
Record Ses : Set := mkSes {
  ses_id : Z;
  ses_cfg : option SesCfg;
  ses_srv : option addr;
  ocisvcctx : option handle;
  ocises : option handle;
  openStmts : option (list addr);
  openTxs : list addr
}.

Record Stmt : Set := mkStmt {
  stmt_id : Z;
  stmt_cfg : option StmtCfg;
  ses : option addr;
  ocistmt : option handle;
  stmtType : Z;
  sql : string;
  gcts : list Z;
  bnds : slice (option bnd);
  hasPtrBind : bool;
  stringPtrBufferSize : Z;
  openRsets : list addr
}.

(** Credential type of [OCISessionBegin]. *)
Inductive cred : Set := OCI_CRED_EXT | OCI_CRED_RDBMS.

(** The calls that leave the modelled files.  The first group are OCI
    functions, answered with a return code; the second group are methods of
    the environment, of bind descriptors, of result sets and of sessions,
    answered with an error, nil, or a panic. *)
Inductive call : Set :=
| OCIServerDetach (srvhp : option handle)
| OCIStmtRelease (stmthp : option handle)
| OCIStmtExecute (stmtp : option handle) (iters : Z) (mode : Z)
| OCISessionBegin (svchp usrhp : handle) (credt : cred) (mode : Z)
| OCIAttrSet (trgthndlp : option handle) (attrtype : attr) (value : Z)
| OCIAttrGet (trgthndlp : option handle) (attrtype : attr)
| env_allocOciHandle (t : htype)
| env_setAttr (h : handle) (t : htype) (a : attr)
| bnd_bind (b : bnd)
| bnd_bind_slice (b : bnd) (isAssocArray : bool)
| bnd_close (b : bnd)
| bnd_setPtr (b : bnd)
| rset_open (r : addr) (stmt : addr)
| rset_close (r : addr)
| ses_close (s : addr).

Inductive reply : Set := Done (e : option error) | Panics (value : string).

(** What the pool [bndIdxBin] holds: [Stmt.bind] switches on the type. *)
Inductive BinPool : Set := holds_bndBin | holds_bndLob | holds_other.

Record World : Type := mkWorld {
  answer : call -> reply;
  oci : call -> sword;
  ociErrorMsg : string;
  newHandle : htype -> handle;
  (** iteration count returned by the [bind] / [bindOra] method of a slice
      descriptor *)
  sliceIterations : bnd -> bool -> Z;
  (** value of [OCI_ATTR_UB8_ROW_COUNT] after an execute *)
  rowCount : Z;
  (** value the provider reports for the output bind at a position *)
  outInt64 : nat -> Z;
  binPool : BinPool;
  sesFromPool : addr;
  rsetFromPool : addr;
  nextSesId : Z;
  (** what [strings.ToUpper] returns for a text that is not ASCII: the Go
      library maps its runes by Unicode tables, which are not part of the
      sources *)
  unicodeToUpper : string -> string
}.

Record State : Type := mkState {
  envs : gmap addr Env;
  srvs : gmap addr Srv;
  sess : gmap addr Ses;
  stmts : gmap addr Stmt;
  heap : gmap nat Z;
  lastInsertId : Z;
  srvPool : list addr;
  sesPool : list addr;
  stmtPool : list addr;
  (** the [*list.List] a running [close] took from [_drv.listPool] *)
  errs : list error;
  log : list call
}.

Definition set_envs (f : gmap addr Env -> gmap addr Env) (s : State) : State :=
  mkState (f (envs s)) (srvs s) (sess s) (stmts s) (heap s) (lastInsertId s)
          (srvPool s) (sesPool s) (stmtPool s) (errs s) (log s).
Definition set_srvs (f : gmap addr Srv -> gmap addr Srv) (s : State) : State :=
  mkState (envs s) (f (srvs s)) (sess s) (stmts s) (heap s) (lastInsertId s)
          (srvPool s) (sesPool s) (stmtPool s) (errs s) (log s).
Definition set_sess (f : gmap addr Ses -> gmap addr Ses) (s : State) : State :=
  mkState (envs s) (srvs s) (f (sess s)) (stmts s) (heap s) (lastInsertId s)
          (srvPool s) (sesPool s) (stmtPool s) (errs s) (log s).
Definition set_stmts (f : gmap addr Stmt -> gmap addr Stmt) (s : State) : State :=
  mkState (envs s) (srvs s) (sess s) (f (stmts s)) (heap s) (lastInsertId s)
          (srvPool s) (sesPool s) (stmtPool s) (errs s) (log s).
Definition set_heap (f : gmap nat Z -> gmap nat Z) (s : State) : State :=
  mkState (envs s) (srvs s) (sess s) (stmts s) (f (heap s)) (lastInsertId s)
          (srvPool s) (sesPool s) (stmtPool s) (errs s) (log s).
Definition set_lastInsertId (v : Z) (s : State) : State :=
  mkState (envs s) (srvs s) (sess s) (stmts s) (heap s) v
          (srvPool s) (sesPool s) (stmtPool s) (errs s) (log s).
Definition set_srvPool (f : list addr -> list addr) (s : State) : State :=
  mkState (envs s) (srvs s) (sess s) (stmts s) (heap s) (lastInsertId s)
          (f (srvPool s)) (sesPool s) (stmtPool s) (errs s) (log s).
Definition set_stmtPool (f : list addr -> list addr) (s : State) : State :=
  mkState (envs s) (srvs s) (sess s) (stmts s) (heap s) (lastInsertId s)
          (srvPool s) (sesPool s) (f (stmtPool s)) (errs s) (log s).
Definition set_sesPool (f : list addr -> list addr) (s : State) : State :=
  mkState (envs s) (srvs s) (sess s) (stmts s) (heap s) (lastInsertId s)
          (srvPool s) (f (sesPool s)) (stmtPool s) (errs s) (log s).
Definition set_errs (f : list error -> list error) (s : State) : State :=
  mkState (envs s) (srvs s) (sess s) (stmts s) (heap s) (lastInsertId s)
          (srvPool s) (sesPool s) (stmtPool s) (f (errs s)) (log s).
Definition set_log (f : list call -> list call) (s : State) : State :=
  mkState (envs s) (srvs s) (sess s) (stmts s) (heap s) (lastInsertId s)
          (srvPool s) (sesPool s) (stmtPool s) (errs s) (f (log s)).

(** ** Go functions as state transformers *)

Inductive result (A : Type) : Type :=
| Return (a : A)
| Panicked (value : string).
Arguments Return {A} a.
Arguments Panicked {A} value.

Definition Go (A : Type) : Type := State -> result A * State.

Definition ret {A : Type} (a : A) : Go A := fun s => (Return a, s).

Definition panic {A : Type} (value : string) : Go A := fun s => (Panicked value, s).

Definition seq {A B : Type} (m : Go A) (k : A -> Go B) : Go B :=
  fun s => match m s with
           | (Return a, s') => k a s'
           | (Panicked v, s') => (Panicked v, s')
           end.

Notation "'let*' x ':=' m 'in' k" := (seq m (fun x => k))
  (at level 10, x pattern, m at level 100, k at level 200).

Definition get : Go State := fun s => (Return s, s).
Definition modify (f : State -> State) : Go unit := fun s => (Return tt, f s).

(** [defer func() { if value := recover(); value != nil { ... } }()] around
    [m]: a panic of [m] stops there and [h] computes the results. *)
Definition catch {A : Type} (m : Go A) (h : string -> Go A) : Go A :=
  fun s => match m s with
           | (Return a, s') => (Return a, s')
           | (Panicked v, s') => h v s'
           end.

(** A function whose deferred closure recovers and then goes on: the
    closure runs after a return and after a panic alike, is told which, and
    computes the results. *)
Definition defer {A B : Type} (body : Go A) (deferred : option string -> Go B) : Go B :=
  fun s => match body s with
           | (Return _, s') => deferred None s'
           | (Panicked v, s') => deferred (Some v) s'
           end.

(** The run-time panics of Go that the modelled code can raise. *)
Definition nil_dereference : string :=
  "runtime error: invalid memory address or nil pointer dereference".
Definition index_out_of_range : string := "runtime error: index out of range".
Definition slice_bounds_out_of_range : string :=
  "runtime error: slice bounds out of range".
Definition interface_conversion : string := "interface conversion".

Section Calls.
Variable W : World.

(** A call of a Go method outside the modelled files. *)
Definition call_go (c : call) : Go (option error) :=
  let* _ := modify (set_log (fun l => l ++ [c])) in
  match answer W c with
  | Done e => ret e
  | Panics v => panic v
  end.

(** A call of an OCI function. *)
Definition call_oci (c : call) : Go sword :=
  let* _ := modify (set_log (fun l => l ++ [c])) in
  ret (oci W c).
End Calls.

(** [if err != nil { return ... }] after a call. *)
Definition orReturn {A : Type} (m : Go (option error)) (fail : error -> A) (k : Go A) : Go A :=
  let* e := m in
  match e with
  | Some e => ret (fail e)
  | None => k
  end.

(** Dereferencing a pointer: nil panics. *)
Definition deref {A : Type} (m : State -> gmap addr A) (p : option addr) : Go A :=
  fun s => match p with
           | None => (Panicked nil_dereference, s)
           | Some a => match m s !! a with
                       | Some x => (Return x, s)
                       | None => (Panicked nil_dereference, s)
                       end
           end.

(** Modelled from the spec: the child collections ([srvList], [sesList],
    [stmtList], [rsetList]) are declared outside the modelled files; their
    membership is exactly the set of children not yet closed, so [remove]
    deletes the member and [clear] empties the collection. *)
Definition list_remove (a : addr) (l : list addr) : list addr :=
  filter (fun x => x <> a) l.

(** [errs := _drv.listPool.Get()]: the pooled lists are emptied before they
    are put back, so the list is empty. *)
Definition listPool_Get : Go unit := modify (set_errs (fun _ => [])).
Definition PushBack (e : error) : Go unit := modify (set_errs (fun l => l ++ [e])).

(** ** Env *)

Module Env.
(** Modelled from the spec: [Env.checkClosed] is missing from the sources.
    A node is open iff its native handle is present, and a nil node is
    closed. *)
Definition checkClosed (env : option addr) : Go (option error) :=
  match env with
  | None => ret (Some (er "Env is closed."))
  | Some _ =>
      let* e := deref envs env in
      match ocienv e with
      | None => ret (Some (er "Env is closed."))
      | Some _ => ret None
      end
  end.

(** Modelled from the spec: [Env.Cfg] is missing from the sources.  The
    environment is the root and holds the default configuration. *)
Definition Cfg (env : option addr) : Go StmtCfg :=
  let* e := deref envs env in ret (env_cfg e).
End Env.

(** ** Srv *)

Module Srv.
Section WithWorld.
Variable W : World.

Definition update (a : addr) (f : Srv -> Srv) : Go unit :=
  modify (set_srvs (fun m => match m !! a with
                             | Some o => <[a := f o]> m
                             | None => m
                             end)).

Definition Cfg (srv : option addr) : Go SrvCfg :=
  let* o := deref srvs srv in
  let cfg := match srv_cfg o with Some c => c | None => SrvCfg_zero end in
  let env := srv_env o in
  let* fromEnv :=
    (if StmtCfg_IsZero (srv_StmtCfg cfg) then ret true
     else let* e := deref envs env in ret (isPkgEnv e)) in
  if (fromEnv : bool) then let* c := Env.Cfg env in ret (mkSrvCfg (Dblink cfg) c)
  else ret cfg.

Definition SetCfg (srv : option addr) (cfg : SrvCfg) : Go unit :=
  let* o := deref srvs srv in
  match srv with
  | Some a => update a (fun o => mkSrv (srv_id o) (Some cfg) (srv_env o) (ocisrv o)
                                       (isUTF8 o) (openSess o))
  | None => ret tt
  end.

Definition checkClosed (srv : option addr) : Go (option error) :=
  match srv with
  | None => ret (Some (er "Srv is closed."))
  | Some _ =>
      let* o := deref srvs srv in
      match ocisrv o with
      | None => ret (Some (er "Srv is closed."))
      | Some _ => Env.checkClosed (srv_env o)
      end
  end.

Definition IsOpen (srv : option addr) : Go bool :=
  let* e := checkClosed srv in
  ret (match e with None => true | Some _ => false end).

(** Modelled from the spec: [sesList.closeAll] is missing from the sources.
    Every child is closed and each child's error is collected rather than
    stopping at the first failure. *)
Fixpoint sesList_closeAll (l : list addr) : Go unit :=
  match l with
  | [] => ret tt
  | a :: l' =>
      let* e := call_go W (ses_close a) in
      let* _ := (match e with
                 | Some e => PushBack (errE e)
                 | None => ret tt
                 end) in
      sesList_closeAll l'
  end.

(** The deferred closure of [close]. *)
Definition close_deferred (a : addr) (recovered : option string) : Go (option error) :=
  let* _ := (match recovered with
             | Some value => PushBack (errR value)
             | None => ret tt
             end) in
  let* _ := SetCfg (Some a) SrvCfg_zero in
  let* _ := update a (fun o => mkSrv (srv_id o) (srv_cfg o) (srv_env o) (ocisrv o)
                                     (isUTF8 o) []) in
  let* _ := update a (fun o => mkSrv (srv_id o) (srv_cfg o) None None
                                     (isUTF8 o) (openSess o)) in
  let* _ := modify (set_srvPool (fun l => a :: l)) in
  let* s := get in
  let multiErr := newMultiErrL (errs s) in
  let* _ := modify (set_errs (fun _ => [])) in
  ret (match multiErr with
       | Some m => Some (errE m)
       | None => None
       end).

(** The body of [close] after the deferred closure is installed. *)
Definition close_body (a : addr) (openSess : list addr) : Go unit :=
  let* _ := sesList_closeAll openSess in
  let* o := deref srvs (Some a) in
  let* e := deref envs (srv_env o) in
  let* r := call_oci W (OCIServerDetach (ocisrv o)) in
  if sword_eqb r OCI_ERROR then
    let* e := deref envs (srv_env o) in
    PushBack (errE (ociError (ociErrorMsg W)))
  else ret tt.

Definition close (srv : option addr) : Go (option error) :=
  let* err := checkClosed srv in
  match err, srv with
  | Some e, _ => ret (Some (errE e))
  | None, None => panic nil_dereference
  | None, Some a =>
      let* o := deref srvs srv in
      let openSess := openSess o in
      let* _ := listPool_Get in
      defer (close_body a openSess) (close_deferred a)
  end.

Definition closeWithRemove (srv : option addr) : Go (option error) :=
  match srv with
  | None => ret None
  | Some a =>
      let* o := deref srvs srv in
      match srv_env o with
      | None => ret None
      | Some e =>
          let* _ := deref envs (Some e) in
          let* _ := modify (set_envs (fun m =>
                      match m !! e with
                      | Some env => <[e := mkEnv (ocienv env) (ocierr env) (isPkgEnv env)
                                                 (env_cfg env) (list_remove a (openSrvs env))]> m
                      | None => m
                      end)) in
          close srv
      end
  end.

Definition Close (srv : option addr) : Go (option error) :=
  match srv with
  | None => ret None
  | Some _ => closeWithRemove srv
  end.

Definition zeroSes : Ses := mkSes 0 None None None None None [].

(** The body of [OpenSes] below the deferred closure. *)
Definition OpenSes_body (srv : option addr) (cfg : SesCfg)
  : Go (option addr * option error) :=
  match srv with
  | None => ret (None, Some (er "srv may not be nil."))
  | Some a =>
    let fail := fun e => (@None addr, Some (errE e)) in
    orReturn (checkClosed srv) fail (
    let* o := deref srvs srv in
    let* _ := deref envs (srv_env o) in
    orReturn (call_go W (env_allocOciHandle OCI_HTYPE_SESSION)) fail (
    let ocises := newHandle W OCI_HTYPE_SESSION in
    let withCredentials := negb (Username cfg =? "")%string || negb (Password cfg =? "")%string in
    let credentialType := if withCredentials then OCI_CRED_RDBMS else OCI_CRED_EXT in
    orReturn (if withCredentials
              then orReturn (call_go W (env_setAttr ocises OCI_HTYPE_SESSION OCI_ATTR_USERNAME))
                            Some
                            (call_go W (env_setAttr ocises OCI_HTYPE_SESSION OCI_ATTR_PASSWORD))
              else ret None) fail (
    orReturn (call_go W (env_allocOciHandle OCI_HTYPE_SVCCTX)) fail (
    let ocisvcctx := newHandle W OCI_HTYPE_SVCCTX in
    orReturn (call_go W (env_setAttr ocisvcctx OCI_HTYPE_SVCCTX OCI_ATTR_SERVER)) fail (
    orReturn (call_go W (env_setAttr ocises OCI_HTYPE_SESSION OCI_ATTR_DRIVER_NAME)) fail (
    orReturn (call_go W (env_setAttr ocises OCI_HTYPE_SESSION
                                     OCI_ATTR_DEFAULT_LOBPREFETCH_SIZE)) fail (
    let mode := match Mode cfg with
                | SysDba => Z.lor OCI_DEFAULT OCI_SYSDBA
                | SysOper => Z.lor OCI_DEFAULT OCI_SYSOPER
                | DSNMode => OCI_DEFAULT
                end in
    let* o := deref srvs srv in
    let* _ := deref envs (srv_env o) in
    let* r := call_oci W (OCISessionBegin ocisvcctx ocises credentialType mode) in
    if sword_eqb r OCI_ERROR then
      let* _ := deref envs (srv_env o) in
      ret (None, Some (errE (ociError (ociErrorMsg W))))
    else
    orReturn (call_go W (env_setAttr ocisvcctx OCI_HTYPE_SVCCTX OCI_ATTR_SESSION)) fail (
    orReturn (call_go W (env_setAttr ocisvcctx OCI_HTYPE_SVCCTX OCI_ATTR_STMTCACHESIZE)) fail (
    let ses := sesFromPool W in
    let* _ := modify (set_sess (fun m =>
                let old := match m !! ses with Some x => x | None => zeroSes end in
                <[ses := mkSes (if ses_id old =? 0 then nextSesId W else ses_id old)
                               (Some cfg) srv (Some ocisvcctx) (Some ocises)
                               (openStmts old) (openTxs old)]> m)) in
    let* _ := update a (fun o => mkSrv (srv_id o) (srv_cfg o) (srv_env o) (ocisrv o)
                                       (isUTF8 o) (openSess o ++ [ses])) in
    ret (Some ses, None))))))))))
  end.

(** [OpenSes]: the configuration test, then the deferred recover around
    everything else.  A panic can only arise before [ses] is assigned, so
    the recovered call returns a nil session. *)
Definition OpenSes (srv : option addr) (cfg : SesCfg) : Go (option addr * option error) :=
  if SesCfg_IsZero cfg then ret (None, Some (er "Parameter 'cfg' may not be nil."))
  else catch (OpenSes_body srv cfg) (fun value => ret (None, Some (errR value))).

Definition NumSes (srv : option addr) : Go nat :=
  match srv with
  | None => ret 0%nat
  | Some _ => let* o := deref srvs srv in ret (length (openSess o))
  end.

Definition IsUTF8 (srv : option addr) : Go bool :=
  match srv with
  | None => ret false
  | Some _ => let* o := deref srvs srv in ret (isUTF8 o =? 1)
  end.
End WithWorld.
End Srv.

(** ** Ses *)

Module Ses.
Definition zeroCfg : SesCfg := mkSesCfg "" "" DSNMode StmtCfg_zero.

(** Modelled from the spec: [Ses.Cfg] is missing from the sources.  The
    getter falls back to the parent's configuration when the node's own
    is unset, as [Srv.Cfg] does. *)
Definition Cfg (ses : option addr) : Go SesCfg :=
  let* o := deref sess ses in
  let cfg := match ses_cfg o with Some c => c | None => zeroCfg end in
  if StmtCfg_IsZero (ses_StmtCfg cfg) then
    let* c := Srv.Cfg (ses_srv o) in
    ret (mkSesCfg (Username cfg) (Password cfg) (Mode cfg) (srv_StmtCfg c))
  else ret cfg.
End Ses.

(** ** The functions of Go's [strings] package that [exe] uses *)

Module Strings.
(** Scan of [s] from byte index [i]; [acc] is the last match so far. *)
Fixpoint lastIndexFrom (i : Z) (s substr : string) (acc : Z) : Z :=
  let acc' := if String.prefix substr s then i else acc in
  match s with
  | EmptyString => acc'
  | String _ s' => lastIndexFrom (i + 1) s' substr acc'
  end.

(** [strings.LastIndex]: index of the last instance of [substr], or -1. *)
Definition LastIndex (s substr : string) : Z := lastIndexFrom 0 s substr (-1).

(** [strings.Contains]. *)
Fixpoint Contains (s substr : string) : bool :=
  String.prefix substr s
  || match s with
     | EmptyString => false
     | String _ s' => Contains s' substr
     end.

(** [s[n:]] for [n <= len(s)]. *)
Fixpoint from (n : nat) (s : string) : string :=
  match n, s with
  | O, _ => s
  | S n', String _ s' => from n' s'
  | S _, EmptyString => EmptyString
  end.

Definition tab : ascii := ascii_of_nat 9.
Definition space : ascii := " "%char.
Definition is_space (c : ascii) : bool := Ascii.eqb c space.

(** [strings.NewReplacer("\t", " ", "   ", " ", "  ", " ").Replace]:
    at each position the old strings are compared in argument order and
    the first that matches is replaced; matches do not overlap. *)
Fixpoint spcRpl (s : string) : string :=
  match s with
  | EmptyString => EmptyString
  | String c s1 =>
      if Ascii.eqb c tab then String space (spcRpl s1)
      else if is_space c then
        match s1 with
        | String c2 s2 =>
            if is_space c2 then
              match s2 with
              | String c3 s3 =>
                  if is_space c3 then String space (spcRpl s3)
                  else String space (spcRpl s2)
              | EmptyString => String space EmptyString
              end
            else String c (spcRpl s1)
        | EmptyString => String c EmptyString
        end
      else String c (spcRpl s1)
  end.

(** Whether every byte of [s] is below [utf8.RuneSelf] (0x80). *)
Fixpoint isASCII (s : string) : bool :=
  match s with
  | EmptyString => true
  | String c s' => (nat_of_ascii c <? 128)%nat && isASCII s'
  end.

(** The letters a-z are mapped to A-Z, other bytes are kept. *)
Definition upper (c : ascii) : ascii :=
  let n := nat_of_ascii c in
  if ((97 <=? n) && (n <=? 122))%nat then ascii_of_nat (n - 32) else c.

Fixpoint upperBytes (s : string) : string :=
  match s with
  | EmptyString => EmptyString
  | String c s' => String (upper c) (upperBytes s')
  end.

(** [strings.ToUpper]: an ASCII text is mapped byte by byte; any other
    text is mapped rune by rune with [unicode.ToUpper], here the function
    [mapUnicode], which stands for the Unicode tables of the Go library. *)
Definition ToUpper (mapUnicode : string -> string) (s : string) : string :=
  if isASCII s then upperBytes s else mapUnicode s.
End Strings.

(** ** Local state of a bind pass *)

(** The local slice [bnds] of a bind pass: either it shares the backing
    array of [stmt.bnds] ([bnds = bnds[:len(params)]]) or it is a fresh array
    ([make([]bnd, len(params))]). *)
Inductive local_bnds : Set :=
| Shared
| Fresh (a : list (option bnd)).

(** The local variables of [Stmt.bind] that the loop changes. *)
Record locals : Set := mkLocals {
  iterations : Z;
  err : option error;
  l_bnds : local_bnds
}.

(** One turn of the loop either goes on or returns from [bind]. *)
Inductive flow : Set :=
| Next (l : locals)
| Exit (iterations : Z) (err : option error).

(** ** Stmt: configuration, open test and close *)

Module Stmt.
Section WithWorld.
Variable W : World.

Definition update (a : addr) (f : Stmt -> Stmt) : Go unit :=
  modify (set_stmts (fun m => match m !! a with
                              | Some o => <[a := f o]> m
                              | None => m
                              end)).

(** [stmt.ses.srv.env]: every step dereferences. *)
Definition env_of (stmt : option addr) : Go (option addr) :=
  let* o := deref stmts stmt in
  let* se := deref sess (ses o) in
  let* sv := deref srvs (ses_srv se) in
  ret (srv_env sv).

Definition Cfg (stmt : option addr) : Go StmtCfg :=
  let* o := deref stmts stmt in
  let cfg := match stmt_cfg o with Some c => c | None => StmtCfg_zero end in
  let* env := env_of stmt in
  let* e := deref envs env in
  if isPkgEnv e then Env.Cfg env
  else if StmtCfg_IsZero cfg then
    let* c := Ses.Cfg (ses o) in ret (ses_StmtCfg c)
  else ret cfg.

Definition SetCfg (stmt : option addr) (cfg : StmtCfg) : Go unit :=
  let* _ := deref stmts stmt in
  match stmt with
  | Some a => update a (fun o => mkStmt (stmt_id o) (Some cfg) (ses o) (ocistmt o)
                (stmtType o) (sql o) (gcts o) (bnds o) (hasPtrBind o)
                (stringPtrBufferSize o) (openRsets o))
  | None => ret tt
  end.

(** [IsOpen] locks the receiver first: there is no nil test. *)
Definition IsOpen (stmt : option addr) : Go bool :=
  let* o := deref stmts stmt in
  ret (match ocistmt o with Some _ => true | None => false end).

Definition checkClosed (stmt : option addr) : Go (option error) :=
  let* o := deref stmts stmt in
  match ocistmt o with
  | None => ret (Some (er "Stmt is closed."))
  | Some _ => ret None
  end.

(** The loop of [close] over the descriptors: a nil entry is skipped. *)
Fixpoint close_bnds (l : list (option bnd)) : Go unit :=
  match l with
  | [] => ret tt
  | None :: l' => close_bnds l'
  | Some b :: l' =>
      let* err := call_go W (bnd_close b) in
      let* _ := (match err with
                 | Some e => PushBack (errE e)
                 | None => ret tt
                 end) in
      close_bnds l'
  end.

(** Modelled from the spec: [rsetList.closeAll] is missing from the
    sources.  Every child is closed and each child's error is collected
    rather than stopping at the first failure. *)
Fixpoint rsetList_closeAll (l : list addr) : Go unit :=
  match l with
  | [] => ret tt
  | r :: l' =>
      let* e := call_go W (rset_close r) in
      let* _ := (match e with
                 | Some e => PushBack (errE e)
                 | None => ret tt
                 end) in
      rsetList_closeAll l'
  end.

(** The deferred closure of [close]. *)
Definition close_deferred (a : addr) (recovered : option string) : Go (option error) :=
  let* _ := (match recovered with
             | Some value => PushBack (errR value)
             | None => ret tt
             end) in
  let* o := deref stmts (Some a) in
  let* env := env_of (Some a) in
  let* _ := deref envs env in
  let* r := call_oci W (OCIStmtRelease (ocistmt o)) in
  let* _ := (if sword_eqb r OCI_ERROR then
               let* env := env_of (Some a) in
               let* _ := deref envs env in
               PushBack (errE (ociError (ociErrorMsg W)))
             else ret tt) in
  let* _ := SetCfg (Some a) StmtCfg_zero in
  let* _ := update a (fun o => mkStmt (stmt_id o) (stmt_cfg o) None None 0 "" []
                                      nilSlice false 0 []) in
  let* _ := modify (set_stmtPool (fun l => a :: l)) in
  let* s := get in
  let multiErr := newMultiErrL (errs s) in
  let* _ := modify (set_errs (fun _ => [])) in
  ret (match multiErr with
       | Some m => Some (errE m)
       | None => None
       end).

(** The body of [close] after the deferred closure is installed. *)
Definition close_body (a : addr) : Go unit :=
  let* o := deref stmts (Some a) in
  let* _ := close_bnds (elems (bnds o)) in
  let* o := deref stmts (Some a) in
  rsetList_closeAll (openRsets o).

Definition close (stmt : option addr) : Go (option error) :=
  let* err := checkClosed stmt in
  match err, stmt with
  | Some e, _ => ret (Some (errE e))
  | None, None => panic nil_dereference
  | None, Some a =>
      let* _ := listPool_Get in
      defer (close_body a) (close_deferred a)
  end.

Definition closeWithRemove (stmt : option addr) : Go (option error) :=
  match stmt with
  | None => ret None
  | Some a =>
      let* o := deref stmts stmt in
      let ok := match ses o with None => true | Some _ => false end in
      let ses := ses o in
      if negb ok then ret None
      else
        let* se := deref sess ses in
        let* _ := (match openStmts se, ses with
                   | Some l, Some sa =>
                       modify (set_sess (fun m =>
                         <[sa := mkSes (ses_id se) (ses_cfg se) (ses_srv se) (ocisvcctx se)
                                       (ocises se) (Some (list_remove a l)) (openTxs se)]> m))
                   | _, _ => ret tt
                   end) in
        close stmt
  end.

Definition Close (stmt : option addr) : Go (option error) := closeWithRemove stmt.

Definition NumRset (stmt : option addr) : Go nat :=
  let* o := deref stmts stmt in ret (length (openRsets o)).

(** *** Stmt.bind *)

Section BindPass.

(** the receiver and the flag of the pass *)
Variable a : addr.
Variable isAssocArray : bool.

Definition set_bnds (f : slice (option bnd) -> slice (option bnd)) (o : Stmt) : Stmt :=
  mkStmt (stmt_id o) (stmt_cfg o) (ses o) (ocistmt o) (stmtType o) (sql o) (gcts o)
         (f (bnds o)) (hasPtrBind o) (stringPtrBufferSize o) (openRsets o).

Definition set_hasPtrBind (b : bool) (o : Stmt) : Stmt :=
  mkStmt (stmt_id o) (stmt_cfg o) (ses o) (ocistmt o) (stmtType o) (sql o) (gcts o)
         (bnds o) b (stringPtrBufferSize o) (openRsets o).

(** [bnds[n] = bnd] on the local slice. *)
Definition store_local (n : nat) (b : bnd) (lb : local_bnds) : Go local_bnds :=
  match lb with
  | Shared =>
      let* _ := update a (set_bnds (fun sl =>
                  mkSlice (<[n := Some b]> (arr sl)) (len sl))) in
      ret Shared
  | Fresh l => ret (Fresh (<[n := Some b]> l))
  end.

(** [stmt.setNilBind(index, sqlt)]: the descriptor is written into
    [stmt.bnds], not into the local slice of the pass. *)
Definition setNilBind (index : nat) (sqlt : SQLT) : Go (option error) :=
  let b := BoundNil (S index) sqlt in
  let* o := deref stmts (Some a) in
  if (index <? len (bnds o))%nat then
    let* _ := update a (set_bnds (fun sl =>
                mkSlice (<[index := Some b]> (arr sl)) (len sl))) in
    call_go W (bnd_bind b)
  else panic index_out_of_range.

Definition evalCfg (usesCfg : bool) : Go unit :=
  if usesCfg then let* _ := Cfg (Some a) in ret tt else ret tt.

(** A case that binds one value:
    [bnd := getBnd(idx); bnds[n] = bnd; err = bnd.bind(...);
     if err != nil { return iterations, err }; (stmt.hasPtrBind = true)]. *)
Definition bind_value (idx : bndIdx) (m : meth) (arg : param) (usesCfg ptrBind : bool)
           (n : nat) (l : locals) : Go flow :=
  let b := Bound idx m (S n) arg in
  let* lb := store_local n b (l_bnds l) in
  let* _ := evalCfg usesCfg in
  let* e := call_go W (bnd_bind b) in
  match e with
  | Some e => ret (Exit (iterations l) (Some e))
  | None =>
      let* _ := (if ptrBind then update a (set_hasPtrBind true) else ret tt) in
      ret (Next (mkLocals (iterations l) None lb))
  end.

(** A NULL bind: [stmt.setNilBind(n, sqlt)], whose result is dropped
    unless the case assigns it to [err]. *)
Definition bind_null (assign : bool) (sqlt : SQLT) (n : nat) (l : locals) : Go flow :=
  let* e := setNilBind n sqlt in
  ret (Next (mkLocals (iterations l) (if assign then e else err l) (l_bnds l))).

(** A nullable wrapper: NULL bind when [IsNull], else the value case. *)
Definition bind_nullable (IsNull : bool) (sqlt : SQLT) (idx : bndIdx) (arg : param)
           (usesCfg : bool) (n : nat) (l : locals) : Go flow :=
  if IsNull then bind_null false sqlt n l
  else bind_value idx m_bind arg usesCfg false n l.

(** A batch case:
    [bnds[n] = bnd; iterations, err = bnd.bind(...); if err != nil { return }].
    In the cases that declare [var err error] the assignment goes to the
    inner variable and the outer [err] keeps its value. *)
Definition bind_batch (idx : bndIdx) (m : meth) (arg : param) (usesCfg shadowsErr ptrBind : bool)
           (n : nat) (l : locals) : Go flow :=
  let b := Bound idx m (S n) arg in
  let* lb := store_local n b (l_bnds l) in
  let* _ := evalCfg usesCfg in
  let* e := call_go W (bnd_bind_slice b isAssocArray) in
  let iterations' := sliceIterations W b isAssocArray in
  match e with
  | Some e => ret (Exit iterations' (Some e))
  | None =>
      let* _ := (if ptrBind then update a (set_hasPtrBind true) else ret tt) in
      ret (Next (mkLocals iterations' (if shadowsErr then err l else None) lb))
  end.

(** The boolean batches: [err = bnd.bind(...); if err != nil { return };
    iterations = uint32(len(value))]. *)
Definition bind_batchLen (idx : bndIdx) (m : meth) (arg : param) (length : nat)
           (n : nat) (l : locals) : Go flow :=
  let b := Bound idx m (S n) arg in
  let* lb := store_local n b (l_bnds l) in
  let* _ := evalCfg true in
  let* e := call_go W (bnd_bind b) in
  match e with
  | Some e => ret (Exit (iterations l) (Some e))
  | None => ret (Next (mkLocals (uint32 (Z.of_nat length)) None lb))
  end.

(** The type switch of [Stmt.bind] on [params[n]], case by case in the
    order of the source. *)
Definition bindParam (n : nat) (p : param) (l : locals) : Go flow :=
  match p with
  | p_int64 _ => bind_value bndIdxInt64 m_bind p false false n l
  | p_int32 _ => bind_value bndIdxInt32 m_bind p false false n l
  | p_int16 _ => bind_value bndIdxInt16 m_bind p false false n l
  | p_int8 _ => bind_value bndIdxInt8 m_bind p false false n l
  | p_uint64 _ => bind_value bndIdxUint64 m_bind p false false n l
  | p_uint32 _ => bind_value bndIdxUint32 m_bind p false false n l
  | p_uint16 _ => bind_value bndIdxUint16 m_bind p false false n l
  | p_uint8 _ => bind_value bndIdxUint8 m_bind p false false n l
  | p_float64 _ => bind_value bndIdxFloat64 m_bind p false false n l
  | p_float32 _ => bind_value bndIdxFloat32 m_bind p false false n l
  | p_Int64 IsNull v => bind_nullable IsNull SQLT_INT bndIdxInt64 (p_int64 v) false n l
  | p_Int32 IsNull v => bind_nullable IsNull SQLT_INT bndIdxInt32 (p_int32 v) false n l
  | p_Int16 IsNull v => bind_nullable IsNull SQLT_INT bndIdxInt16 (p_int16 v) false n l
  | p_Int8 IsNull v => bind_nullable IsNull SQLT_INT bndIdxInt8 (p_int8 v) false n l
  | p_Uint64 IsNull v => bind_nullable IsNull SQLT_UIN bndIdxUint64 (p_uint64 v) false n l
  | p_Uint32 IsNull v => bind_nullable IsNull SQLT_UIN bndIdxUint32 (p_uint32 v) false n l
  | p_Uint16 IsNull v => bind_nullable IsNull SQLT_UIN bndIdxUint16 (p_uint16 v) false n l
  | p_Uint8 IsNull v => bind_nullable IsNull SQLT_UIN bndIdxUint8 (p_uint8 v) false n l
  | p_Float64 IsNull v =>
      bind_nullable IsNull SQLT_BDOUBLE bndIdxFloat64 (p_float64 v) false n l
  | p_Float32 IsNull v =>
      bind_nullable IsNull SQLT_BFLOAT bndIdxFloat32 (p_float32 v) false n l
  | p_Num _ => bind_value bndIdxNumString m_bind p false false n l
  | p_OraNum IsNull v => bind_nullable IsNull SQLT_VNU bndIdxNumString (p_Num v) false n l
  | p_int64_ptr _ => bind_value bndIdxInt64Ptr m_bind p false true n l
  | p_int32_ptr _ => bind_value bndIdxInt32Ptr m_bind p false true n l
  | p_int16_ptr _ => bind_value bndIdxInt16Ptr m_bind p false true n l
  | p_int8_ptr _ => bind_value bndIdxInt8Ptr m_bind p false true n l
  | p_uint64_ptr _ => bind_value bndIdxUint64Ptr m_bind p false true n l
  | p_uint32_ptr _ => bind_value bndIdxUint32Ptr m_bind p false true n l
  | p_uint16_ptr _ => bind_value bndIdxUint16Ptr m_bind p false true n l
  | p_uint8_ptr _ => bind_value bndIdxUint8Ptr m_bind p false true n l
  | p_float64_ptr _ => bind_value bndIdxFloat64Ptr m_bind p false true n l
  | p_float32_ptr _ => bind_value bndIdxFloat32Ptr m_bind p false true n l
  | p_int64_s _ => bind_batch bndIdxInt64Slice m_bind p false false false n l
  | p_int32_s _ => bind_batch bndIdxInt32Slice m_bind p false false false n l
  | p_int16_s _ => bind_batch bndIdxInt16Slice m_bind p false false false n l
  | p_int8_s _ => bind_batch bndIdxInt8Slice m_bind p false false false n l
  | p_uint64_s _ => bind_batch bndIdxUint64Slice m_bind p false false false n l
  | p_uint32_s _ => bind_batch bndIdxUint32Slice m_bind p false false false n l
  | p_uint16_s _ => bind_batch bndIdxUint16Slice m_bind p false false false n l
  | p_uint8_s v =>
      let* cfg := Cfg (Some a) in
      match byteSlice cfg with
      | U8 => bind_batch bndIdxUint8Slice m_bind p false false false n l
      | Bin =>
          match binPool W with
          | holds_bndBin => bind_value bndIdxBin m_bind p false false n l
          | holds_bndLob =>
              match v with
              | None => bind_null false SQLT_BLOB n l
              | Some _ => bind_value bndIdxBin m_bindReader p true false n l
              end
          | holds_other => panic "awaited *ora.bndBin"
          end
      end
  | p_int64_sp _ => bind_batch bndIdxInt64Slice m_bind p false false false n l
  | p_int32_sp _ => bind_batch bndIdxInt32Slice m_bind p false false false n l
  | p_int16_sp _ => bind_batch bndIdxInt16Slice m_bind p false false false n l
  | p_int8_sp _ => bind_batch bndIdxInt8Slice m_bind p false false false n l
  | p_uint64_sp _ => bind_batch bndIdxUint64Slice m_bind p false false false n l
  | p_uint32_sp _ => bind_batch bndIdxUint32Slice m_bind p false false false n l
  | p_uint16_sp _ => bind_batch bndIdxUint16Slice m_bind p false false false n l
  | p_float64_s _ => bind_batch bndIdxFloat64Slice m_bind p false true false n l
  | p_float32_s _ => bind_batch bndIdxFloat32Slice m_bind p false false false n l
  | p_float64_sp _ => bind_batch bndIdxFloat64Slice m_bind p false true false n l
  | p_float32_sp _ => bind_batch bndIdxFloat32Slice m_bind p false false false n l
  | p_Num_s _ => bind_batch bndIdxNumStringSlice m_bind p false false false n l
  | p_Int64_s _ => bind_batch bndIdxInt64Slice m_bindOra p false false false n l
  | p_Int64_sp _ => bind_batch bndIdxInt64Slice m_bindOra p false false true n l
  | p_Int32_s _ => bind_batch bndIdxInt32Slice m_bindOra p false false true n l
  | p_Int32_sp _ => bind_batch bndIdxInt32Slice m_bindOra p false false true n l
  | p_Int16_s _ => bind_batch bndIdxInt16Slice m_bindOra p false false true n l
  | p_Int16_sp _ => bind_batch bndIdxInt16Slice m_bindOra p false false false n l
  | p_Int8_s _ => bind_batch bndIdxInt8Slice m_bindOra p false false false n l
  | p_Uint64_s _ => bind_batch bndIdxUint64Slice m_bindOra p false false false n l
  | p_Uint32_s _ => bind_batch bndIdxUint32Slice m_bindOra p false false false n l
  | p_Uint16_s _ => bind_batch bndIdxUint16Slice m_bindOra p false false false n l
  | p_Uint8_s _ => bind_batch bndIdxUint8Slice m_bindOra p false false false n l
  | p_Float64_s _ => bind_batch bndIdxFloat64Slice m_bindOra p false false false n l
  | p_Float64_sp _ => bind_batch bndIdxFloat64Slice m_bindOra p false false true n l
  | p_Float32_s _ => bind_batch bndIdxFloat32Slice m_bindOra p false false false n l
  | p_Float32_sp _ => bind_batch bndIdxFloat32Slice m_bindOra p false false true n l
  | p_OraNum_s _ => bind_batch bndIdxNumStringSlice m_bindOra p false false false n l
  | p_time _ => bind_value bndIdxTime m_bind p false false n l
  | p_time_ptr _ => bind_value bndIdxTimePtr m_bind p false true n l
  | p_time_s _ => bind_batch bndIdxTimeSlice m_bind p false false false n l
  | p_Time IsNull v =>
      bind_nullable IsNull SQLT_TIMESTAMP_TZ bndIdxTime (p_time v) false n l
  | p_Time_ptr q =>
      match q with
      | nilptr =>
          let* _ := store_local n (Bound bndIdxTimePtr m_bind (S n) (p_time_ptr q))
                                (l_bnds l) in
          panic nil_dereference
      | _ => bind_value bndIdxTimePtr m_bind (p_time_ptr q) false true n l
      end
  | p_Time_s _ => bind_batch bndIdxTimeSlice m_bindOra p false false false n l
  | p_Date IsNull d => bind_nullable IsNull SQLT_DAT bndIdxDate (p_Date false d) false n l
  | p_Date_ptr _ => bind_value bndIdxDatePtr m_bind p false true n l
  | p_Date_s _ => bind_batch bndIdxDateSlice m_bindOra p false false false n l
  | p_Date_sp _ => bind_batch bndIdxDateSlice m_bindOra p false false false n l
  | p_string _ => bind_value bndIdxString m_bind p false false n l
  | p_string_ptr _ =>
      let* o := deref stmts (Some a) in
      bind_value bndIdxStringPtr m_bind p (stringPtrBufferSize o =? 0) true n l
  | p_String IsNull v => bind_nullable IsNull SQLT_CHR bndIdxString (p_string v) false n l
  | p_string_s _ => bind_batch bndIdxStringSlice m_bind p false false false n l
  | p_String_s _ => bind_batch bndIdxStringSlice m_bindOra p false false false n l
  | p_string_sp _ => bind_batch bndIdxStringSlice m_bind p false false false n l
  | p_String_sp _ => bind_batch bndIdxStringSlice m_bindOra p false false false n l
  | p_bool _ => bind_value bndIdxBool m_bind p true false n l
  | p_bool_ptr _ => bind_value bndIdxBoolPtr m_bind p true true n l
  | p_Bool IsNull v => bind_nullable IsNull SQLT_CHR bndIdxBool (p_bool v) true n l
  | p_bool_s vs => bind_batchLen bndIdxBoolSlice m_bind p (length vs) n l
  | p_Bool_s vs => bind_batchLen bndIdxBoolSlice m_bindOra p (length vs) n l
  | p_Raw IsNull v =>
      if IsNull then bind_null false SQLT_BIN n l
      else match binPool W with
           | holds_bndBin => bind_value bndIdxBin m_bind (p_uint8_s v) false false n l
           | _ => panic interface_conversion
           end
  | p_Lob lob =>
      let sqlt := if C lob then SQLT_CLOB else SQLT_BLOB in
      match Reader lob with
      | None => bind_null false sqlt n l
      | Some _ => bind_value bndIdxLob m_bindReader p true false n l
      end
  | p_Lob_ptr q =>
      match q with
      | None => bind_null false SQLT_BLOB n l
      | Some _ => bind_value bndIdxLobPtr m_bindLob p true true n l
      end
  | p_bytes_s _ => bind_batch bndIdxBinSlice m_bind p true false false n l
  | p_Raw_s _ => bind_batch bndIdxBinSlice m_bindOra p true false false n l
  | p_Lob_s _ => bind_batch bndIdxLobSlice m_bindOra p true false false n l
  | p_IntervalYM IsNull _ _ =>
      bind_nullable IsNull SQLT_INTERVAL_YM bndIdxIntervalYM p false n l
  | p_IntervalYM_s _ => bind_batch bndIdxIntervalYMSlice m_bind p false false false n l
  | p_IntervalDS IsNull _ _ _ _ _ =>
      bind_nullable IsNull SQLT_INTERVAL_DS bndIdxIntervalDS p false n l
  | p_IntervalDS_s _ => bind_batch bndIdxIntervalDSSlice m_bind p false false false n l
  | p_Bfile IsNull _ _ =>
      if IsNull then bind_null true SQLT_FILE n l
      else bind_value bndIdxBfile m_bind p false false n l
  | p_Rset_ptr _ => bind_value bndIdxRset m_bind p false true n l
  | p_nil => bind_null true SQLT_CHR n l
  | p_other _ isSlice elemIsInterface =>
      if isSlice && elemIsInterface then
        ret (Exit (iterations l) (Some (errF "Invalid bind parameter. ([]interface{}) (%v).")))
      else
        ret (Exit (iterations l) (Some (errF "Invalid bind parameter (%v) (%T:%v).")))
  end.

(** [for n = range params { switch ... }] from position [n] on. *)
Fixpoint bind_loop (n : nat) (ps : list param) (l : locals) : Go flow :=
  match ps with
  | [] => ret (Next l)
  | p :: ps' =>
      let* f := bindParam n p l in
      match f with
      | Exit it e => ret (Exit it e)
      | Next l' => bind_loop (S n) ps' l'
      end
  end.

End BindPass.

Definition bind (stmt : option addr) (params : list param) (isAssocArray : bool)
  : Go (Z * option error) :=
  match params with
  | [] => ret (1, None)
  | _ :: _ =>
      let* o := deref stmts stmt in
      match stmt with
      | None => panic nil_dereference
      | Some a =>
          let bnds0 := if (cap (bnds o) <? length params)%nat
                       then Fresh (replicate (length params) None)
                       else Shared in
          let* f := bind_loop a isAssocArray 0 params (mkLocals 1 None bnds0) in
          match f with
          | Exit it e => ret (it, e)
          | Next l =>
              let* _ := update a (set_bnds (fun sl =>
                          match l_bnds l with
                          | Shared => mkSlice (arr sl) (length params)
                          | Fresh b => mkSlice b (length params)
                          end)) in
              ret (iterations l, err l)
          end
      end
  end.

(** *** Stmt.exe and Stmt.qry *)

(** [stmt.setAttr]. *)
Definition setAttr (stmt : option addr) (attrValue : Z) (attrType : attr)
  : Go (option error) :=
  let* o := deref stmts stmt in
  let* env := env_of stmt in
  let* _ := deref envs env in
  let* r := call_oci W (OCIAttrSet (ocistmt o) attrType attrValue) in
  if sword_eqb r OCI_ERROR then
    let* env := env_of stmt in
    let* _ := deref envs env in
    ret (Some (errE (ociError (ociErrorMsg W))))
  else ret None.

(** [stmt.attr]: the attribute read, here always the row count. *)
Definition attr (stmt : option addr) (attrType : attr) : Go (Z + error) :=
  let* o := deref stmts stmt in
  let* env := env_of stmt in
  let* _ := deref envs env in
  let* r := call_oci W (OCIAttrGet (ocistmt o) attrType) in
  if sword_eqb r OCI_ERROR then
    let* env := env_of stmt in
    let* _ := deref envs env in
    ret (inr (ociError (ociErrorMsg W)))
  else ret (inl (rowCount W)).

Definition setPrefetchSize (stmt : option addr) : Go (option error) :=
  let* cfg := Cfg stmt in
  if 0 <? prefetchRowCount cfg then
    let* e := setAttr stmt (prefetchRowCount cfg) OCI_ATTR_PREFETCH_ROWS in
    ret (match e with Some e => Some (errE e) | None => None end)
  else if 0 <? prefetchMemorySize cfg then
    let* e := setAttr stmt (prefetchMemorySize cfg) OCI_ATTR_PREFETCH_MEMORY in
    ret (match e with Some e => Some (errE e) | None => None end)
  else ret None.

(** Modelled from the spec: the [setPtr] methods of the descriptors are
    missing from the sources.  After a successful execute a descriptor
    that owns an output location copies the value the provider reported
    for its position into that location.  Only the 64-bit integer cells
    are represented in the store. *)
Definition setPtr (b : bnd) : Go (option error) :=
  let* e := call_go W (bnd_setPtr b) in
  match e, b with
  | None, Bound bndIdxInt64Ptr _ pos (p_int64_ptr q) =>
      let* _ := (match q with
                 | lastInsertIdVar => modify (set_lastInsertId (outInt64 W pos))
                 | heapPtr c => modify (set_heap (fun h => <[c := outInt64 W pos]> h))
                 | nilptr => ret tt
                 end) in
      ret None
  | _, _ => ret e
  end.

(** The loop of [setBindPtrs]: a nil entry has no method to call. *)
Fixpoint setBindPtrs_loop (l : list (option bnd)) : Go (option error) :=
  match l with
  | [] => ret None
  | None :: _ => panic nil_dereference
  | Some b :: l' =>
      let* e := setPtr b in
      match e with
      | Some e => ret (Some (errE e))
      | None => setBindPtrs_loop l'
      end
  end.

Definition setBindPtrs (stmt : option addr) : Go (option error) :=
  let* o := deref stmts stmt in
  setBindPtrs_loop (elems (bnds o)).

(** The test of [exe] on the statement text: after the last [")"], with
    white space normalised and in upper case, the text has a RETURNING
    followed by the marker of the identity capture. *)
Definition hasLastInsertIdClause (sql : string) : bool :=
  let lastIndex := Strings.LastIndex sql ")" in
  let sqlEnd := Strings.ToUpper (unicodeToUpper W)
                  (Strings.spcRpl (Strings.from (Z.to_nat (lastIndex + 1)) sql)) in
  let i := Strings.LastIndex sqlEnd "RETURNING" in
  (0 <=? i) && Strings.Contains (Strings.from (Z.to_nat i) sqlEnd) " /*LASTINSERTID*/ INTO ".

(** [params[len(params)-1] = &lastInsertId]. *)
Definition substituteLast (params : list param) : Go (list param) :=
  match params with
  | [] => panic index_out_of_range
  | _ :: _ => ret (<[(length params - 1)%nat := p_int64_ptr lastInsertIdVar]> params)
  end.

(** The parameters [exe] hands to [bind]. *)
Definition exe_params (stmt : option addr) (params : list param) : Go (list param) :=
  let* o := deref stmts stmt in
  let* env := env_of stmt in
  let* e := deref envs env in
  let pkgEnvInsert := isPkgEnv e && (stmtType o =? OCI_STMT_INSERT) in
  if pkgEnvInsert then
    let* o := deref stmts stmt in
    if hasLastInsertIdClause (sql o) then substituteLast params else ret params
  else ret params.

(** The execute mode of [exe]. *)
Definition exe_mode (stmt : option addr) : Go Z :=
  let* cfg := Cfg stmt in
  if IsAutoCommitting cfg then
    let* o := deref stmts stmt in
    let* se := deref sess (ses o) in
    let n := length (openTxs se) in
    if (n =? 0)%nat then ret OCI_COMMIT_ON_SUCCESS else ret OCI_DEFAULT
  else ret OCI_DEFAULT.

Definition isRowCountKind (stmtType : Z) : bool :=
  (stmtType =? OCI_STMT_SELECT) || (stmtType =? OCI_STMT_UPDATE)
  || (stmtType =? OCI_STMT_DELETE) || (stmtType =? OCI_STMT_INSERT).

(** The end of [exe], from the assignment of [rowsAffected] on: a panic
    here leaves [rowsAffected] set in the recovered results. *)
Definition exe_tail (stmt : option addr) (rowsAffected : Z) (hasPtrBind : bool)
  : Go (Z * Z * option error) :=
  catch
    (let* e := (if hasPtrBind then setBindPtrs stmt else ret None) in
     let* s := get in
     match e with
     | Some e => ret (rowsAffected, lastInsertId s, Some (errE e))
     | None => ret (rowsAffected, lastInsertId s, None)
     end)
    (fun value => let* s := get in ret (rowsAffected, lastInsertId s, Some (errR value))).

(** The body of [exe] below the deferred closure. *)
Definition exe_body (stmt : option addr) (params : list param) (isAssocArray : bool)
  : Go (Z * Z * option error) :=
  let fail := fun e => (0, 0, Some (errE e)) in
  orReturn (checkClosed stmt) fail (
  let* params := exe_params stmt params in
  let* (iterations, err) := bind stmt params isAssocArray in
  orReturn (ret err) fail (
  orReturn (setPrefetchSize stmt) fail (
  let* mode := exe_mode stmt in
  let* o := deref stmts stmt in
  let* se := deref sess (ses o) in
  let* env := env_of stmt in
  let* _ := deref envs env in
  let* r := call_oci W (OCIStmtExecute (ocistmt o) iterations mode) in
  let* o := deref stmts stmt in
  let stmtType := stmtType o in
  let hasPtrBind := hasPtrBind o in
  if sword_eqb r OCI_ERROR then
    let* env := env_of stmt in
    let* _ := deref envs env in
    ret (fail (ociError (ociErrorMsg W)))
  else if isRowCountKind stmtType then
    let* ra := attr stmt OCI_ATTR_UB8_ROW_COUNT in
    match ra with
    | inr e => ret (fail e)
    | inl rowsAffected => exe_tail stmt rowsAffected hasPtrBind
    end
  else if sword_eqb r OCI_NO_DATA then
    let* env := env_of stmt in
    let* _ := deref envs env in
    ret (fail (ociError (ociErrorMsg W)))
  else exe_tail stmt 0 hasPtrBind))).

(** [exe]: the nil test, then the deferred recover around everything
    else.  [lastInsertId] is a named result, zero when the call starts. *)
Definition exe (stmt : option addr) (params : list param) (isAssocArray : bool)
  : Go (Z * Z * option error) :=
  match stmt with
  | None => ret (0, 0, Some (er "stmt may not be nil."))
  | Some _ =>
      let* _ := modify (set_lastInsertId 0) in
      catch (exe_body stmt params isAssocArray)
            (fun value => let* s := get in ret (0, lastInsertId s, Some (errR value)))
  end.

Definition Exe (stmt : option addr) (params : list param) : Go (Z * option error) :=
  let* (rowsAffected, _, err) := exe stmt params false in
  ret (rowsAffected, err).

Definition ExeP (stmt : option addr) (params : list param) : Go (Z * option error) :=
  let* (rowsAffected, _, err) := exe stmt params true in
  ret (rowsAffected, err).

(** The end of [qry], from the assignment of [rset] on. *)
Definition qry_tail (a : addr) : Go (option addr * option error) :=
  let rset := rsetFromPool W in
  catch
    (let* o := deref stmts (Some a) in
     let* e := call_go W (rset_open rset a) in
     match e with
     | Some e =>
         let* _ := call_go W (rset_close rset) in
         ret (None, Some (errE e))
     | None =>
         let* _ := update a (fun o => mkStmt (stmt_id o) (stmt_cfg o) (ses o) (ocistmt o)
                     (stmtType o) (sql o) (gcts o) (bnds o) (hasPtrBind o)
                     (stringPtrBufferSize o) (openRsets o ++ [rset])) in
         ret (Some rset, None)
     end)
    (fun value => ret (Some rset, Some (errR value))).

(** The body of [qry] below the deferred closure. *)
Definition qry_body (stmt : option addr) (params : list param)
  : Go (option addr * option error) :=
  let fail := fun e => (@None addr, Some (errE e)) in
  orReturn (checkClosed stmt) fail (
  let* (_, err) := bind stmt params false in
  orReturn (ret err) fail (
  orReturn (setPrefetchSize stmt) fail (
  let* o := deref stmts stmt in
  let* se := deref sess (ses o) in
  let* sv := deref srvs (ses_srv se) in
  let env := srv_env sv in
  let* _ := deref envs env in
  let* r := call_oci W (OCIStmtExecute (ocistmt o) 0 OCI_DEFAULT) in
  let* o := deref stmts stmt in
  let hasPtrBind := hasPtrBind o in
  if sword_eqb r OCI_ERROR then
    let* _ := deref envs env in
    ret (fail (ociError (ociErrorMsg W)))
  else
    orReturn (if hasPtrBind then setBindPtrs stmt else ret None) fail (
    match stmt with
    | Some a => qry_tail a
    | None => panic nil_dereference
    end)))).

Definition qry (stmt : option addr) (params : list param)
  : Go (option addr * option error) :=
  catch (qry_body stmt params) (fun value => ret (None, Some (errR value))).

Definition Qry (stmt : option addr) (params : list param)
  : Go (option addr * option error) := qry stmt params.

(** [SetGcts] installs the column types and returns the old ones. *)
Definition SetGcts (stmt : option addr) (gcts' : list Z) : Go (list Z) :=
  let* o := deref stmts stmt in
  match stmt with
  | Some a =>
      let* _ := update a (fun o => mkStmt (stmt_id o) (stmt_cfg o) (ses o) (ocistmt o)
                  (stmtType o) (sql o) gcts' (bnds o) (hasPtrBind o)
                  (stringPtrBufferSize o) (openRsets o)) in
      ret (gcts o)
  | None => panic nil_dereference
  end.

Definition Gcts (stmt : option addr) : Go (list Z) :=
  let* o := deref stmts stmt in ret (gcts o).
End WithWorld.
End Stmt.

(** ** Classification of the parameters *)

(** The cases of the type switch that set [stmt.hasPtrBind]. *)
Definition setsPtrBind (p : param) : bool :=
  match p with
  | p_int64_ptr _ | p_int32_ptr _ | p_int16_ptr _ | p_int8_ptr _
  | p_uint64_ptr _ | p_uint32_ptr _ | p_uint16_ptr _ | p_uint8_ptr _
  | p_float64_ptr _ | p_float32_ptr _
  | p_time_ptr _ | p_Time_ptr _ | p_Date_ptr _ | p_string_ptr _ | p_bool_ptr _ => true
  | p_Int64_sp _ | p_Int32_s _ | p_Int32_sp _ | p_Int16_s _
  | p_Float64_sp _ | p_Float32_sp _ => true
  | p_Lob_ptr (Some _) => true
  | p_Rset_ptr _ => true
  | _ => false
  end.

(** The batch-shaped parameters and their length.  A [[]byte] is a batch
    only when the configuration asks for numeric arrays ([u8]). *)
Definition batchLength (u8 : bool) (p : param) : option nat :=
  match p with
  | p_int64_s vs | p_int32_s vs | p_int16_s vs | p_int8_s vs
  | p_uint64_s vs | p_uint32_s vs | p_uint16_s vs
  | p_int64_sp vs | p_int32_sp vs | p_int16_sp vs | p_int8_sp vs
  | p_uint64_sp vs | p_uint32_sp vs | p_uint16_sp vs
  | p_float64_s vs | p_float32_s vs | p_float64_sp vs | p_float32_sp vs
  | p_time_s vs => Some (length vs)
  | p_uint8_s v =>
      if u8 then Some (length (match v with Some vs => vs | None => [] end)) else None
  | p_Num_s vs | p_string_s vs | p_string_sp vs => Some (length vs)
  | p_Int64_s vs | p_Int64_sp vs | p_Int32_s vs | p_Int32_sp vs
  | p_Int16_s vs | p_Int16_sp vs | p_Int8_s vs | p_Uint64_s vs
  | p_Uint32_s vs | p_Uint16_s vs | p_Uint8_s vs
  | p_Float64_s vs | p_Float64_sp vs | p_Float32_s vs | p_Float32_sp vs
  | p_Time_s vs | p_Date_s vs | p_Date_sp vs | p_IntervalDS_s vs => Some (length vs)
  | p_OraNum_s vs | p_String_s vs | p_String_sp vs => Some (length vs)
  | p_bool_s vs => Some (length vs)
  | p_Bool_s vs => Some (length vs)
  | p_bytes_s vs => Some (length vs)
  | p_Raw_s vs => Some (length vs)
  | p_Lob_s vs => Some (length vs)
  | p_IntervalYM_s vs => Some (length vs)
  | _ => None
  end.

(** The length of the first and of the last batch of a parameter list. *)
Fixpoint firstBatch (u8 : bool) (ps : list param) : option nat :=
  match ps with
  | [] => None
  | p :: ps' =>
      match batchLength u8 p with
      | Some n => Some n
      | None => firstBatch u8 ps'
      end
  end.

Fixpoint lastBatch (u8 : bool) (ps : list param) : option nat :=
  match ps with
  | [] => None
  | p :: ps' =>
      match lastBatch u8 ps' with
      | Some n => Some n
      | None => batchLength u8 p
      end
  end.





Definition isMutating (stmtType : Z) : bool :=
  (stmtType =? OCI_STMT_INSERT) || (stmtType =? OCI_STMT_UPDATE)
  || (stmtType =? OCI_STMT_DELETE).

Definition isExecute (c : call) : bool :=
  match c with OCIStmtExecute _ _ _ => true | _ => false end.

(** ** A concrete world and store *)

Module Example.
(** Every call succeeds, and the slice binders report the batch length. *)
Definition W : World :=
  mkWorld (fun _ => Done None) (fun _ => OCI_SUCCESS) "ORA-00000"
          (fun t => match t with
                    | OCI_HTYPE_SESSION => 21%nat
                    | OCI_HTYPE_SVCCTX => 22%nat
                    | OCI_HTYPE_STMT => 23%nat
                    end)
          (fun b _ => match b with
                      | Bound _ _ _ arg =>
                          match batchLength true arg with
                          | Some n => uint32 (Z.of_nat n)
                          | None => 1
                          end
                      | BoundNil _ _ => 1
                      end)
          1 (fun pos => 42) holds_bndBin 5%nat 9%nat 100 Strings.upperBytes.

Definition cfg : StmtCfg := mkStmtCfg true 0 0 0 0 Bin 89 78.

(** One environment, server, session and statement, all open.  [kind] is
    the statement kind, [pkg] whether the environment is the one of the
    database/sql package, [bs] the byte-slice mode. *)
Definition env1 (pkg : bool) (bs : ByteSlice) : Env :=
  mkEnv (Some 10%nat) (Some 11%nat) pkg (mkStmtCfg true 0 0 0 0 bs 89 78) [1%nat].
Definition srv1 : Srv := mkSrv 1 None (Some 1%nat) (Some 12%nat) 0 [1%nat].
Definition ses1 : Ses :=
  mkSes 1 None (Some 1%nat) (Some 13%nat) (Some 14%nat) (Some [1%nat]) [].
Definition stmt1 (kind : Z) (text : string) : Stmt :=
  mkStmt 1 None (Some 1%nat) (Some 15%nat) kind text [] nilSlice false 0 [3%nat].

Definition store (pkg : bool) (kind : Z) (text : string) (bs : ByteSlice) : State :=
  mkState {[ 1%nat := env1 pkg bs ]} {[ 1%nat := srv1 ]} {[ 1%nat := ses1 ]}
          {[ 1%nat := stmt1 kind text ]} ∅ 0 [] [] [] [] [].

Definition s0 : State := store false OCI_STMT_SELECT "SELECT 1 FROM dual" Bin.

(** The store [s0] without its statement, and [s0] with the server and
    the environment already closed (their handles nil). *)
Definition s_no_stmt : State := set_stmts (fun _ => ∅) s0.

Definition s_srv_closed : State :=
  set_envs (fun m => <[1%nat := mkEnv None None false (mkStmtCfg true 0 0 0 0 Bin 89 78) []]> m)
    (set_srvs (fun m => <[1%nat := mkSrv 1 None (Some 1%nat) None 0 []]> m) s0).

(** The statement of [s0] after a bind pass over two integers. *)
Definition b1 : bnd := Bound bndIdxInt64 m_bind 1 (p_int64 7).
Definition b2 : bnd := Bound bndIdxInt64 m_bind 2 (p_int64 8).

Definition stmt_bound : Stmt :=
  mkStmt 1 None (Some 1%nat) (Some 15%nat) OCI_STMT_SELECT "SELECT 1 FROM dual" []
         (mkSlice [Some b1; Some b2] 2) false 0 [3%nat].

Definition s_bound : State := set_stmts (fun m => <[1%nat := stmt_bound]> m) s0.

(** A world in which closing a descriptor panics. *)
Definition W_panic : World :=
  mkWorld (fun c => match c with bnd_close _ => Panics "boom" | _ => Done None end)
          (oci W) (ociErrorMsg W) (newHandle W) (sliceIterations W) (rowCount W)
          (outInt64 W) (binPool W) (sesFromPool W) (rsetFromPool W) (nextSesId W)
          (unicodeToUpper W).

Definition insertText : string :=
  "INSERT INTO t (a) VALUES (:1) RETURNING id /*lastInsertId*/ INTO :2".
End Example.

(** ** Teardown *)

(** What a teardown loop over the child calls [cs] does: the calls it
    attempts, the errors it collects, and the panic that stops it, if
    any. *)
Fixpoint attempt (W : World) (cs : list call) : list call * list error * option string :=
  match cs with
  | [] => ([], [], None)
  | c :: cs' =>
      match answer W c with
      | Panics v => ([c], [], Some v)
      | Done e =>
          let '(tried, es, p) := attempt W cs' in
          (c :: tried, match e with Some e => errE e :: es | None => es end, p)
      end
  end.

(** The child closes of a statement and of a server, in the order of the
    teardown: the non-nil descriptors, then the open result sets; the open
    sessions. *)
Definition Stmt_children (o : Stmt) : list call :=
  map bnd_close (omap id (elems (bnds o))) ++ map rset_close (openRsets o).

Definition Srv_children (o : Srv) : list call := map ses_close (openSess o).

(** The error the deferred closure adds for a recovered panic. *)
Definition recovered (p : option string) : list error :=
  match p with Some v => [errR v] | None => [] end.

(** The error added when an OCI release or detach reports [OCI_ERROR]. *)
Definition releaseError (W : World) (c : call) : list error :=
  if sword_eqb (oci W c) OCI_ERROR then [errE (ociError (ociErrorMsg W))] else [].

(** An open statement whose chain of back-references is in the store. *)
Definition Stmt_open (s : State) (a : addr) (o : Stmt) : Prop :=
  stmts s !! a = Some o /\ is_Some (ocistmt o)
  /\ exists sa se va sv ea env,
       ses o = Some sa /\ sess s !! sa = Some se
       /\ ses_srv se = Some va /\ srvs s !! va = Some sv
       /\ srv_env sv = Some ea /\ envs s !! ea = Some env.

(** An open server of an open environment. *)
Definition Srv_open (s : State) (a : addr) (o : Srv) : Prop :=
  srvs s !! a = Some o /\ is_Some (ocisrv o)
  /\ exists ea env, srv_env o = Some ea /\ envs s !! ea = Some env /\ is_Some (ocienv env).

(** The statement and the server as [close] leaves them. *)
Definition Stmt_closed (o : Stmt) : Stmt :=
  mkStmt (stmt_id o) (Some StmtCfg_zero) None None 0 "" [] nilSlice false 0 [].

Definition Srv_closed (o : Srv) : Srv :=
  mkSrv (srv_id o) (Some SrvCfg_zero) None None (isUTF8 o) [].

(** The state with more collected errors and more calls logged. *)
Definition more (es : list error) (cs : list call) (s : State) : State :=
  mkState (envs s) (srvs s) (sess s) (stmts s) (heap s) (lastInsertId s)
          (srvPool s) (sesPool s) (stmtPool s) (errs s ++ es) (log s ++ cs).

Definition outcome (p : option string) : result unit :=
  match p with Some v => Panicked v | None => Return tt end.

(** The result of a teardown that collected [es]: nil, or the merged
    error. *)
Definition merged (es : list error) : option error :=
  match newMultiErrL es with
  | Some m => Some (errE m)
  | None => None
  end.

(** ** The claims that the code does not satisfy as they are stated *)

(** C8 as stated: a teardown attempts every child close whatever the
    earlier steps did. *)
Definition C8_as_stated : Prop :=
  forall (W : World) (s s' : State) (a : addr) (o : Stmt) (r : result (option error)),
    Stmt_open s a o ->
    Stmt.close W (Some a) s = (r, s') ->
    forall c, c ∈ Stmt_children o -> c ∈ log s'.

(** What a teardown reports when it attempted [tried] out of [children] and
    then made the OCI calls [release]: one value that merges every failure,
    nil exactly when nothing failed, and all children attempted unless one
    of them panicked. *)
Definition reports (W : World) (children tried release : list call) (r : option error) : Prop :=
  (exists es, r = merged es
     /\ (forall c e, c ∈ tried -> answer W c = Done (Some e) -> errE e ∈ es)
     /\ (forall c v, c ∈ tried -> answer W c = Panics v -> errR v ∈ es)
     /\ (forall c, c ∈ release -> oci W c = OCI_ERROR ->
           errE (ociError (ociErrorMsg W)) ∈ es))
  /\ (r = None <->
        (forall c, c ∈ children -> answer W c = Done None)
        /\ (forall c, c ∈ release -> oci W c <> OCI_ERROR))
  /\ ((forall c, c ∈ children -> exists e, answer W c = Done e) -> tried = children).

(** The error a teardown collects for a child close it attempted: the
    error the close returned, or the recovered panic. *)
Definition failure (W : World) (c : call) : option error :=
  match answer W c with
  | Done (Some e) => Some (errE e)
  | Done None => None
  | Panics v => Some (errR v)
  end.

(** Where the loop over the [children] stops: without a panic ([p] is
    [None]) every child returned and all were attempted; with a panic the
    attempted children are those before the first child that panics and
    that child, and the children after it are skipped. *)
Definition stops (W : World) (children tried : list call) (p : option string) : Prop :=
  match p with
  | None => tried = children /\ forall c, c ∈ children -> exists e, answer W c = Done e
  | Some v =>
      exists pre c skipped,
        children = pre ++ c :: skipped /\ tried = pre ++ [c]
        /\ (forall c', c' ∈ pre -> exists e, answer W c' = Done e)
        /\ answer W c = Panics v
  end.

(** The detach of a server teardown: skipped when a child close
    panicked. *)
Definition detach (o : Srv) (p : option string) : list call :=
  match p with
  | None => [OCIServerDetach (ocisrv o)]
  | Some _ => []
  end.

(** C2 as stated, for a server: after a successful [Close] the server is
    closed and a second [Close] returns an AlreadyClosed-class error and
    changes nothing. *)
Definition C2_as_stated : Prop :=
  forall (W : World) (s s1 : State) (a : addr) (o : Srv),
    Srv_open s a o ->
    Srv.Close W (Some a) s = (Return None, s1) ->
    Srv.IsOpen (Some a) s1 = (Return false, s1)
    /\ exists e, isAlreadyClosed e = true
                 /\ Srv.Close W (Some a) s1 = (Return (Some e), s1).

(** ** What a bind pass and an execute leave unchanged *)

(** The fields of a statement that a bind pass and an execute never
    write. *)
Definition view (o : Stmt) : option StmtCfg * option addr * option handle * Z * string * Z :=
  (stmt_cfg o, ses o, ocistmt o, stmtType o, sql o, stringPtrBufferSize o).

(** The [OCIStmtExecute] calls of a log. *)
Definition execs (l : list call) : list call := filter (fun c => isExecute c = true) l.

(** [quiet s s']: from [s] to [s'] the environments, servers and sessions
    are unchanged, every statement keeps its [view], and no
    [OCIStmtExecute] was logged. *)
Definition quiet (s s' : State) : Prop :=
  envs s' = envs s /\ srvs s' = srvs s /\ sess s' = sess s
  /\ (forall a, view <$> (stmts s' !! a) = view <$> (stmts s !! a))
  /\ execs (log s') = execs (log s).

(** A Go function keeps a relation when its final state is related to its
    initial state, whatever it returns. *)
Definition keeps {A : Type} (R : State -> State -> Prop) (m : Go A) : Prop :=
  forall s, R s (m s).2.

(** The flag [hasPtrBind] of the statement at [a]. *)
Definition flagOf (a : addr) (s : State) : bool :=
  match stmts s !! a with
  | Some o => hasPtrBind o
  | None => false
  end.

(** Whether the configuration of the statement at [a] asks for numeric
    byte arrays. *)
Definition u8_of (a : addr) (s : State) : bool :=
  match (Stmt.Cfg (Some a) s).1 with
  | Return cfg => match byteSlice cfg with U8 => true | Bin => false end
  | Panicked _ => false
  end.

(** A descriptor that was bound by a case setting [hasPtrBind]: it owns an
    output location to copy back to. *)
Definition requiresCopyBack (b : option bnd) : bool :=
  match b with
  | Some (Bound _ _ _ arg) => setsPtrBind arg
  | _ => false
  end.

(** C3 as stated: after a completed bind pass the flag is true iff an
    installed descriptor requires a copy-back. *)
Definition C3_as_stated : Prop :=
  forall (W : World) (s s' : State) (a : addr) (ps : list param) (b : bool) (it : Z) (o' : Stmt),
    Stmt.bind W (Some a) ps b s = (Return (it, None), s') ->
    stmts s' !! a = Some o' ->
    hasPtrBind o' = existsb requiresCopyBack (elems (bnds o')).

(** C5 as stated: the iteration count of a successful bind pass is 1
    without a batch and else the length of the first batch. *)
Definition C5_as_stated : Prop :=
  forall (W : World) (s s' : State) (a : addr) (ps : list param) (b : bool) (it : Z),
    Stmt.bind W (Some a) ps b s = (Return (it, None), s') ->
    it = match firstBatch (u8_of a s) ps with
         | Some n => uint32 (Z.of_nat n)
         | None => 1
         end.





(** C4 as stated: the mode of every execute of [exe] is commit-on-success
    iff the kind is mutating, no transaction is open and auto-commit is
    on. *)
Definition C4_as_stated : Prop :=
  forall (W : World) (s s' : State) (a sa : addr) (o : Stmt) (se : Ses) (cfg : StmtCfg)
         (ps : list param) (b : bool) (r : result (Z * Z * option error))
         (h : option handle) (it m : Z),
    stmts s !! a = Some o -> ses o = Some sa -> sess s !! sa = Some se ->
    Stmt.Cfg (Some a) s = (Return cfg, s) ->
    Stmt.exe W (Some a) ps b s = (r, s') ->
    OCIStmtExecute h it m ∈ log s' ->
    (m = OCI_COMMIT_ON_SUCCESS <->
     isMutating (stmtType o) = true /\ openTxs se = [] /\ IsAutoCommitting cfg = true).

(** The mode [exe] chooses. *)
Definition modeOf (cfg : StmtCfg) (se : Ses) : Z :=
  if IsAutoCommitting cfg && (length (openTxs se) =? 0)%nat
  then OCI_COMMIT_ON_SUCCESS else OCI_DEFAULT.

(** C7 as stated, first half: [exe] on an Insert statement whose text has
    the recognized clause hands [bind] the parameters with the last slot
    replaced by the identity capture. *)
Definition C7_as_stated : Prop :=
  forall (W : World) (s : State) (a : addr) (o : Stmt) (ps : list param),
    Stmt_open s a o ->
    stmtType o = OCI_STMT_INSERT ->
    Stmt.hasLastInsertIdClause W (sql o) = true ->
    ps <> [] ->
    Stmt.exe_params W (Some a) ps s
    = (Return (<[(length ps - 1)%nat := p_int64_ptr lastInsertIdVar]> ps), s).

(** [calm a s s']: [quiet], and the flag of the statement at [a] is
    unchanged. *)
Definition calm (a : addr) (s s' : State) : Prop :=
  quiet s s' /\ flagOf a s' = flagOf a s.

(** What one turn of the bind loop that goes on has done: it was quiet, it
    raised the flag iff [flag], and it set the iteration count iff it
    reported one. *)
Definition turn (a : addr) (s : State) (l : locals) (s' : State) (l' : locals)
           (flag : bool) (reported : option Z) : Prop :=
  quiet s s'
  /\ (is_Some (stmts s !! a) -> flagOf a s' = flagOf a s || flag)
  /\ iterations l' = match reported with Some z => z | None => iterations l end.


(** [once a s s']: from [s] to [s'] at most one [OCIStmtExecute] was
    logged, and its mode is the one [exe_mode] computes in [s]. *)
Definition once (a : addr) (s s' : State) : Prop :=
  exists new, execs (log s') = execs (log s) ++ new
    /\ (new = []
        \/ exists h it m, new = [OCIStmtExecute h it m]
                          /\ (Stmt.exe_mode (Some a) s).1 = Return m).

(** A statement in the store together with the environment at the end of
    its chain of back-references. *)
Definition Stmt_env (s : State) (a : addr) (o : Stmt) (env : Env) : Prop :=
  stmts s !! a = Some o
  /\ exists sa se va sv ea,
       ses o = Some sa /\ sess s !! sa = Some se
       /\ ses_srv se = Some va /\ srvs s !! va = Some sv
       /\ srv_env sv = Some ea /\ envs s !! ea = Some env.

(** [firm a s s']: the statements are the same but for the descriptors and
    the flag of the statement at [a], whose backing array keeps its
    length. *)
Definition capOf (a : addr) (s : State) : option nat :=
  (fun o => length (arr (bnds o))) <$> (stmts s !! a).

Definition firm (a : addr) (s s' : State) : Prop := capOf a s' = capOf a s.

(** [frame s s']: the statements are unchanged. *)
Definition frame (s s' : State) : Prop := stmts s' = stmts s.

(** The shape of the local slice of a bind pass. *)
Definition shapeOf (lb : local_bnds) : option nat :=
  match lb with
  | Shared => None
  | Fresh l => Some (length l)
  end.

(** The descriptor of the identity capture at position [pos]. *)
Definition captureBnd (pos : nat) : bnd :=
  Bound bndIdxInt64Ptr m_bind pos (p_int64_ptr lastInsertIdVar).

(** What a turn of the bind loop reports for a parameter: nothing unless it
    is a batch; for a batch the length, or what the slice binder
    returned. *)
Definition reports_for (W : World) (b : bool) (n : nat) (u8 : bool) (p : param)
           (rep : option Z) : Prop :=
  match batchLength u8 p with
  | None => rep = None
  | Some k => rep = Some (uint32 (Z.of_nat k))
              \/ exists idx m, rep = Some (sliceIterations W (Bound idx m (S n) p) b)
  end.

(** ** Further properties of the modelled functions: vocabulary *)

(** [logged P s s']: from [s] to [s'] the log grew by calls that all
    satisfy [P]. *)
Definition logged (P : call -> bool) (s s' : State) : Prop :=
  exists new, log s' = log s ++ new /\ forallb P new = true.

(** The 1-based position a descriptor is bound at. *)
Definition posOf (b : bnd) : nat :=
  match b with
  | Bound _ _ pos _ => pos
  | BoundNil pos _ => pos
  end.

(** The position of a call of a binder ([bind], [bindOra], ... of a
    descriptor); no other call has one. *)
Definition binderPos (c : call) : option nat :=
  match c with
  | bnd_bind b | bnd_bind_slice b _ => Some (posOf b)
  | _ => None
  end.

(** A binder call at a position between [lo] and [hi]. *)
Definition binderIn (lo hi : nat) (c : call) : bool :=
  match binderPos c with
  | Some p => (lo <=? p)%nat && (p <=? hi)%nat
  | None => false
  end.

(** What a turn of the bind loop that goes on adds to the log: one binder
    call at the position of the parameter. *)
Definition oneAt (n : nat) (s s' : State) : Prop :=
  exists c, log s' = log s ++ [c] /\ binderPos c = Some (S n).

(** The attribute that [setPrefetchSize] sets for a configuration, if any:
    the row count before the memory size. *)
Definition prefetchCall (cfg : StmtCfg) (h : option handle) : option call :=
  if 0 <? prefetchRowCount cfg
  then Some (OCIAttrSet h OCI_ATTR_PREFETCH_ROWS (prefetchRowCount cfg))
  else if 0 <? prefetchMemorySize cfg
       then Some (OCIAttrSet h OCI_ATTR_PREFETCH_MEMORY (prefetchMemorySize cfg))
       else None.

(** ** Further example stores *)

Module Sample.
(** A statement with its own configuration: 10 prefetch rows and 4096
    bytes of prefetch memory. *)
Definition cfg_prefetch : StmtCfg := mkStmtCfg true 10 4096 0 0 Bin 89 78.

Definition stmt_prefetch : Stmt :=
  mkStmt 1 (Some cfg_prefetch) (Some 1%nat) (Some 15%nat) OCI_STMT_SELECT
         "SELECT 1 FROM dual" [] nilSlice false 0 [].

Definition s_prefetch : State :=
  set_stmts (fun m => <[1%nat := stmt_prefetch]> m) Example.s0.

(** A statement with three descriptors, and a world in which the copy-back
    of the descriptor at position 2 fails. *)
Definition b3 : bnd := Bound bndIdxInt64 m_bind 3 (p_int64 9).

Definition stmt_three : Stmt :=
  mkStmt 1 None (Some 1%nat) (Some 15%nat) OCI_STMT_SELECT "SELECT 1 FROM dual" []
         (mkSlice [Some Example.b1; Some Example.b2; Some b3] 3) true 0 [].

Definition s_three : State :=
  set_stmts (fun m => <[1%nat := stmt_three]> m) Example.s0.

Definition W_setPtr : World :=
  mkWorld (fun c => match c with
                    | bnd_setPtr (Bound _ _ 2 _) => Done (Some (er "no buffer"))
                    | _ => Done None
                    end)
          (oci Example.W) (ociErrorMsg Example.W) (newHandle Example.W)
          (sliceIterations Example.W) (rowCount Example.W) (outInt64 Example.W)
          (binPool Example.W) (sesFromPool Example.W) (rsetFromPool Example.W)
          (nextSesId Example.W) (unicodeToUpper Example.W).

(** The letter dotless i (U+0131) in UTF-8, whose upper case is I, and two
    statement texts that hold it: in a trailing comment after the clause,
    and inside the word RETURNING of the clause. *)
Definition dotless_i : string :=
  String (ascii_of_nat 196) (String (ascii_of_nat 177) EmptyString).

Definition text_comment : string :=
  (Example.insertText ++ " -- return" ++ dotless_i ++ "ng")%string.

Definition text_written : string :=
  ("INSERT INTO t (a) VALUES (:1) return" ++ dotless_i
   ++ "ng id /*lastInsertId*/ INTO :2")%string.

(** A mapping of texts that are not ASCII which knows the letters a-z and
    dotless i. *)
Fixpoint upperDotless (s : string) : string :=
  match s with
  | EmptyString => EmptyString
  | String c s' =>
      if (nat_of_ascii c =? 196)%nat then
        match s' with
        | String c2 s'' =>
            if (nat_of_ascii c2 =? 177)%nat then String "I"%char (upperDotless s'')
            else String c (upperDotless s')
        | EmptyString => String c EmptyString
        end
      else String (Strings.upper c) (upperDotless s')
  end.

Definition W_unicode : World :=
  mkWorld (answer Example.W) (oci Example.W) (ociErrorMsg Example.W) (newHandle Example.W)
          (sliceIterations Example.W) (rowCount Example.W) (outInt64 Example.W)
          (binPool Example.W) (sesFromPool Example.W) (rsetFromPool Example.W)
          (nextSesId Example.W) upperDotless.
End Sample.

(** [kept proj s s']: every statement keeps its projection [proj]. *)
Definition kept {X : Type} (proj : Stmt -> X) (s s' : State) : Prop :=
  forall a, proj <$> (stmts s' !! a) = proj <$> (stmts s !! a).

(** [upTo P k s s']: from [s] to [s'] the log grew by calls that satisfy
    [P], at most [k] of them executes. *)
Definition upTo (P : call -> bool) (k : nat) (s s' : State) : Prop :=
  exists new, log s' = log s ++ new /\ forallb P new = true
              /\ (length (execs new) <= k)%nat.

(** [ends R s0 Q m s]: when [s] was reached from [s0] along [R], running
    [m] from [s] either returns a value and a state that satisfy [Q], or
    panics in a state reached from [s0] along [R]. *)
Definition ends {A : Type} (R : State -> State -> Prop) (s0 : State)
           (Q : A -> State -> Prop) (m : Go A) (s : State) : Prop :=
  R s0 s ->
  match m s with
  | (Return x, s') => Q x s'
  | (Panicked _, s') => R s0 s'
  end.

(** The calls [qry] may make: binders, the prefetch attributes, the
    execute with no iterations in the default mode, the copy-back of the
    descriptors, and the open and close of the result set. *)
Definition qryCall (c : call) : bool :=
  match c with
  | bnd_bind _ | bnd_bind_slice _ _ | bnd_setPtr _ | rset_open _ _ | rset_close _ => true
  | OCIAttrSet _ OCI_ATTR_PREFETCH_ROWS _ | OCIAttrSet _ OCI_ATTR_PREFETCH_MEMORY _ => true
  | OCIStmtExecute _ iters mode => (iters =? 0) && (mode =? OCI_DEFAULT)
  | _ => false
  end.

(** The calls of [qry] other than the execute. *)
Definition qryCall0 (c : call) : bool := qryCall c && negb (isExecute c).

(** What [qry] on the statement at [a] leaves of the open result sets of
    [s0]: with an error, those of every statement as they were; without,
    the result set [r] returned and added to those of the statement. *)
Definition qryOutcome (a r : addr) (s0 : State) (res : option addr * option error)
           (s' : State) : Prop :=
  match res.2 with
  | Some _ => kept openRsets s0 s'
  | None =>
      res.1 = Some r
      /\ exists o o', stmts s0 !! a = Some o /\ stmts s' !! a = Some o'
                      /\ openRsets o' = openRsets o ++ [r]
                      /\ forall a', a' <> a ->
                           openRsets <$> (stmts s' !! a') = openRsets <$> (stmts s0 !! a')
  end.

(** ** Srv.OpenSes: vocabulary *)

(** [still s s']: the environments, servers, sessions and statements are
    unchanged. *)
Definition still (s s' : State) : Prop :=
  envs s' = envs s /\ srvs s' = srvs s /\ sess s' = sess s /\ stmts s' = stmts s.

(** Whether a session configuration carries credentials. *)
Definition withCredentials (cfg : SesCfg) : bool :=
  negb (Username cfg =? "")%string || negb (Password cfg =? "")%string.

Definition cred_eqb (x y : cred) : bool :=
  match x, y with
  | OCI_CRED_EXT, OCI_CRED_EXT | OCI_CRED_RDBMS, OCI_CRED_RDBMS => true
  | _, _ => false
  end.

(** The calls [OpenSes] may make for a configuration: handle allocations,
    attributes (the user name and the password only with credentials), and
    the begin of the session with the credential type and the mode of the
    configuration. *)
Definition openSesCall (cfg : SesCfg) (c : call) : bool :=
  match c with
  | env_allocOciHandle _ => true
  | env_setAttr _ _ OCI_ATTR_USERNAME | env_setAttr _ _ OCI_ATTR_PASSWORD =>
      negb (Username cfg =? "")%string || negb (Password cfg =? "")%string
  | env_setAttr _ _ _ => true
  | OCISessionBegin _ _ credt mode =>
      cred_eqb credt (if negb (Username cfg =? "")%string || negb (Password cfg =? "")%string
                      then OCI_CRED_RDBMS else OCI_CRED_EXT)
      && (mode =? match Mode cfg with
                  | SysDba => OCI_SYSDBA
                  | SysOper => OCI_SYSOPER
                  | DSNMode => OCI_DEFAULT
                  end)
  | _ => false
  end.

(** What [OpenSes] on the server at [a] leaves of the store [s0]: with an
    error no session is returned and the store is as it was; without, the
    session taken from the pool is returned, holds the server, the
    configuration and the two new handles, and is added to the open
    sessions of the server, and nothing else changes. *)
Definition openSesOutcome (W : World) (a : addr) (cfg : SesCfg) (s0 : State)
           (res : option addr * option error) (s' : State) : Prop :=
  match res.2 with
  | Some _ => res.1 = None /\ still s0 s'
  | None =>
      let ses := sesFromPool W in
      res.1 = Some ses
      /\ (exists o, srvs s0 !! a = Some o
            /\ srvs s' = <[a := mkSrv (srv_id o) (srv_cfg o) (srv_env o) (ocisrv o) (isUTF8 o)
                                      (openSess o ++ [ses])]> (srvs s0))
      /\ (exists x, sess s' !! ses = Some x
            /\ ses_srv x = Some a /\ ses_cfg x = Some cfg
            /\ ocisvcctx x = Some (newHandle W OCI_HTYPE_SVCCTX)
            /\ ocises x = Some (newHandle W OCI_HTYPE_SESSION))
      /\ (forall x, x <> ses -> sess s' !! x = sess s0 !! x)
      /\ envs s' = envs s0 /\ stmts s' = stmts s0
  end.

(** Every call but the read of a statement attribute. *)
Definition noAttrGet (c : call) : bool :=
  match c with
  | OCIAttrGet _ _ => false
  | _ => true
  end.

(** [plain s s']: every statement keeps its [view], and no attribute was
    read. *)
Definition plain (s s' : State) : Prop := kept view s s' /\ logged noAttrGet s s'.

(** ** Logging configuration ([drv.go]) *)

Module Log.
(** The dynamic value of the [Logger] interface field: nil, the empty
    logger [EmpLgr], or another implementation. *)
Inductive Logger : Set := nilLogger | EmpLgr | otherLgr (name : string).

Record LogSrvCfg : Set := mkLogSrvCfg { Close : bool; OpenSes : bool; Version : bool }.

Definition NewLogSrvCfg : LogSrvCfg := mkLogSrvCfg true true true.

Record LogStmtCfg : Set := mkLogStmtCfg {
  stmt_Close : bool; Exe : bool; Qry : bool; Bind : bool
}.

Definition NewLogStmtCfg : LogStmtCfg := mkLogStmtCfg true true true true.

(** [LogDrvCfg]; the configurations of the environment, session,
    transaction, connection and result set are declared in other files and
    are carried as [rest]. *)
Record LogDrvCfg (Rest : Type) : Type := mkLogDrvCfg {
  logger : Logger;
  OpenEnv : bool; Ins : bool; Upd : bool; Del : bool; Sel : bool; AddTbl : bool;
  Srv : LogSrvCfg;
  Stmt : LogStmtCfg;
  rest : Rest
}.
Arguments mkLogDrvCfg {Rest}.
Arguments logger {Rest}.

Definition NewLogDrvCfg {Rest : Type} (newRest : Rest) : LogDrvCfg Rest :=
  mkLogDrvCfg EmpLgr true true true true true true NewLogSrvCfg NewLogStmtCfg newRest.

Definition IsEnabled {Rest : Type} (c : LogDrvCfg Rest) (enabled : bool) : bool :=
  if negb enabled || match logger c with nilLogger => true | _ => false end
  then false
  else negb (match logger c with EmpLgr => true | _ => false end).
End Log.

(** A call that is not a slice binder, or a slice binder called with the
    flag [b]. *)
Definition sliceMode (b : bool) (c : call) : bool :=
  match c with
  | bnd_bind_slice _ isAssocArray => Bool.eqb isAssocArray b
  | _ => true
  end.

(** ** The descriptors a bind pass installs: vocabulary *)

(** The descriptor whose binder a call invokes. *)
Definition descOfCall (c : call) : option bnd :=
  match c with
  | bnd_bind d | bnd_bind_slice d _ => Some d
  | _ => None
  end.

(** The bind of a NULL descriptor ([setNilBind]). *)
Definition isNilBind (c : call) : bool :=
  match c with
  | bnd_bind (BoundNil _ _) => true
  | _ => false
  end.

(** The backing array behind the local slice of a bind pass: its own when
    it is fresh, the one of [stmt.bnds] when it is shared. *)
Definition effArr (a : addr) (s : State) (lb : local_bnds) : option (list (option bnd)) :=
  match lb with
  | Fresh arr => Some arr
  | Shared => (fun o => arr (bnds o)) <$> (stmts s !! a)
  end.

(** The array after the descriptors of the calls [cs] were stored from
    index [n] on. *)
Fixpoint installAll (n : nat) (cs : list call) (arr : list (option bnd))
  : list (option bnd) :=
  match cs with
  | [] => arr
  | c :: cs' => installAll (S n) cs' (<[n := descOfCall c]> arr)
  end.

(** What a turn of the bind loop that goes on did at index [n]: one call,
    which binds a NULL descriptor or whose descriptor was stored at [n]. *)
Definition installs (a : addr) (n : nat) (s : State) (l : locals) (s' : State) (l' : locals)
  : Prop :=
  exists c, log s' = log s ++ [c]
    /\ (isNilBind c = true
        \/ effArr a s' (l_bnds l')
           = (fun arr => <[n := descOfCall c]> arr) <$> effArr a s (l_bnds l)).

(** * Properties *)

(** ** Stepping through Go functions *)

Lemma deref_Some {A : Type} (m : State -> gmap addr A) (a : addr) (x : A) (s : State) :
  m s !! a = Some x -> deref m (Some a) s = (Return x, s).
Proof. intros H. unfold deref. by rewrite H. Qed.

Lemma deref_state {A : Type} (m : State -> gmap addr A) (p : option addr) (s : State) :
  (deref m p s).2 = s.
Proof. unfold deref. destruct p as [a|]; [destruct (m s !! a)|]; done. Qed.

(** ** C9: the open test on a nil receiver *)

(** C9 (code differs): [Srv.IsOpen] on a nil receiver returns false, but
    [Stmt.IsOpen] on a nil receiver locks the receiver before any test and
    panics with a nil dereference instead of returning false. *)
Theorem IsOpen_nil_receiver (s : State) :
  Srv.IsOpen None s = (Return false, s)
  /\ Stmt.IsOpen None s = (Panicked nil_dereference, s).
Proof. split; reflexivity. Qed.

(** ** C1: Stmt.Close *)

(** C1 (code differs): on a statement whose session reference and native
    handle are present, [Stmt.Close] returns nil and changes nothing: the
    test [ok := stmt.ses == nil] is inverted, so the statement stays open,
    nothing is released and it stays in the session's open-statement
    set. *)
Theorem Stmt_Close_leaves_open (W : World) (s : State) (a sa : addr) (h : handle) (o : Stmt) :
  stmts s !! a = Some o -> ses o = Some sa -> ocistmt o = Some h ->
  Stmt.Close W (Some a) s = (Return None, s)
  /\ Stmt.IsOpen (Some a) s = (Return true, s).
Proof.
  intros Ho Hs Hh. split.
  - unfold Stmt.Close, Stmt.closeWithRemove, seq.
    rewrite (deref_Some stmts a o s Ho), Hs. reflexivity.
  - unfold Stmt.IsOpen, seq. rewrite (deref_Some stmts a o s Ho), Hh. reflexivity.
Qed.

Lemma Stmt_Close_leaves_open_witness :
  Stmt.Close Example.W (Some 1%nat) Example.s0 = (Return None, Example.s0)
  /\ Stmt.IsOpen (Some 1%nat) Example.s0 = (Return true, Example.s0).
Proof.
  apply (Stmt_Close_leaves_open Example.W Example.s0 1%nat 1%nat 15%nat
           (Example.stmt1 OCI_STMT_SELECT "SELECT 1 FROM dual")); reflexivity.
Defined.

(** On a statement without session reference [Stmt.Close] dereferences the
    nil session and panics. *)
Lemma Stmt_Close_without_session (W : World) (s : State) (a : addr) (o : Stmt) :
  stmts s !! a = Some o -> ses o = None ->
  Stmt.Close W (Some a) s = (Panicked nil_dereference, s).
Proof.
  intros Ho Hs. unfold Stmt.Close, Stmt.closeWithRemove, seq.
  rewrite (deref_Some stmts a o s Ho), Hs. reflexivity.
Qed.

(** ** C10: the recover of OpenSes, exe and qry *)

Lemma catch_returns {A : Type} (m : Go A) (h : string -> Go A) (s : State) :
  (forall v s1, exists r s2, h v s1 = (Return r, s2)) ->
  exists r s', catch m h s = (Return r, s').
Proof.
  intros Hh. unfold catch. destruct (m s) as [[x|v] s1]; eauto.
Qed.

Lemma catch_panicked {A : Type} (m : Go A) (h : string -> Go A) (s s1 : State) (v : string) :
  m s = (Panicked v, s1) -> catch m h s = h v s1.
Proof. intros H. unfold catch. by rewrite H. Qed.

(** C10: [Srv.OpenSes], [Stmt.exe] (thus [Exe] and [ExeP]) and [Stmt.qry]
    (thus [Qry]) never propagate a panic: whatever the world answers, they
    return; and a panic of the body becomes the error [errR value] of the
    returned results. *)
Theorem open_and_execute_never_panic (W : World) :
  (forall srv cfg s, exists r s', Srv.OpenSes W srv cfg s = (Return r, s'))
  /\ (forall stmt ps b s, exists r s', Stmt.exe W stmt ps b s = (Return r, s'))
  /\ (forall stmt ps s, exists r s', Stmt.Exe W stmt ps s = (Return r, s'))
  /\ (forall stmt ps s, exists r s', Stmt.ExeP W stmt ps s = (Return r, s'))
  /\ (forall stmt ps s, exists r s', Stmt.qry W stmt ps s = (Return r, s'))
  /\ (forall stmt ps s, exists r s', Stmt.Qry W stmt ps s = (Return r, s'))
  /\ (forall srv cfg s s1 v, SesCfg_IsZero cfg = false ->
        Srv.OpenSes_body W srv cfg s = (Panicked v, s1) ->
        Srv.OpenSes W srv cfg s = (Return (None, Some (errR v)), s1))
  /\ (forall a ps b s s1 v,
        Stmt.exe_body W (Some a) ps b (set_lastInsertId 0 s) = (Panicked v, s1) ->
        Stmt.exe W (Some a) ps b s = (Return (0, lastInsertId s1, Some (errR v)), s1))
  /\ (forall stmt ps s s1 v,
        Stmt.qry_body W stmt ps s = (Panicked v, s1) ->
        Stmt.qry W stmt ps s = (Return (None, Some (errR v)), s1)).
Proof.
  assert (Hexe : forall stmt ps b s, exists r s', Stmt.exe W stmt ps b s = (Return r, s')).
  { intros [a|] ps b s; simpl; [|by eauto].
    unfold seq, modify. apply catch_returns. intros v s1. unfold seq, get, ret. eauto. }
  assert (Hqry : forall stmt ps s, exists r s', Stmt.qry W stmt ps s = (Return r, s')).
  { intros stmt ps s. unfold Stmt.qry. apply catch_returns. unfold ret. eauto. }
  repeat split.
  - intros srv cfg s. unfold Srv.OpenSes. destruct (SesCfg_IsZero cfg).
    + unfold ret. eauto.
    + apply catch_returns. unfold ret. eauto.
  - exact Hexe.
  - intros stmt ps s. unfold Stmt.Exe, seq.
    destruct (Hexe stmt ps false s) as ([[ra li] e] & s' & ->). unfold ret. eauto.
  - intros stmt ps s. unfold Stmt.ExeP, seq.
    destruct (Hexe stmt ps true s) as ([[ra li] e] & s' & ->). unfold ret. eauto.
  - exact Hqry.
  - exact Hqry.
  - intros srv cfg s s1 v Hz Hb. unfold Srv.OpenSes. rewrite Hz.
    by rewrite (catch_panicked _ _ _ _ _ Hb).
  - intros a ps b s s1 v Hb. unfold Stmt.exe, seq, modify.
    by rewrite (catch_panicked _ _ _ _ _ Hb).
  - intros stmt ps s s1 v Hb. unfold Stmt.qry.
    by rewrite (catch_panicked _ _ _ _ _ Hb).
Qed.

(** ** Teardown loops *)

Lemma more_nil (s : State) : more [] [] s = s.
Proof. destruct s. unfold more. simpl. by rewrite !app_nil_r. Qed.

Lemma more_more (es1 es2 : list error) (cs1 cs2 : list call) (s : State) :
  more es2 cs2 (more es1 cs1 s) = more (es1 ++ es2) (cs1 ++ cs2) s.
Proof. unfold more. simpl. by rewrite !app_assoc. Qed.

Lemma attempt_app (W : World) (cs1 cs2 : list call) :
  attempt W (cs1 ++ cs2) =
  match attempt W cs1 with
  | (tried1, es1, None) =>
      let '(tried2, es2, p) := attempt W cs2 in (tried1 ++ tried2, es1 ++ es2, p)
  | (tried1, es1, Some v) => (tried1, es1, Some v)
  end.
Proof.
  induction cs1 as [|c cs1 IH]; simpl.
  - by destruct (attempt W cs2) as [[? ?] ?].
  - destruct (answer W c) as [e|v]; [|done].
    rewrite IH. destruct (attempt W cs1) as [[t1 e1] [v|]]; [by destruct e|].
    destruct (attempt W cs2) as [[t2 e2] p]. by destruct e.
Qed.

(** When no child call panics, every child is attempted. *)
Lemma attempt_all (W : World) (cs : list call) :
  (forall c, c ∈ cs -> exists e, answer W c = Done e) ->
  exists es, attempt W cs = (cs, es, None).
Proof.
  induction cs as [|c cs IH]; intros H; simpl; [by eauto|].
  destruct (H c) as [e He]; [by left|]. rewrite He.
  destruct IH as [es Hes]; [intros c' Hc'; apply H; by right|].
  rewrite Hes. eauto.
Qed.

(** Nothing is collected exactly when every attempted child returns nil. *)
Lemma attempt_clean (W : World) (cs : list call) :
  (forall c, c ∈ cs -> answer W c = Done None) <-> attempt W cs = (cs, [], None).
Proof.
  induction cs as [|c cs IH]; simpl.
  - split; [done|]. intros _ c Hc. by apply elem_of_nil in Hc.
  - split.
    + intros H. rewrite (H c); [|by left].
      destruct IH as [IH _]. rewrite IH; [done|]. intros c' Hc'. apply H. by right.
    + intros H c' Hc'. destruct (answer W c) as [e|v] eqn:Ha.
      * destruct (attempt W cs) as [[t es] p] eqn:Hat.
        destruct e as [e|]; [by inversion H|].
        inversion H; subst. apply elem_of_cons in Hc' as [->|Hc']; [done|].
        by apply IH.
      * inversion H; subst; by destruct cs.
Qed.

Section Loops.
Variable W : World.

Lemma sesList_closeAll_spec (l : list addr) (s : State) :
  Srv.sesList_closeAll W l s =
  let '(tried, es, p) := attempt W (map ses_close l) in (outcome p, more es tried s).
Proof.
  revert s. induction l as [|x l IH]; intros s; simpl.
  - by rewrite more_nil.
  - unfold seq, call_go, modify, PushBack. simpl.
    destruct (answer W (ses_close x)) as [[e|]|v]; simpl.
    + rewrite IH. destruct (attempt W (map ses_close l)) as [[t es] p].
      f_equal. destruct s; unfold more; simpl. by rewrite <- !app_assoc.
    + rewrite IH. destruct (attempt W (map ses_close l)) as [[t es] p].
      f_equal. destruct s; unfold more; simpl. by rewrite <- !app_assoc.
    + f_equal. destruct s; unfold more; simpl. by rewrite app_nil_r.
Qed.

Lemma rsetList_closeAll_spec (l : list addr) (s : State) :
  Stmt.rsetList_closeAll W l s =
  let '(tried, es, p) := attempt W (map rset_close l) in (outcome p, more es tried s).
Proof.
  revert s. induction l as [|x l IH]; intros s; simpl.
  - by rewrite more_nil.
  - unfold seq, call_go, modify, PushBack. simpl.
    destruct (answer W (rset_close x)) as [[e|]|v]; simpl.
    + rewrite IH. destruct (attempt W (map rset_close l)) as [[t es] p].
      f_equal. destruct s; unfold more; simpl. by rewrite <- !app_assoc.
    + rewrite IH. destruct (attempt W (map rset_close l)) as [[t es] p].
      f_equal. destruct s; unfold more; simpl. by rewrite <- !app_assoc.
    + f_equal. destruct s; unfold more; simpl. by rewrite app_nil_r.
Qed.

Lemma close_bnds_spec (l : list (option bnd)) (s : State) :
  Stmt.close_bnds W l s =
  let '(tried, es, p) := attempt W (map bnd_close (omap id l)) in (outcome p, more es tried s).
Proof.
  revert s. induction l as [|[b|] l IH]; intros s; simpl.
  - by rewrite more_nil.
  - unfold seq, call_go, modify, PushBack. simpl.
    change (list_omap (option bnd) bnd id l) with (omap id l).
    destruct (answer W (bnd_close b)) as [[e|]|v]; simpl.
    + rewrite IH. destruct (attempt W (map bnd_close (omap id l))) as [[t es] p].
      f_equal. destruct s; unfold more; simpl. by rewrite <- !app_assoc.
    + rewrite IH. destruct (attempt W (map bnd_close (omap id l))) as [[t es] p].
      f_equal. destruct s; unfold more; simpl. by rewrite <- !app_assoc.
    + f_equal. destruct s; unfold more; simpl. by rewrite app_nil_r.
  - apply IH.
Qed.

Lemma Stmt_close_body_spec (a : addr) (o : Stmt) (s : State) :
  stmts s !! a = Some o ->
  Stmt.close_body W a s =
  let '(tried, es, p) := attempt W (Stmt_children o) in (outcome p, more es tried s).
Proof.
  intros Ho. unfold Stmt.close_body, seq, Stmt_children.
  rewrite (deref_Some stmts a o s Ho), close_bnds_spec, attempt_app.
  destruct (attempt W (map bnd_close (omap id (elems (bnds o))))) as [[t1 e1] [v|]]; [done|].
  simpl. rewrite Ho, rsetList_closeAll_spec.
  destruct (attempt W (map rset_close (openRsets o))) as [[t2 e2] p].
  by rewrite more_more.
Qed.

End Loops.

(** ** The exact effect of Stmt.close and Srv.close *)

(** Symbolic execution: unfold the primitives and rewrite with the known
    lookups. *)
Ltac unfold_go :=
  unfold seq, catch, defer, orReturn, ret, panic, get, modify, deref, call_go, call_oci,
    PushBack, listPool_Get, Stmt.env_of, Stmt.SetCfg, Stmt.update, Srv.SetCfg, Srv.update,
    Env.checkClosed, Env.Cfg,
    set_envs, set_srvs, set_sess, set_stmts, set_heap, set_lastInsertId, set_srvPool,
    set_sesPool, set_stmtPool, set_errs, set_log in *.

Ltac run :=
  repeat first
    [ progress unfold_go
    | progress simpl
    | rewrite lookup_insert_eq
    | rewrite insert_insert_eq
    | match goal with
      | H : _ = Some _ |- _ => rewrite H
      | H : _ = None |- _ => rewrite H
      end ].

Lemma seq_assoc {A B C : Type} (m : Go A) (k1 : A -> Go B) (k2 : B -> Go C) (s : State) :
  seq (seq m k1) k2 s = seq m (fun x => seq (k1 x) k2) s.
Proof. unfold seq. by destruct (m s) as [[x|v] s']. Qed.

Lemma seq_deref {A B : Type} (m : State -> gmap addr A) (a : addr) (x : A)
      (k : A -> Go B) (s : State) :
  m s !! a = Some x -> seq (deref m (Some a)) k s = k x s.
Proof. intros H. unfold seq. by rewrite (deref_Some m a x s H). Qed.

Lemma seq_ret {A B : Type} (x : A) (k : A -> Go B) (s : State) :
  seq (ret x) k s = k x s.
Proof. reflexivity. Qed.

Lemma seq_modify {B : Type} (f : State -> State) (k : unit -> Go B) (s : State) :
  seq (modify f) k s = k tt (f s).
Proof. reflexivity. Qed.

Section Close.
Variable W : World.

Lemma Stmt_close_deferred_spec (a : addr) (o : Stmt) (s : State) (p : option string) :
  Stmt_open s a o ->
  Stmt.close_deferred W a p s =
  let c := OCIStmtRelease (ocistmt o) in
  (Return (merged (errs s ++ recovered p ++ releaseError W c)),
   mkState (envs s) (srvs s) (sess s) (<[a := Stmt_closed o]> (stmts s)) (heap s)
           (lastInsertId s) (srvPool s) (sesPool s) (a :: stmtPool s) []
           (log s ++ [c])).
Proof.
  intros (Ho & _ & sa & se & va & sv & ea & env & Hs & Hse & Hv & Hsv & He & Henv).
  destruct s as [E V S T hp li p1 p2 p3 er lg]. simpl in *.
  unfold Stmt.close_deferred, releaseError, merged.
  destruct p as [v|]; run; destruct (sword_eqb _ _); run;
    rewrite ?app_nil_r, <- ?app_assoc; reflexivity.
Qed.


Lemma Stmt_close_spec (a : addr) (o : Stmt) (s : State) :
  Stmt_open s a o ->
  Stmt.close W (Some a) s =
  let '(tried, es, p) := attempt W (Stmt_children o) in
  let c := OCIStmtRelease (ocistmt o) in
  (Return (merged (es ++ recovered p ++ releaseError W c)),
   mkState (envs s) (srvs s) (sess s) (<[a := Stmt_closed o]> (stmts s)) (heap s)
           (lastInsertId s) (srvPool s) (sesPool s) (a :: stmtPool s) []
           (log s ++ tried ++ [c])).
Proof.
  intros Hopen. pose proof Hopen as (Ho & [h Hh] & Hchain).
  unfold Stmt.close, Stmt.checkClosed.
  rewrite seq_assoc, (seq_deref stmts a o _ s Ho), Hh, seq_ret.
  unfold listPool_Get. rewrite seq_modify. unfold defer.
  rewrite (Stmt_close_body_spec W a o); [|done].
  destruct (attempt W (Stmt_children o)) as [[tried es] p].
  assert (Hopen' : Stmt_open (more es tried (set_errs (fun _ => []) s)) a o) by exact Hopen.
  destruct p as [v|]; simpl outcome; cbv iota beta;
    rewrite (Stmt_close_deferred_spec a o _ _ Hopen'); simpl.
  all: by rewrite ?Hh, <- ?app_assoc.
Qed.

Lemma Srv_close_deferred_spec (a : addr) (o : Srv) (s : State) (p : option string) :
  srvs s !! a = Some o ->
  Srv.close_deferred a p s =
  (Return (merged (errs s ++ recovered p)),
   mkState (envs s) (<[a := Srv_closed o]> (srvs s)) (sess s) (stmts s) (heap s)
           (lastInsertId s) (a :: srvPool s) (sesPool s) (stmtPool s) [] (log s)).
Proof.
  intros Ho. destruct s as [E V S T hp li p1 p2 p3 er lg]. simpl in *.
  unfold Srv.close_deferred, merged.
  destruct p as [v|]; run; rewrite ?app_nil_r; reflexivity.
Qed.

Lemma Srv_close_spec (a : addr) (o : Srv) (s : State) :
  Srv_open s a o ->
  Srv.close W (Some a) s =
  let '(tried, es, p) := attempt W (Srv_children o) in
  let c := OCIServerDetach (ocisrv o) in
  let detach := match p with None => [c] | Some _ => [] end in
  let detachError := match p with None => releaseError W c | Some _ => [] end in
  (Return (merged (es ++ recovered p ++ detachError)),
   mkState (envs s) (<[a := Srv_closed o]> (srvs s)) (sess s) (stmts s) (heap s)
           (lastInsertId s) (a :: srvPool s) (sesPool s) (stmtPool s) []
           (log s ++ tried ++ detach)).
Proof.
  intros (Ho & [h Hh] & ea & env & He & Henv & [h' Hh']).
  destruct s as [E V S T hp li p1 p2 p3 er lg]. simpl in *.
  unfold Srv.close, Srv.checkClosed, Srv.close_body, Srv_children, releaseError.
  rewrite seq_assoc, (seq_deref srvs a o); [|done]. rewrite Hh.
  unfold Env.checkClosed. rewrite He, seq_assoc, (seq_deref envs ea env); [|done].
  rewrite Hh', seq_ret, (seq_deref srvs a o); [|done].
  unfold listPool_Get. rewrite seq_modify. unfold defer.
  unfold seq at 1. rewrite sesList_closeAll_spec.
  destruct (attempt W (map ses_close (openSess o))) as [[tried es] p].
  destruct p as [v|]; simpl outcome; cbv iota beta.
  - rewrite (Srv_close_deferred_spec a o); [|done]. simpl. by rewrite !app_nil_r.
  - rewrite (seq_deref srvs a o); [|done]. rewrite He.
    rewrite (seq_deref envs ea env); [|done].
    unfold call_oci. rewrite seq_assoc, seq_modify, seq_ret, ?Hh.
    destruct (sword_eqb (oci W (OCIServerDetach (Some h))) OCI_ERROR).
    + rewrite (seq_deref envs ea env); [|done]. unfold PushBack, modify.
      rewrite (Srv_close_deferred_spec a o); [|done].
      simpl. by rewrite ?app_nil_r, <- ?app_assoc.
    + unfold ret. rewrite (Srv_close_deferred_spec a o); [|done].
      simpl. by rewrite ?app_nil_r, <- ?app_assoc.
Qed.

End Close.

(** ** C8: what a teardown attempts and reports *)

Lemma sword_eqb_eq (a b : sword) : sword_eqb a b = true <-> a = b.
Proof. destruct a, b; simpl; split; congruence. Qed.

Lemma merged_None (es : list error) : merged es = None <-> es = [].
Proof. destruct es; unfold merged; simpl; split; congruence. Qed.

Lemma attempt_facts (W : World) (cs tried : list call) (es : list error) (p : option string) :
  attempt W cs = (tried, es, p) ->
  (forall c e, c ∈ tried -> answer W c = Done (Some e) -> errE e ∈ es)
  /\ (forall c v, c ∈ tried -> answer W c = Panics v -> p = Some v)
  /\ (p = None -> tried = cs)
  /\ ((forall c, c ∈ cs -> exists e, answer W c = Done e) -> p = None)
  /\ (es = [] /\ p = None <-> forall c, c ∈ cs -> answer W c = Done None).
Proof.
  revert tried es p. induction cs as [|c cs IH]; intros tried es p H; simpl in H.
  - inversion H; subst. split; [|split; [|split; [|split; [|split]]]]; try done.
    + intros c e Hc. by apply elem_of_nil in Hc.
    + intros c v Hc. by apply elem_of_nil in Hc.
    + intros _ c Hc. by apply elem_of_nil in Hc.
  - destruct (answer W c) as [e|v] eqn:Ha.
    + destruct (attempt W cs) as [[t1 e1] p1] eqn:Hat.
      destruct (IH t1 e1 p1 eq_refl) as (I1 & I2 & I3 & I4 & I5).
      inversion H; subst. split; [|split; [|split; [|split; [|split]]]].
      * intros c' e' Hc' Ha'. apply elem_of_cons in Hc' as [->|Hc'].
        -- rewrite Ha in Ha'. inversion Ha'; subst. by left.
        -- destruct e; [right|]; by eapply I1.
      * intros c' v Hc' Ha'. apply elem_of_cons in Hc' as [->|Hc'].
        -- congruence.
        -- by eapply I2.
      * intros Hp. by rewrite I3.
      * intros Hall. apply I4. intros c' Hc'. apply Hall. by right.
      * intros [He Hp] c' Hc'. destruct e; [done|].
        apply elem_of_cons in Hc' as [->|Hc']; [done|]. apply I5; [|done]. by split.
      * intros Hall. destruct e as [e|].
        -- specialize (Hall c (list_elem_of_here _ _)). congruence.
        -- apply I5. intros c' Hc'. apply Hall. by right.
    + inversion H; subst. split; [|split; [|split; [|split; [|split]]]]; try done.
      * intros c' e' Hc' Ha'. apply list_elem_of_singleton in Hc' as ->. congruence.
      * intros c' v' Hc' Ha'. apply list_elem_of_singleton in Hc' as ->. congruence.
      * intros Hall. destruct (Hall c) as [e He]; [by left|congruence].
      * by intros [_ ?].
      * intros Hall. specialize (Hall c (list_elem_of_here _ _)). congruence.
Qed.

Lemma reports_intro (W : World) (children tried : list call) (es : list error)
      (p : option string) (release : list call) :
  attempt W children = (tried, es, p) ->
  (p <> None -> release = []) ->
  reports W children tried release
          (merged (es ++ recovered p ++ flat_map (releaseError W) release)).
Proof.
  intros Hat Hrel. destruct (attempt_facts W children tried es p Hat) as (F1 & F2 & F3 & F4 & F5).
  split; [|split].
  - exists (es ++ recovered p ++ flat_map (releaseError W) release).
    split; [done|split; [|split]].
    + intros c e Hc Ha. apply elem_of_app. left. by eapply F1.
    + intros c v Hc Ha. rewrite (F2 c v Hc Ha). simpl.
      apply elem_of_app. right. by left.
    + intros c Hc Ho. apply elem_of_app. right. apply elem_of_app. right.
      apply list_elem_of_In, in_flat_map. exists c. split; [by apply list_elem_of_In|].
      unfold releaseError. rewrite Ho. simpl. by left.
  - split.
    + intros Hm. apply merged_None in Hm.
      apply app_eq_nil in Hm as [He Hm]. apply app_eq_nil in Hm as [Hp Hm].
      split.
      * intros c Hc. destruct F5 as [F5 _]. apply F5; [|done]. split; [done|]. by destruct p.
      * intros c Hc Ho.
        assert (Hin : In (errE (ociError (ociErrorMsg W)))
                         (flat_map (releaseError W) release)).
        { apply in_flat_map. exists c. split; [by apply list_elem_of_In|].
          unfold releaseError. rewrite Ho. simpl. by left. }
        rewrite Hm in Hin. done.
    + intros [Hall Hrelok]. apply merged_None.
      destruct F5 as [_ F5]. destruct (F5 Hall) as [-> ->]. simpl.
      clear Hrel. induction release as [|c rel IHr]; simpl; [done|].
      unfold releaseError at 1. destruct (sword_eqb (oci W c) OCI_ERROR) eqn:Hc.
      * apply sword_eqb_eq in Hc. exfalso. eapply Hrelok; [by left|done].
      * simpl. apply IHr. intros c' Hc'. apply Hrelok. by right.
  - intros Hall. apply F3, F4, Hall.
Qed.

Lemma attempt_stops (W : World) (cs tried : list call) (es : list error) (p : option string) :
  attempt W cs = (tried, es, p) -> stops W cs tried p.
Proof.
  revert tried es p. induction cs as [|c cs IH]; intros tried es p H; simpl in H.
  - injection H as <- <- <-. split; [done|]. intros c Hc. by apply elem_of_nil in Hc.
  - destruct (answer W c) as [e|v] eqn:Ha.
    + destruct (attempt W cs) as [[t1 e1] p1] eqn:Hat.
      specialize (IH t1 e1 p1 eq_refl). injection H as <- <- <-.
      destruct p1 as [v|]; simpl in *.
      * destruct IH as (pre & c' & skipped & -> & -> & Hpre & Hc').
        exists (c :: pre), c', skipped. repeat split; try done.
        intros c0 Hc0. apply elem_of_cons in Hc0 as [->|Hc0]; [by eauto|by apply Hpre].
      * destruct IH as [-> Hall]. split; [done|].
        intros c0 Hc0. apply elem_of_cons in Hc0 as [->|Hc0]; [by eauto|by apply Hall].
    + injection H as <- <- <-. exists [], c, cs. repeat split; try done.
      intros c0 Hc0. by apply elem_of_nil in Hc0.
Qed.

Lemma attempt_failures (W : World) (cs tried : list call) (es : list error)
      (p : option string) :
  attempt W cs = (tried, es, p) -> omap (failure W) tried = es ++ recovered p.
Proof.
  revert tried es p. induction cs as [|c cs IH]; intros tried es p H; simpl in H.
  - by injection H as <- <- <-.
  - destruct (answer W c) as [e|v] eqn:Ha.
    + destruct (attempt W cs) as [[t1 e1] p1] eqn:Hat.
      specialize (IH t1 e1 p1 eq_refl). injection H as <- <- <-.
      cbn [omap list_omap]. unfold failure at 1. rewrite Ha.
      destruct e as [e|]; by rewrite IH.
    + injection H as <- <- <-. cbn [omap list_omap]. unfold failure. by rewrite Ha.
Qed.

(** C8 (amended): [Stmt.close] and [Srv.close] on an open node always
    return, never panic.  They attempt the child closes in order and go on
    after a child that returns an error; a child that panics ends the body:
    the children after it are skipped, for a server also the detach, and
    the panic is recovered and reported as an error, while the deferred
    cleanup still runs (for a statement the release of the cursor), the
    node is reset and returned to its pool.  The result merges, in order,
    the failure of every attempted child and of the release or detach; it
    is nil exactly when nothing failed. *)
Theorem teardown_attempts_and_merges (W : World) (s : State) :
  (forall (a : addr) (o : Stmt),
      Stmt_open s a o ->
      exists r s' tried p,
        Stmt.close W (Some a) s = (Return r, s')
        /\ stops W (Stmt_children o) tried p
        /\ log s' = log s ++ tried ++ [OCIStmtRelease (ocistmt o)]
        /\ stmts s' !! a = Some (Stmt_closed o)
        /\ stmtPool s' = a :: stmtPool s
        /\ r = merged (omap (failure W) tried
                       ++ releaseError W (OCIStmtRelease (ocistmt o)))
        /\ reports W (Stmt_children o) tried [OCIStmtRelease (ocistmt o)] r)
  /\ (forall (a : addr) (o : Srv),
      Srv_open s a o ->
      exists r s' tried p,
        Srv.close W (Some a) s = (Return r, s')
        /\ stops W (Srv_children o) tried p
        /\ log s' = log s ++ tried ++ detach o p
        /\ srvs s' !! a = Some (Srv_closed o)
        /\ srvPool s' = a :: srvPool s
        /\ r = merged (omap (failure W) tried ++ flat_map (releaseError W) (detach o p))
        /\ reports W (Srv_children o) tried (detach o p) r).
Proof.
  split.
  - intros a o Hst. rewrite (Stmt_close_spec W a o s Hst).
    destruct (attempt W (Stmt_children o)) as [[tried es] p] eqn:Hat.
    eexists _, _, tried, p. split; [reflexivity|]. simpl.
    split; [by eapply attempt_stops|].
    split; [done|]. split; [apply lookup_insert_eq|]. split; [done|].
    split; [by rewrite (attempt_failures _ _ _ _ _ Hat), <- app_assoc|].
    destruct (attempt_facts W _ _ _ _ Hat) as (F1 & F2 & F3 & F4 & F5).
    pose proof (reports_intro W (Stmt_children o) tried es p [] Hat (fun _ => eq_refl)) as R0.
    destruct p as [v|].
    + (* a child panicked: the release still runs in the deferred closure *)
      destruct R0 as (_ & R2 & R3). split; [|split].
      * eexists. split; [reflexivity|]. split; [|split].
        -- intros c e Hc Ha. apply elem_of_app. left. by eapply F1.
        -- intros c v' Hc Ha. rewrite (F2 c v' Hc Ha) in *.
           apply elem_of_app. right. by left.
        -- intros c Hc Ho. apply list_elem_of_singleton in Hc as ->.
           apply elem_of_app. right. simpl. right. unfold releaseError.
           rewrite Ho. simpl. by left.
      * split.
        -- intros Hm. apply merged_None in Hm. apply app_eq_nil in Hm as [_ Hm]. done.
        -- intros [Hall _]. destruct F5 as [_ F5]. by destruct (F5 Hall).
      * exact R3.
    + pose proof (reports_intro W (Stmt_children o) tried es None
                    [OCIStmtRelease (ocistmt o)] Hat (fun H => False_ind _ (H eq_refl))) as R.
      simpl in R. by rewrite app_nil_r in R.
  - intros a o Hsv. rewrite (Srv_close_spec W a o s Hsv).
    destruct (attempt W (Srv_children o)) as [[tried es] p] eqn:Hat.
    eexists _, _, tried, p. split; [reflexivity|]. simpl.
    split; [by eapply attempt_stops|].
    rewrite (attempt_failures _ _ _ _ _ Hat).
    destruct p as [v|]; simpl.
    + split; [done|]. split; [apply lookup_insert_eq|]. split; [done|].
      split; [by rewrite !app_nil_r|].
      pose proof (reports_intro W (Srv_children o) tried es (Some v) [] Hat
                    (fun _ => eq_refl)) as R.
      simpl in R. exact R.
    + split; [done|]. split; [apply lookup_insert_eq|]. split; [done|].
      split; [by rewrite !app_nil_r|].
      pose proof (reports_intro W (Srv_children o) tried es None
                    [OCIServerDetach (ocisrv o)] Hat (fun H => False_ind _ (H eq_refl))) as R.
      simpl in R. by rewrite app_nil_r in R.
Qed.

(** Discharges [Stmt_open] and [Srv_open] on a concrete store. *)
Ltac open_example := repeat first [reflexivity | split | eexists].

(** The statement half where the close of the first descriptor panics, and
    the server half on the store without statements. *)
Lemma teardown_attempts_and_merges_witness :
  (Stmt_open Example.s_bound 1%nat Example.stmt_bound
   /\ exists r s',
        Stmt.close Example.W_panic (Some 1%nat) Example.s_bound = (Return r, s')
        /\ log s' = log Example.s_bound
                    ++ [bnd_close Example.b1; OCIStmtRelease (ocistmt Example.stmt_bound)]
        /\ stmtPool s' = 1%nat :: stmtPool Example.s_bound
        /\ r = merged [errR "boom"])
  /\ (Srv_open Example.s_no_stmt 1%nat Example.srv1
      /\ exists r s',
           Srv.close Example.W (Some 1%nat) Example.s_no_stmt = (Return r, s')
           /\ log s' = log Example.s_no_stmt
                       ++ [ses_close 1%nat; OCIServerDetach (ocisrv Example.srv1)]
           /\ srvPool s' = 1%nat :: srvPool Example.s_no_stmt
           /\ r = None).
Proof.
  assert (H1 : Stmt_open Example.s_bound 1%nat Example.stmt_bound) by open_example.
  assert (H2 : Srv_open Example.s_no_stmt 1%nat Example.srv1) by open_example.
  split.
  - split; [exact H1|].
    destruct (teardown_attempts_and_merges Example.W_panic Example.s_bound) as [H _].
    destruct (H 1%nat _ H1) as (r & s' & tried & p & Hc & _ & _ & _ & Hp & _).
    exists r, s'. split; [exact Hc|]. split; [|split; [exact Hp|]].
    + vm_compute in Hc. by injection Hc as _ <-.
    + vm_compute in Hc. by injection Hc as <- _.
  - split; [exact H2|].
    destruct (teardown_attempts_and_merges Example.W Example.s_no_stmt) as [_ H].
    destruct (H 1%nat _ H2) as (r & s' & tried & p & Hc & _ & _ & _ & Hp & _).
    exists r, s'. split; [exact Hc|]. split; [|split; [exact Hp|]].
    + vm_compute in Hc. by injection Hc as _ <-.
    + vm_compute in Hc. by injection Hc as <- _.
Defined.

(** C8 as stated fails: when the close of the first descriptor panics, the
    close of the second descriptor and of the open result set are never
    attempted. *)
Lemma C8_counterexample : ~ C8_as_stated.
Proof.
  intros H.
  assert (Hopen : Stmt_open Example.s_bound 1%nat Example.stmt_bound) by open_example.
  assert (Hin : rset_close 3%nat ∈ Stmt_children Example.stmt_bound).
  { unfold Stmt_children. apply elem_of_app. right. simpl. by left. }
  destruct (Stmt.close Example.W_panic (Some 1%nat) Example.s_bound) as [r s'] eqn:Hc.
  pose proof (H Example.W_panic Example.s_bound s' 1%nat Example.stmt_bound r Hopen Hc
                (rset_close 3%nat) Hin) as Hlog.
  vm_compute in Hc. inversion Hc; subst r s'. simpl in Hlog.
  apply elem_of_cons in Hlog as [Hlog|Hlog]; [discriminate|].
  apply list_elem_of_singleton in Hlog. discriminate.
Qed.

(** ** C2: closing twice *)

(** C2 as stated fails: the second [Srv.Close] finds the environment
    reference nil and returns nil, not an error. *)
Lemma C2_counterexample : ~ C2_as_stated.
Proof.
  intros H.
  assert (Hopen : Srv_open Example.s0 1%nat Example.srv1) by open_example.
  assert (Hc : Srv.Close Example.W (Some 1%nat) Example.s0
               = (Return None, (Srv.Close Example.W (Some 1%nat) Example.s0).2))
    by (vm_compute; reflexivity).
  destruct (H Example.W Example.s0 _ 1%nat Example.srv1 Hopen Hc) as [_ (e & _ & He)].
  vm_compute in He. discriminate.
Qed.

(** C2 (amended): after a first [Srv.Close] of an open server [IsOpen]
    returns false, a second [Close] returns nil and changes nothing, and the
    internal [close] of the closed server returns the error "Srv is
    closed." and changes nothing; after a first internal [Stmt.close] of an
    open statement [IsOpen] returns false and a second [close] returns the
    error "Stmt is closed." and changes nothing.  Each half holds for
    every store: the one for servers whatever statements the store has, the
    one for statements whatever the state of its server and environment. *)
Theorem closed_after_close (W : World) (s : State) :
  (forall (a : addr) (o : Srv),
      Srv_open s a o ->
      exists r s1,
        Srv.Close W (Some a) s = (Return r, s1)
        /\ Srv.IsOpen (Some a) s1 = (Return false, s1)
        /\ Srv.Close W (Some a) s1 = (Return None, s1)
        /\ Srv.close W (Some a) s1 = (Return (Some (errE (er "Srv is closed."))), s1)
        /\ isAlreadyClosed (errE (er "Srv is closed.")) = true)
  /\ (forall (a : addr) (o : Stmt),
      Stmt_open s a o ->
      exists r s1,
        Stmt.close W (Some a) s = (Return r, s1)
        /\ Stmt.IsOpen (Some a) s1 = (Return false, s1)
        /\ Stmt.close W (Some a) s1 = (Return (Some (errE (er "Stmt is closed."))), s1)
        /\ isAlreadyClosed (errE (er "Stmt is closed.")) = true).
Proof.
  split.
  - intros a o Hsv.
    pose proof Hsv as (Ho & [h Hh] & ea & env & He & Henv & [h' Hh']).
    set (s_m := set_envs (fun m => <[ea := mkEnv (ocienv env) (ocierr env) (isPkgEnv env)
                   (env_cfg env) (list_remove a (openSrvs env))]> m) s).
    assert (Hopen_m : Srv_open s_m a o).
    { split; [exact Ho|]. split; [by eauto|].
      eexists ea, _. split; [exact He|]. split; [apply lookup_insert_eq|]. simpl. by eauto. }
    assert (HClose : Srv.Close W (Some a) s = Srv.close W (Some a) s_m).
    { unfold Srv.Close, Srv.closeWithRemove.
      rewrite (seq_deref srvs a o _ s Ho), He, (seq_deref envs ea env _ s Henv), seq_modify.
      unfold s_m, set_envs. by rewrite Henv. }
    rewrite HClose, (Srv_close_spec W a o s_m Hopen_m).
    destruct (attempt W (Srv_children o)) as [[tried es] p].
    eexists _, _. split; [reflexivity|].
    split; [|split; [|split]].
    + unfold Srv.IsOpen, Srv.checkClosed. rewrite seq_assoc.
      erewrite seq_deref; [|simpl; apply lookup_insert_eq]. reflexivity.
    + unfold Srv.Close, Srv.closeWithRemove.
      erewrite seq_deref; [|simpl; apply lookup_insert_eq]. reflexivity.
    + unfold Srv.close, Srv.checkClosed. rewrite seq_assoc.
      erewrite seq_deref; [|simpl; apply lookup_insert_eq]. reflexivity.
    + reflexivity.
  - intros a' o' Hst. rewrite (Stmt_close_spec W a' o' s Hst).
    destruct (attempt W (Stmt_children o')) as [[tried es] p].
    eexists _, _. split; [reflexivity|].
    split; [|split; [|reflexivity]].
    + unfold Stmt.IsOpen. erewrite seq_deref; [|simpl; apply lookup_insert_eq]. reflexivity.
    + unfold Stmt.close, Stmt.checkClosed. rewrite seq_assoc.
      erewrite seq_deref; [|simpl; apply lookup_insert_eq]. reflexivity.
Qed.

(** The two halves at stores where only one of them applies: a server
    whose store holds no statement, and a statement whose server and
    environment are already closed. *)
Lemma closed_after_close_witness :
  (Srv_open Example.s_no_stmt 1%nat Example.srv1
   /\ stmts Example.s_no_stmt = ∅
   /\ exists r s1,
        Srv.Close Example.W (Some 1%nat) Example.s_no_stmt = (Return r, s1)
        /\ Srv.IsOpen (Some 1%nat) s1 = (Return false, s1)
        /\ Srv.Close Example.W (Some 1%nat) s1 = (Return None, s1)
        /\ Srv.close Example.W (Some 1%nat) s1
           = (Return (Some (errE (er "Srv is closed."))), s1))
  /\ (Stmt_open Example.s_srv_closed 1%nat (Example.stmt1 OCI_STMT_SELECT "SELECT 1 FROM dual")
      /\ Srv.IsOpen (Some 1%nat) Example.s_srv_closed = (Return false, Example.s_srv_closed)
      /\ exists r s1,
           Stmt.close Example.W (Some 1%nat) Example.s_srv_closed = (Return r, s1)
           /\ Stmt.IsOpen (Some 1%nat) s1 = (Return false, s1)
           /\ Stmt.close Example.W (Some 1%nat) s1
              = (Return (Some (errE (er "Stmt is closed."))), s1)).
Proof.
  assert (H1 : Srv_open Example.s_no_stmt 1%nat Example.srv1) by open_example.
  assert (H2 : Stmt_open Example.s_srv_closed 1%nat
                 (Example.stmt1 OCI_STMT_SELECT "SELECT 1 FROM dual")) by open_example.
  split.
  - split; [exact H1|]. split; [reflexivity|].
    destruct (closed_after_close Example.W Example.s_no_stmt) as [H _].
    destruct (H 1%nat _ H1) as (r & s1 & Hc & Hi & Hc2 & Hc3 & _).
    exists r, s1. repeat split; assumption.
  - split; [exact H2|]. split; [vm_compute; reflexivity|].
    destruct (closed_after_close Example.W Example.s_srv_closed) as [_ H].
    destruct (H 1%nat _ H2) as (r & s1 & Hc & Hi & Hc2 & _).
    exists r, s1. repeat split; assumption.
Defined.

(** ** Relations kept by Go functions *)

Section Keeps.
Variable R : State -> State -> Prop.
Hypothesis R_refl : forall s, R s s.
Hypothesis R_trans : forall s1 s2 s3, R s1 s2 -> R s2 s3 -> R s1 s3.

Lemma keeps_ret {A : Type} (x : A) : keeps R (ret x).
Proof. intros s. apply R_refl. Qed.

Lemma keeps_panic {A : Type} (v : string) : keeps R (@panic A v).
Proof. intros s. apply R_refl. Qed.

Lemma keeps_get : keeps R get.
Proof. intros s. apply R_refl. Qed.

Lemma keeps_deref {A : Type} (m : State -> gmap addr A) (p : option addr) :
  keeps R (deref m p).
Proof. intros s. rewrite deref_state. apply R_refl. Qed.

Lemma keeps_modify (f : State -> State) : (forall s, R s (f s)) -> keeps R (modify f).
Proof. intros H s. apply H. Qed.

Lemma keeps_seq {A B : Type} (m : Go A) (k : A -> Go B) :
  keeps R m -> (forall x, keeps R (k x)) -> keeps R (seq m k).
Proof.
  intros Hm Hk s. unfold seq. specialize (Hm s).
  destruct (m s) as [[x|v] s1]; simpl in *; [|done].
  eapply R_trans; [exact Hm|apply Hk].
Qed.

Lemma keeps_catch {A : Type} (m : Go A) (h : string -> Go A) :
  keeps R m -> (forall v, keeps R (h v)) -> keeps R (catch m h).
Proof.
  intros Hm Hh s. unfold catch. specialize (Hm s).
  destruct (m s) as [[x|v] s1]; simpl in *; [done|].
  eapply R_trans; [exact Hm|apply Hh].
Qed.

Lemma keeps_orReturn {A : Type} (m : Go (option error)) (fail : error -> A) (k : Go A) :
  keeps R m -> keeps R k -> keeps R (orReturn m fail k).
Proof.
  intros Hm Hk. unfold orReturn. apply keeps_seq; [done|].
  intros [e|]; [apply keeps_ret|done].
Qed.

End Keeps.

(** Decomposes a goal [keeps R m] along the structure of [m]. *)
Ltac keeps_step R_refl R_trans :=
  match goal with
  | |- keeps _ (ret _) => apply (keeps_ret _ R_refl)
  | |- keeps _ (panic _) => apply (keeps_panic _ R_refl)
  | |- keeps _ get => apply (keeps_get _ R_refl)
  | |- keeps _ (deref _ _) => apply (keeps_deref _ R_refl)
  | |- keeps _ (seq _ _) => apply (keeps_seq _ R_trans); [|intros ?]
  | |- keeps _ (catch _ _) => apply (keeps_catch _ R_trans); [|intros ?]
  | |- keeps _ (orReturn _ _ _) => apply (keeps_orReturn _ R_refl R_trans)
  | |- keeps _ (match ?x with _ => _ end) => destruct x
  end.

(** *** [quiet] is a preorder *)

Lemma quiet_refl (s : State) : quiet s s.
Proof. by repeat split. Qed.

Lemma quiet_trans (s1 s2 s3 : State) : quiet s1 s2 -> quiet s2 s3 -> quiet s1 s3.
Proof.
  intros (A1 & A2 & A3 & A4 & A5) (B1 & B2 & B3 & B4 & B5).
  split; [congruence|]. split; [congruence|]. split; [congruence|].
  split; [|congruence]. intros a. by rewrite B4, A4.
Qed.

Lemma quiet_log (c : call) (s : State) :
  isExecute c = false -> quiet s (set_log (fun l => l ++ [c]) s).
Proof.
  intros Hc. do 4 (split; [done|]). simpl. unfold execs. rewrite filter_app.
  rewrite filter_cons_False, filter_nil, app_nil_r; [done|]. by rewrite Hc.
Qed.

Lemma quiet_update (a : addr) (f : Stmt -> Stmt) (s : State) :
  (forall o, view (f o) = view o) ->
  quiet s (set_stmts (fun m => match m !! a with
                               | Some o => <[a := f o]> m
                               | None => m
                               end) s).
Proof.
  intros Hf. do 3 (split; [done|]). split; [|done]. intros a'. simpl.
  destruct (stmts s !! a) as [o|] eqn:Ho; [|done].
  destruct (decide (a' = a)) as [->|Hne].
  - rewrite lookup_insert_eq, Ho. simpl. by rewrite Hf.
  - by rewrite lookup_insert_ne.
Qed.

Lemma quiet_heap (f : gmap nat Z -> gmap nat Z) (s : State) : quiet s (set_heap f s).
Proof. by repeat split. Qed.

Lemma quiet_lastInsertId (v : Z) (s : State) : quiet s (set_lastInsertId v s).
Proof. by repeat split. Qed.

Ltac quiet_tac :=
  repeat first
    [ keeps_step quiet_refl quiet_trans
    | apply keeps_modify; intros ?;
      first [ apply quiet_log; first [reflexivity | assumption]
            | apply quiet_update; intros ?; reflexivity
            | apply quiet_heap
            | apply quiet_lastInsertId ] ].

(** *** The readers: functions that change nothing *)

Lemma eq_trans_state (s1 s2 s3 : State) : s1 = s2 -> s2 = s3 -> s1 = s3.
Proof. congruence. Qed.

Ltac reader_tac :=
  repeat first
    [ keeps_step (@eq_refl State) eq_trans_state
    | assumption ].

Lemma Env_Cfg_reader (env : option addr) : keeps eq (Env.Cfg env).
Proof. unfold Env.Cfg. reader_tac. Qed.

Lemma Env_checkClosed_reader (env : option addr) : keeps eq (Env.checkClosed env).
Proof. unfold Env.checkClosed. reader_tac. Qed.

Lemma Srv_Cfg_reader (srv : option addr) : keeps eq (Srv.Cfg srv).
Proof. unfold Srv.Cfg. reader_tac; apply Env_Cfg_reader. Qed.

Lemma Ses_Cfg_reader (ses : option addr) : keeps eq (Ses.Cfg ses).
Proof. unfold Ses.Cfg. reader_tac. apply Srv_Cfg_reader. Qed.

Lemma env_of_reader (stmt : option addr) : keeps eq (Stmt.env_of stmt).
Proof. unfold Stmt.env_of. reader_tac. Qed.

Lemma Stmt_Cfg_reader (stmt : option addr) : keeps eq (Stmt.Cfg stmt).
Proof.
  unfold Stmt.Cfg. reader_tac;
    first [apply env_of_reader | apply Env_Cfg_reader | apply Ses_Cfg_reader].
Qed.

Lemma Stmt_checkClosed_reader (stmt : option addr) : keeps eq (Stmt.checkClosed stmt).
Proof. unfold Stmt.checkClosed. reader_tac. Qed.

Lemma reader_keeps {A : Type} (R : State -> State -> Prop) (m : Go A) :
  (forall s, R s s) -> keeps eq m -> keeps R m.
Proof. intros HR Hm s. rewrite <- (Hm s). apply HR. Qed.

(** *** Readers agree on quiet-related states *)

(** [agrees m]: the result of the reader [m] is the same in two states
    related by [quiet]. *)
Lemma agrees_seq {A B : Type} (m : Go A) (k : A -> Go B) (s s' : State) :
  keeps eq m ->
  (m s').1 = (m s).1 ->
  (forall x, (k x s').1 = (k x s).1) ->
  (seq m k s').1 = (seq m k s).1.
Proof.
  intros Hr Hm Hk. unfold seq.
  pose proof (Hr s) as H1. pose proof (Hr s') as H2.
  destruct (m s) as [r1 t1], (m s') as [r2 t2]. simpl in *. subst.
  destruct r1; [apply Hk|done].
Qed.

Lemma agrees_deref {A : Type} (m : State -> gmap addr A) (p : option addr) (s s' : State) :
  m s' = m s -> (deref m p s').1 = (deref m p s).1.
Proof. intros H. unfold deref. rewrite H. destruct p as [a|]; [destruct (m s !! a)|]; done. Qed.

Lemma agrees_stmts {B : Type} (stmt : option addr) (k : Stmt -> Go B) (s s' : State) :
  quiet s s' ->
  (forall o o', view o' = view o -> (k o' s').1 = (k o s).1) ->
  (seq (deref stmts stmt) k s').1 = (seq (deref stmts stmt) k s).1.
Proof.
  intros (_ & _ & _ & T & _) Hk. unfold seq, deref. destruct stmt as [a|]; [|done].
  specialize (T a).
  destruct (stmts s' !! a) as [o'|], (stmts s !! a) as [o|]; simpl in T;
    try discriminate; [|done].
  apply Hk. congruence.
Qed.

Section Agree.
Variables s s' : State.
Hypothesis Hq : quiet s s'.

Lemma Env_Cfg_agrees (env : option addr) : (Env.Cfg env s').1 = (Env.Cfg env s).1.
Proof.
  unfold Env.Cfg. apply agrees_seq; [apply keeps_deref; done| |done].
  apply agrees_deref, Hq.
Qed.

Lemma Srv_Cfg_agrees (srv : option addr) : (Srv.Cfg srv s').1 = (Srv.Cfg srv s).1.
Proof.
  unfold Srv.Cfg. apply agrees_seq; [apply keeps_deref; done| |].
  { apply agrees_deref, Hq. }
  intros o. apply agrees_seq.
  - destruct (StmtCfg_IsZero _); reader_tac.
  - destruct (StmtCfg_IsZero _); [done|].
    apply agrees_seq; [apply keeps_deref; done| |done]. apply agrees_deref, Hq.
  - intros [|]; [|done].
    apply agrees_seq; [apply Env_Cfg_reader|apply Env_Cfg_agrees|done].
Qed.

Lemma Ses_Cfg_agrees (ses : option addr) : (Ses.Cfg ses s').1 = (Ses.Cfg ses s).1.
Proof.
  unfold Ses.Cfg. apply agrees_seq; [apply keeps_deref; done| |].
  { apply agrees_deref, Hq. }
  intros o. destruct (StmtCfg_IsZero _); [|done].
  apply agrees_seq; [apply Srv_Cfg_reader|apply Srv_Cfg_agrees|done].
Qed.

Lemma env_of_agrees (stmt : option addr) :
  (Stmt.env_of stmt s').1 = (Stmt.env_of stmt s).1.
Proof.
  unfold Stmt.env_of. apply agrees_stmts; [exact Hq|].
  intros o o' Hv. injection Hv as _ Hs _ _ _ _. rewrite Hs.
  apply agrees_seq; [apply keeps_deref; done| |].
  { apply agrees_deref, Hq. }
  intros se. apply agrees_seq; [apply keeps_deref; done| |done].
  apply agrees_deref, Hq.
Qed.

(** The configuration a statement resolves to depends only on what [quiet]
    preserves. *)
Lemma Stmt_Cfg_quiet (stmt : option addr) : (Stmt.Cfg stmt s').1 = (Stmt.Cfg stmt s).1.
Proof.
  unfold Stmt.Cfg. apply agrees_stmts; [exact Hq|].
  intros o o' Hv. injection Hv as Hc Hs _ _ _ _. rewrite Hc, Hs.
  apply agrees_seq; [apply env_of_reader|apply env_of_agrees|].
  intros env. apply agrees_seq; [apply keeps_deref; done| |].
  { apply agrees_deref, Hq. }
  intros e. destruct (isPkgEnv e); [apply Env_Cfg_agrees|].
  destruct (StmtCfg_IsZero _); [|done].
  apply agrees_seq; [apply Ses_Cfg_reader|apply Ses_Cfg_agrees|done].
Qed.

End Agree.

Lemma Stmt_Cfg_state (stmt : option addr) (s : State) : (Stmt.Cfg stmt s).2 = s.
Proof. symmetry. apply Stmt_Cfg_reader. Qed.

Lemma u8_of_quiet (a : addr) (s s' : State) : quiet s s' -> u8_of a s' = u8_of a s.
Proof. intros H. unfold u8_of. by rewrite (Stmt_Cfg_quiet _ _ H). Qed.

(** ** The bind pass, turn by turn *)

Lemma seq_inv {A B : Type} (m : Go A) (k : A -> Go B) (s s' : State) (r : B) :
  seq m k s = (Return r, s') ->
  exists x s1, m s = (Return x, s1) /\ k x s1 = (Return r, s').
Proof.
  unfold seq. destruct (m s) as [[x|v] s1]; [eauto|discriminate].
Qed.

Lemma quiet_is_Some (a : addr) (s s' : State) :
  quiet s s' -> is_Some (stmts s !! a) -> is_Some (stmts s' !! a).
Proof.
  intros (_ & _ & _ & T & _) [o Ho]. specialize (T a). rewrite Ho in T.
  destruct (stmts s' !! a); [eauto|discriminate].
Qed.

Lemma calm_refl (a : addr) (s : State) : calm a s s.
Proof. split; [apply quiet_refl|done]. Qed.

Lemma calm_trans (a : addr) (s1 s2 s3 : State) : calm a s1 s2 -> calm a s2 s3 -> calm a s1 s3.
Proof. intros [Q1 F1] [Q2 F2]. split; [by eapply quiet_trans|congruence]. Qed.

Lemma calm_log (a : addr) (c : call) (s : State) :
  isExecute c = false -> calm a s (set_log (fun l => l ++ [c]) s).
Proof. intros Hc. split; [by apply quiet_log|done]. Qed.

Lemma calm_update (a a' : addr) (f : Stmt -> Stmt) (s : State) :
  (forall o, view (f o) = view o) -> (forall o, hasPtrBind (f o) = hasPtrBind o) ->
  calm a s (set_stmts (fun m => match m !! a' with
                                | Some o => <[a' := f o]> m
                                | None => m
                                end) s).
Proof.
  intros Hv Hf. split; [by apply quiet_update|].
  unfold flagOf. simpl. destruct (stmts s !! a') as [o|] eqn:Ho; [|done].
  destruct (decide (a = a')) as [->|Hne].
  - by rewrite lookup_insert_eq, Ho, Hf.
  - by rewrite lookup_insert_ne.
Qed.

Lemma reader_calm {A : Type} (a : addr) (m : Go A) : keeps eq m -> keeps (calm a) m.
Proof. apply reader_keeps, calm_refl. Qed.

Section Turns.
Variable W : World.
Variable a : addr.
Variable b : bool.

Ltac calm_tac :=
  repeat first
    [ keeps_step (calm_refl a) (calm_trans a)
    | apply keeps_modify; intros ?;
      first [ apply calm_log; first [reflexivity | assumption]
            | apply calm_update; intros ?; reflexivity ]
    | apply reader_calm; first [apply Stmt_Cfg_reader] ].

Lemma store_local_calm (n : nat) (d : bnd) (lb : local_bnds) :
  keeps (calm a) (Stmt.store_local a n d lb).
Proof. unfold Stmt.store_local, Stmt.update. calm_tac. Qed.

Lemma evalCfg_calm (usesCfg : bool) : keeps (calm a) (Stmt.evalCfg a usesCfg).
Proof. unfold Stmt.evalCfg. destruct usesCfg; calm_tac. Qed.

Lemma call_go_calm (c : call) : isExecute c = false -> keeps (calm a) (call_go W c).
Proof. intros Hc. unfold call_go. calm_tac. Qed.

Lemma setNilBind_calm (index : nat) (sqlt : SQLT) :
  keeps (calm a) (Stmt.setNilBind W a index sqlt).
Proof. unfold Stmt.setNilBind, Stmt.update, call_go. calm_tac. Qed.

Lemma raise_flag (s : State) :
  is_Some (stmts s !! a) ->
  let s' := (Stmt.update a (Stmt.set_hasPtrBind true) s).2 in
  quiet s s' /\ flagOf a s' = true.
Proof.
  intros [o Ho]. simpl. split; [by apply quiet_update|].
  unfold flagOf. simpl. by rewrite Ho, lookup_insert_eq.
Qed.

(** A step: run [m] from [s], relate the states by [calm]. *)
Lemma step_calm {A : Type} (m : Go A) (s s1 : State) (r : result A) :
  keeps (calm a) m -> m s = (r, s1) -> calm a s s1.
Proof. intros Hk H. specialize (Hk s). by rewrite H in Hk. Qed.

Lemma turn_of_calm (s s' : State) (l l' : locals) :
  calm a s s' -> iterations l' = iterations l -> turn a s l s' l' false None.
Proof. intros [Q F] Hi. split; [done|]. split; [|done]. intros _. by rewrite F, orb_false_r. Qed.

Lemma bind_value_turn (idx : bndIdx) (m : meth) (arg : param) (usesCfg ptrBind : bool)
      (n : nat) (l l' : locals) (s s' : State) :
  Stmt.bind_value W a idx m arg usesCfg ptrBind n l s = (Return (Next l'), s') ->
  turn a s l s' l' ptrBind None.
Proof.
  unfold Stmt.bind_value. intros H.
  apply seq_inv in H as (lb & s1 & H1 & H). apply seq_inv in H as ([] & s2 & H2 & H).
  apply seq_inv in H as (e & s3 & H3 & H).
  pose proof (step_calm _ _ _ _ (store_local_calm _ _ _) H1) as C1.
  pose proof (step_calm _ _ _ _ (evalCfg_calm _) H2) as C2.
  pose proof (step_calm _ _ _ _ (call_go_calm (bnd_bind _) eq_refl) H3) as C3.
  pose proof (calm_trans _ _ _ _ (calm_trans _ _ _ _ C1 C2) C3) as [Q F].
  destruct e as [e|]; [discriminate|].
  destruct ptrBind.
  - apply seq_inv in H as ([] & s4 & H4 & H). unfold ret in H. injection H as <- <-.
    assert (s4 = (Stmt.update a (Stmt.set_hasPtrBind true) s3).2) as -> by by rewrite H4.
    split; [|split; [|done]].
    + eapply quiet_trans; [exact Q|]. apply quiet_update. by intros ?.
    + intros Hs. pose proof (quiet_is_Some a _ _ Q Hs) as Hs3.
      destruct (raise_flag s3 Hs3) as [_ ->]. by rewrite orb_true_r.
  - inversion H; subst. by apply turn_of_calm.
Qed.

Lemma bind_null_turn (assign : bool) (sqlt : SQLT) (n : nat) (l l' : locals) (s s' : State) :
  Stmt.bind_null W a assign sqlt n l s = (Return (Next l'), s') ->
  turn a s l s' l' false None.
Proof.
  unfold Stmt.bind_null. intros H.
  apply seq_inv in H as (e & s1 & H1 & H). inversion H; subst.
  apply turn_of_calm; [|done]. by eapply step_calm; [apply setNilBind_calm|].
Qed.

Lemma bind_nullable_turn (IsNull : bool) (sqlt : SQLT) (idx : bndIdx) (arg : param)
      (usesCfg : bool) (n : nat) (l l' : locals) (s s' : State) :
  Stmt.bind_nullable W a IsNull sqlt idx arg usesCfg n l s = (Return (Next l'), s') ->
  turn a s l s' l' false None.
Proof.
  unfold Stmt.bind_nullable. destruct IsNull; [apply bind_null_turn|apply bind_value_turn].
Qed.

Lemma bind_batch_turn (idx : bndIdx) (m : meth) (arg : param) (usesCfg shadowsErr ptrBind : bool)
      (n : nat) (l l' : locals) (s s' : State) :
  Stmt.bind_batch W a b idx m arg usesCfg shadowsErr ptrBind n l s = (Return (Next l'), s') ->
  turn a s l s' l' ptrBind (Some (sliceIterations W (Bound idx m (S n) arg) b)).
Proof.
  unfold Stmt.bind_batch. intros H.
  apply seq_inv in H as (lb & s1 & H1 & H). apply seq_inv in H as ([] & s2 & H2 & H).
  apply seq_inv in H as (e & s3 & H3 & H).
  pose proof (step_calm _ _ _ _ (store_local_calm _ _ _) H1) as C1.
  pose proof (step_calm _ _ _ _ (evalCfg_calm _) H2) as C2.
  pose proof (step_calm _ _ _ _ (call_go_calm (bnd_bind_slice _ _) eq_refl) H3) as C3.
  pose proof (calm_trans _ _ _ _ (calm_trans _ _ _ _ C1 C2) C3) as [Q F].
  destruct e as [e|]; [discriminate|].
  destruct ptrBind.
  - apply seq_inv in H as ([] & s4 & H4 & H). unfold ret in H. injection H as <- <-.
    assert (s4 = (Stmt.update a (Stmt.set_hasPtrBind true) s3).2) as -> by by rewrite H4.
    split; [|split; [|done]].
    + eapply quiet_trans; [exact Q|]. apply quiet_update. by intros ?.
    + intros Hs. pose proof (quiet_is_Some a _ _ Q Hs) as Hs3.
      destruct (raise_flag s3 Hs3) as [_ ->]. by rewrite orb_true_r.
  - inversion H; subst. split; [done|]. split; [|done].
    intros _. by rewrite F, orb_false_r.
Qed.

Lemma bind_batchLen_turn (idx : bndIdx) (m : meth) (arg : param) (k : nat)
      (n : nat) (l l' : locals) (s s' : State) :
  Stmt.bind_batchLen W a idx m arg k n l s = (Return (Next l'), s') ->
  turn a s l s' l' false (Some (uint32 (Z.of_nat k))).
Proof.
  unfold Stmt.bind_batchLen. intros H.
  apply seq_inv in H as (lb & s1 & H1 & H). apply seq_inv in H as ([] & s2 & H2 & H).
  apply seq_inv in H as (e & s3 & H3 & H).
  pose proof (step_calm _ _ _ _ (store_local_calm _ _ _) H1) as C1.
  pose proof (step_calm _ _ _ _ (evalCfg_calm _) H2) as C2.
  pose proof (step_calm _ _ _ _ (call_go_calm (bnd_bind _) eq_refl) H3) as C3.
  pose proof (calm_trans _ _ _ _ (calm_trans _ _ _ _ C1 C2) C3) as [Q F].
  destruct e as [e|]; [discriminate|]. inversion H; subst.
  split; [done|]. split; [|done]. intros _. by rewrite F, orb_false_r.
Qed.

End Turns.

Section Pass.
Variable W : World.
Variable a : addr.
Variable b : bool.

Ltac turn_case H :=
  first [ apply bind_value_turn in H
        | apply bind_nullable_turn in H
        | apply bind_batch_turn in H
        | apply bind_batchLen_turn in H
        | apply bind_null_turn in H ];
  eexists; split; [exact H | unfold reports_for; simpl; eauto].

Lemma bindParam_turn (n : nat) (p : param) (l l' : locals) (s s' : State) :
  Stmt.bindParam W a b n p l s = (Return (Next l'), s') ->
  exists rep, turn a s l s' l' (setsPtrBind p) rep /\ reports_for W b n (u8_of a s) p rep.
Proof.
  intros H. destruct p; unfold Stmt.bindParam in H; try (solve [turn_case H]).
  - (* []uint8 *)
    apply seq_inv in H as (cfg & s1 & Hcfg & H).
    pose proof (Stmt_Cfg_state (Some a) s) as Hs. rewrite Hcfg in Hs. simpl in Hs. subst s1.
    unfold reports_for, u8_of. rewrite Hcfg. simpl.
    destruct (byteSlice cfg).
    + destruct (binPool W); [| |discriminate].
      * apply bind_value_turn in H. eauto.
      * destruct v; [apply bind_value_turn in H|apply bind_null_turn in H]; eauto.
    + apply bind_batch_turn in H. eauto 6.
  - (* *Time *)
    destruct p.
    + apply seq_inv in H as (lb & s1 & _ & H). discriminate.
    + turn_case H.
    + turn_case H.
  - (* *string *)
    apply seq_inv in H as (o & s1 & Ho & H).
    pose proof (deref_state stmts (Some a) s) as Hs. rewrite Ho in Hs. simpl in Hs. subst s1.
    turn_case H.
  - (* Raw *)
    destruct IsNull; [turn_case H|]. destruct (binPool W); try discriminate. turn_case H.
  - (* Lob *)
    destruct (Reader l0); turn_case H.
  - (* *Lob *)
    destruct l0; turn_case H.
  - (* Bfile *)
    destruct IsNull; turn_case H.
  - (* a type without a case *)
    destruct (isSlice && elemIsInterface); discriminate.
Qed.

(** A turn that returns from [bind] returns an error. *)
Lemma bind_value_exit (idx : bndIdx) (m : meth) (arg : param) (usesCfg ptrBind : bool)
      (n : nat) (l : locals) (s s' : State) (it : Z) (e : option error) :
  Stmt.bind_value W a idx m arg usesCfg ptrBind n l s = (Return (Exit it e), s') -> is_Some e.
Proof.
  unfold Stmt.bind_value. intros H.
  apply seq_inv in H as (lb & s1 & H1 & H). apply seq_inv in H as ([] & s2 & H2 & H).
  apply seq_inv in H as (e' & s3 & H3 & H).
  destruct e' as [e'|].
  - unfold ret in H. injection H as <- <- <-. by eexists.
  - apply seq_inv in H as ([] & s4 & H4 & H). discriminate.
Qed.

Lemma bind_null_exit (assign : bool) (sqlt : SQLT) (n : nat) (l : locals) (s s' : State)
      (it : Z) (e : option error) :
  Stmt.bind_null W a assign sqlt n l s = (Return (Exit it e), s') -> is_Some e.
Proof.
  unfold Stmt.bind_null. intros H. apply seq_inv in H as (e' & s1 & H1 & H). discriminate.
Qed.

Lemma bind_nullable_exit (IsNull : bool) (sqlt : SQLT) (idx : bndIdx) (arg : param)
      (usesCfg : bool) (n : nat) (l : locals) (s s' : State) (it : Z) (e : option error) :
  Stmt.bind_nullable W a IsNull sqlt idx arg usesCfg n l s = (Return (Exit it e), s') ->
  is_Some e.
Proof.
  unfold Stmt.bind_nullable. destruct IsNull; [apply bind_null_exit|apply bind_value_exit].
Qed.

Lemma bind_batch_exit (idx : bndIdx) (m : meth) (arg : param) (usesCfg shadowsErr ptrBind : bool)
      (n : nat) (l : locals) (s s' : State) (it : Z) (e : option error) :
  Stmt.bind_batch W a b idx m arg usesCfg shadowsErr ptrBind n l s = (Return (Exit it e), s') ->
  is_Some e.
Proof.
  unfold Stmt.bind_batch. intros H.
  apply seq_inv in H as (lb & s1 & H1 & H). apply seq_inv in H as ([] & s2 & H2 & H).
  apply seq_inv in H as (e' & s3 & H3 & H).
  destruct e' as [e'|].
  - unfold ret in H. injection H as <- <- <-. by eexists.
  - apply seq_inv in H as ([] & s4 & H4 & H). discriminate.
Qed.

Lemma bind_batchLen_exit (idx : bndIdx) (m : meth) (arg : param) (k : nat)
      (n : nat) (l : locals) (s s' : State) (it : Z) (e : option error) :
  Stmt.bind_batchLen W a idx m arg k n l s = (Return (Exit it e), s') -> is_Some e.
Proof.
  unfold Stmt.bind_batchLen. intros H.
  apply seq_inv in H as (lb & s1 & H1 & H). apply seq_inv in H as ([] & s2 & H2 & H).
  apply seq_inv in H as (e' & s3 & H3 & H).
  destruct e' as [e'|]; [|discriminate].
  unfold ret in H. injection H as <- <- <-. by eexists.
Qed.

Ltac exit_case H :=
  first [ apply bind_value_exit in H
        | apply bind_nullable_exit in H
        | apply bind_batch_exit in H
        | apply bind_batchLen_exit in H
        | apply bind_null_exit in H ];
  exact H.

Lemma bindParam_exit (n : nat) (p : param) (l : locals) (s s' : State)
      (it : Z) (e : option error) :
  Stmt.bindParam W a b n p l s = (Return (Exit it e), s') -> is_Some e.
Proof.
  intros H. destruct p; unfold Stmt.bindParam in H; try (solve [exit_case H]).
  - apply seq_inv in H as (cfg & s1 & Hcfg & H).
    destruct (byteSlice cfg); [destruct (binPool W); [| |discriminate]|].
    + exit_case H.
    + destruct v; exit_case H.
    + exit_case H.
  - destruct p.
    + apply seq_inv in H as (lb & s1 & _ & H). discriminate.
    + exit_case H.
    + exit_case H.
  - apply seq_inv in H as (o & s1 & Ho & H). exit_case H.
  - destruct IsNull; [exit_case H|]. destruct (binPool W); try discriminate. exit_case H.
  - destruct (Reader l0); exit_case H.
  - destruct l0; exit_case H.
  - destruct IsNull; exit_case H.
  - destruct (isSlice && elemIsInterface); unfold ret in H; injection H as <- <- <-;
      by eexists.
Qed.

Lemma bind_loop_exit (ps : list param) (n : nat) (l : locals) (s s' : State)
      (it : Z) (e : option error) :
  Stmt.bind_loop W a b n ps l s = (Return (Exit it e), s') -> is_Some e.
Proof.
  revert n l s. induction ps as [|p ps IH]; intros n l s H; simpl in H; [discriminate|].
  apply seq_inv in H as (f & s1 & Hp & H). destruct f as [l1|it1 e1].
  - by eapply IH.
  - unfold ret in H. injection H as <- <- <-. by eapply bindParam_exit.
Qed.

(** The loop: the flag accumulates. *)
Lemma bind_loop_flag (ps : list param) (n : nat) (l l' : locals) (s s' : State) :
  Stmt.bind_loop W a b n ps l s = (Return (Next l'), s') ->
  quiet s s'
  /\ (is_Some (stmts s !! a) -> flagOf a s' = flagOf a s || existsb setsPtrBind ps).
Proof.
  revert n l s. induction ps as [|p ps IH]; intros n l s H; simpl in H.
  - unfold ret in H. injection H as <- <-. split; [apply quiet_refl|].
    intros _. by rewrite orb_false_r.
  - apply seq_inv in H as (f & s1 & Hp & H). destruct f as [l1|]; [|discriminate].
    destruct (bindParam_turn _ _ _ _ _ _ Hp) as (rep & (Q1 & F1 & _) & _).
    destruct (IH _ _ _ H) as (Q2 & F2).
    split; [by eapply quiet_trans|].
    intros Hs. rewrite (F2 (quiet_is_Some a _ _ Q1 Hs)), (F1 Hs). simpl.
    by rewrite orb_assoc.
Qed.

Lemma batchLength_true (u8 : bool) (p : param) (k : nat) :
  batchLength u8 p = Some k -> batchLength true p = Some k.
Proof. destruct p, u8; simpl; congruence. Qed.

(** The loop: the last batch sets the iteration count. *)
Lemma bind_loop_iterations (ps : list param) (n : nat) (l l' : locals) (s s' : State) :
  (forall idx m pos arg k, batchLength true arg = Some k ->
     sliceIterations W (Bound idx m pos arg) b = uint32 (Z.of_nat k)) ->
  Stmt.bind_loop W a b n ps l s = (Return (Next l'), s') ->
  iterations l' = match lastBatch (u8_of a s) ps with
                  | Some k => uint32 (Z.of_nat k)
                  | None => iterations l
                  end.
Proof.
  intros Hrep. revert n l s. induction ps as [|p ps IH]; intros n l s H; simpl in H.
  - unfold ret in H. by injection H as <- <-.
  - apply seq_inv in H as (f & s1 & Hp & H). destruct f as [l1|]; [|discriminate].
    destruct (bindParam_turn _ _ _ _ _ _ Hp) as (rep & (Q1 & _ & I1) & R1).
    rewrite (IH _ _ _ H), (u8_of_quiet a _ _ Q1). simpl.
    destruct (lastBatch (u8_of a s) ps) as [k|]; [done|].
    rewrite I1. unfold reports_for in R1.
    destruct (batchLength (u8_of a s) p) as [k|] eqn:Hb.
    + destruct R1 as [->|(idx & m & ->)]; [done|].
      apply Hrep. by eapply batchLength_true.
    + by rewrite R1.
Qed.

End Pass.

(** ** C3 and C5: the flag and the iteration count of a bind pass *)

Lemma bind_inv (W : World) (a : addr) (ps : list param) (b : bool) (s s' : State) (it : Z) :
  Stmt.bind W (Some a) ps b s = (Return (it, None), s') ->
  (ps = [] /\ it = 1 /\ s' = s)
  \/ exists l0 l s1 f,
       Stmt.bind_loop W a b 0 ps l0 s = (Return (Next l), s1)
       /\ iterations l0 = 1 /\ it = iterations l
       /\ (forall o, view (f o) = view o) /\ (forall o, hasPtrBind (f o) = hasPtrBind o)
       /\ s' = (Stmt.update a f s1).2.
Proof.
  unfold Stmt.bind. destruct ps as [|p ps].
  - unfold ret. intros H. injection H as <- <-. by left.
  - intros H. right.
    apply seq_inv in H as (o & s0 & Ho & H).
    pose proof (deref_state stmts (Some a) s) as Hs. rewrite Ho in Hs. simpl in Hs. subst s0.
    apply seq_inv in H as (f & s1 & Hl & H). destruct f as [l|it' e].
    + apply seq_inv in H as ([] & s2 & Hu & H). unfold ret in H.
      injection H as Hi He Hs. subst it s'.
      eexists _, l, s1, _. split; [exact Hl|]. split; [done|]. split; [done|].
      split; [|split]; [| |by rewrite Hu]; by intros ?.
    + unfold ret in H. injection H as Hi He Hs. subst.
      apply bind_loop_exit in Hl. by destruct Hl.
Qed.

(** The flag after a completed bind pass. *)
Lemma bind_flag (W : World) (s s' : State) (a : addr) (o : Stmt)
    (ps : list param) (b : bool) (it : Z) :
  stmts s !! a = Some o ->
  Stmt.bind W (Some a) ps b s = (Return (it, None), s') ->
  exists o', stmts s' !! a = Some o'
             /\ hasPtrBind o' = hasPtrBind o || existsb setsPtrBind ps.
Proof.
  intros Ho H.
  assert (Hgoal : is_Some (stmts s' !! a)
                  /\ flagOf a s' = flagOf a s || existsb setsPtrBind ps).
  { apply bind_inv in H as [(-> & _ & ->)|(l0 & l & s1 & f & Hl & _ & _ & Hv & Hf & ->)].
    - split; [by eauto|]. by rewrite orb_false_r.
    - destruct (bind_loop_flag W a b _ _ _ _ _ _ Hl) as [Q F].
      pose proof (calm_update a a f s1 Hv Hf) as [Q2 F2].
      split.
      + eapply quiet_is_Some; [|by eauto]. eapply quiet_trans; [exact Q|exact Q2].
      + unfold Stmt.update, modify. simpl. rewrite F2. apply F. by eauto. }
  destruct Hgoal as [[o' Ho'] Hflag]. exists o'. split; [done|].
  unfold flagOf in Hflag. by rewrite Ho, Ho' in Hflag.
Qed.

(** C3 (amended): after a completed bind pass [hasPtrBind] is true iff it
    was true before the pass or the pass bound a parameter whose case sets
    it; a bind pass never clears the flag (only [close] does), so a rebind
    without output pointers keeps a flag that an earlier pass set. *)
Theorem bind_flag_accumulates (W : World) (s s' : State) (a : addr) (o : Stmt)
    (ps : list param) (b : bool) (it : Z) :
  stmts s !! a = Some o ->
  Stmt.bind W (Some a) ps b s = (Return (it, None), s') ->
  (exists o', stmts s' !! a = Some o'
              /\ hasPtrBind o' = hasPtrBind o || existsb setsPtrBind ps)
  /\ (hasPtrBind o = true -> exists o', stmts s' !! a = Some o' /\ hasPtrBind o' = true).
Proof.
  intros Ho H. destruct (bind_flag W s s' a o ps b it Ho H) as (o' & Ho' & Hf).
  split; [by eauto|]. intros Hset. exists o'. split; [done|]. by rewrite Hf, Hset.
Qed.

Lemma bind_flag_accumulates_witness :
  let s1 := (Stmt.bind Example.W (Some 1%nat) [p_int64_ptr (heapPtr 0)] false Example.s0).2 in
  exists o',
    stmts (Stmt.bind Example.W (Some 1%nat) [p_int64 5] false s1).2 !! 1%nat = Some o'
    /\ hasPtrBind o' = true.
Proof.
  intros s1.
  apply (bind_flag_accumulates Example.W s1 _ 1%nat
           (match stmts s1 !! 1%nat with
            | Some o => o
            | None => Example.stmt1 OCI_STMT_SELECT "SELECT 1 FROM dual"
            end)
           [p_int64 5] false 1).
  - vm_compute. reflexivity.
  - vm_compute. reflexivity.
  - vm_compute. reflexivity.
Defined.

(** C3 as stated fails: a pass that binds an output pointer sets the flag,
    and a second pass that binds only an integer value leaves it set, while
    the only installed descriptor is the one of the integer. *)
Lemma C3_counterexample : ~ C3_as_stated.
Proof.
  intros H.
  set (s1 := (Stmt.bind Example.W (Some 1%nat) [p_int64_ptr (heapPtr 0)] false Example.s0).2).
  destruct (Stmt.bind Example.W (Some 1%nat) [p_int64 5] false s1) as [r s2] eqn:Hb.
  vm_compute in Hb. injection Hb as <- <-.
  specialize (H Example.W s1 _ 1%nat [p_int64 5] false 1 _ eq_refl eq_refl).
  vm_compute in H. discriminate.
Qed.

(** C5 (amended): the iteration count of a successful bind pass is 1 when
    no batch parameter is present, and otherwise the count of the last
    batch parameter: each batch overwrites the count of the batches before
    it.  The count of a batch is its length (as [uint32]); for the boolean
    batches the dispatcher computes it, for the others it is what the slice
    binder returns, which the specification fixes to the batch length. *)
Theorem bind_iterations_last_batch (W : World) (s s' : State) (a : addr)
    (ps : list param) (b : bool) (it : Z) :
  (forall idx m pos arg k, batchLength true arg = Some k ->
     sliceIterations W (Bound idx m pos arg) b = uint32 (Z.of_nat k)) ->
  Stmt.bind W (Some a) ps b s = (Return (it, None), s') ->
  it = match lastBatch (u8_of a s) ps with
       | Some k => uint32 (Z.of_nat k)
       | None => 1
       end.
Proof.
  intros Hrep H.
  apply bind_inv in H as [(-> & -> & ->)|(l0 & l & s1 & f & Hl & H0 & -> & _)]; [done|].
  rewrite (bind_loop_iterations W a b _ _ _ _ _ _ Hrep Hl). by rewrite H0.
Qed.

Lemma bind_iterations_last_batch_witness :
  2 = match lastBatch (u8_of 1%nat Example.s0)
              [p_int64_s [1; 2; 3]; p_int64 9; p_int64_s [4; 5]] with
      | Some k => uint32 (Z.of_nat k)
      | None => 1
      end.
Proof.
  apply (bind_iterations_last_batch Example.W Example.s0
           (Stmt.bind Example.W (Some 1%nat)
                      [p_int64_s [1; 2; 3]; p_int64 9; p_int64_s [4; 5]] false Example.s0).2
           1%nat [p_int64_s [1; 2; 3]; p_int64 9; p_int64_s [4; 5]] false 2).
  - intros idx m pos arg k H. simpl. rewrite H. reflexivity.
  - vm_compute. reflexivity.
Defined.

(** C5 as stated fails: of two boolean batches of lengths 3 and 2 the
    second, not the first, gives the iteration count. *)
Lemma C5_counterexample : ~ C5_as_stated.
Proof.
  intros H.
  specialize (H Example.W Example.s0 _ 1%nat
                [p_bool_s [true; true; true]; p_bool_s [true; false]] false 2 eq_refl).
  vm_compute in H. discriminate.
Qed.

(** ** C6: nullable wrappers *)

Lemma seq_eq {A B : Type} (m : Go A) (k : A -> Go B) (s s1 : State) (x : A) :
  m s = (Return x, s1) -> seq m k s = k x s1.
Proof. intros H. unfold seq. by rewrite H. Qed.


(** ** The bind pass and the steps around the execute are quiet *)

Lemma calm_quiet {A : Type} (a : addr) (m : Go A) : keeps (calm a) m -> keeps quiet m.
Proof. intros H s. apply H. Qed.

Section Quiet.
Variable W : World.

Lemma call_go_quiet (c : call) : isExecute c = false -> keeps quiet (call_go W c).
Proof. intros Hc. apply (calm_quiet 0%nat). by apply call_go_calm. Qed.

Lemma call_oci_quiet (c : call) : isExecute c = false -> keeps quiet (call_oci W c).
Proof. intros Hc. unfold call_oci. quiet_tac. Qed.

Ltac quiet_leaf :=
  first [ apply (calm_quiet 0%nat); first [ apply store_local_calm | apply evalCfg_calm
                                          | apply setNilBind_calm ]
        | apply call_go_quiet; reflexivity
        | apply call_oci_quiet; reflexivity
        | apply (reader_keeps quiet _ quiet_refl);
          first [ apply Stmt_Cfg_reader | apply env_of_reader | apply Stmt_checkClosed_reader ] ].

Lemma bind_value_quiet (a : addr) (idx : bndIdx) (m : meth) (arg : param)
      (usesCfg ptrBind : bool) (n : nat) (l : locals) :
  keeps quiet (Stmt.bind_value W a idx m arg usesCfg ptrBind n l).
Proof.
  unfold Stmt.bind_value, Stmt.update.
  repeat first [ apply (calm_quiet a); first [ apply store_local_calm | apply evalCfg_calm ]
               | quiet_leaf | progress quiet_tac ].
Qed.

Lemma bind_null_quiet (a : addr) (assign : bool) (t : SQLT) (n : nat) (l : locals) :
  keeps quiet (Stmt.bind_null W a assign t n l).
Proof.
  unfold Stmt.bind_null.
  repeat first [ apply (calm_quiet a); apply setNilBind_calm | progress quiet_tac ].
Qed.

Lemma bind_nullable_quiet (a : addr) (IsNull : bool) (t : SQLT) (idx : bndIdx) (arg : param)
      (usesCfg : bool) (n : nat) (l : locals) :
  keeps quiet (Stmt.bind_nullable W a IsNull t idx arg usesCfg n l).
Proof.
  unfold Stmt.bind_nullable. destruct IsNull; [apply bind_null_quiet|apply bind_value_quiet].
Qed.

Lemma bind_batch_quiet (a : addr) (b : bool) (idx : bndIdx) (m : meth) (arg : param)
      (usesCfg shadowsErr ptrBind : bool) (n : nat) (l : locals) :
  keeps quiet (Stmt.bind_batch W a b idx m arg usesCfg shadowsErr ptrBind n l).
Proof.
  unfold Stmt.bind_batch, Stmt.update.
  repeat first [ apply (calm_quiet a); first [ apply store_local_calm | apply evalCfg_calm ]
               | quiet_leaf | progress quiet_tac ].
Qed.

Lemma bind_batchLen_quiet (a : addr) (idx : bndIdx) (m : meth) (arg : param) (k : nat)
      (n : nat) (l : locals) :
  keeps quiet (Stmt.bind_batchLen W a idx m arg k n l).
Proof.
  unfold Stmt.bind_batchLen.
  repeat first [ apply (calm_quiet a); first [ apply store_local_calm | apply evalCfg_calm ]
               | quiet_leaf | progress quiet_tac ].
Qed.

Lemma bindParam_quiet (a : addr) (b : bool) (n : nat) (p : param) (l : locals) :
  keeps quiet (Stmt.bindParam W a b n p l).
Proof.
  destruct p; unfold Stmt.bindParam;
    repeat first [ apply bind_value_quiet | apply bind_nullable_quiet | apply bind_batch_quiet
                 | apply bind_batchLen_quiet | apply bind_null_quiet
                 | apply (calm_quiet a); apply store_local_calm
                 | quiet_leaf | progress quiet_tac ].
Qed.

Lemma bind_loop_quiet (a : addr) (b : bool) (ps : list param) (n : nat) (l : locals) :
  keeps quiet (Stmt.bind_loop W a b n ps l).
Proof.
  revert n l. induction ps as [|p ps IH]; intros n l; simpl; [quiet_tac|].
  apply (keeps_seq _ quiet_trans); [apply bindParam_quiet|].
  intros [l1|it e]; [apply IH|quiet_tac].
Qed.

Lemma bind_quiet (stmt : option addr) (ps : list param) (b : bool) :
  keeps quiet (Stmt.bind W stmt ps b).
Proof.
  unfold Stmt.bind, Stmt.update. destruct ps; [quiet_tac|].
  repeat first [ apply bind_loop_quiet | progress quiet_tac ].
Qed.

Lemma setAttr_quiet (stmt : option addr) (v : Z) (t : attr) :
  keeps quiet (Stmt.setAttr W stmt v t).
Proof. unfold Stmt.setAttr. repeat first [quiet_leaf | progress quiet_tac]. Qed.

Lemma attr_quiet (stmt : option addr) (t : attr) : keeps quiet (Stmt.attr W stmt t).
Proof. unfold Stmt.attr. repeat first [quiet_leaf | progress quiet_tac]. Qed.

Lemma setPrefetchSize_quiet (stmt : option addr) : keeps quiet (Stmt.setPrefetchSize W stmt).
Proof.
  unfold Stmt.setPrefetchSize.
  repeat first [apply setAttr_quiet | quiet_leaf | progress quiet_tac].
Qed.

Lemma setPtr_quiet (d : bnd) : keeps quiet (Stmt.setPtr W d).
Proof. unfold Stmt.setPtr. repeat first [quiet_leaf | progress quiet_tac]. Qed.

Lemma setBindPtrs_loop_quiet (l : list (option bnd)) : keeps quiet (Stmt.setBindPtrs_loop W l).
Proof.
  induction l as [|[d|] l IH]; simpl; [quiet_tac| |quiet_tac].
  apply (keeps_seq _ quiet_trans); [apply setPtr_quiet|].
  intros [e|]; [quiet_tac|apply IH].
Qed.

Lemma setBindPtrs_quiet (stmt : option addr) : keeps quiet (Stmt.setBindPtrs W stmt).
Proof. unfold Stmt.setBindPtrs. quiet_tac. apply setBindPtrs_loop_quiet. Qed.

Lemma exe_tail_quiet (stmt : option addr) (ra : Z) (f : bool) :
  keeps quiet (Stmt.exe_tail W stmt ra f).
Proof.
  unfold Stmt.exe_tail. repeat first [apply setBindPtrs_quiet | progress quiet_tac].
Qed.

Lemma exe_params_reader (stmt : option addr) (ps : list param) :
  keeps eq (Stmt.exe_params W stmt ps).
Proof.
  unfold Stmt.exe_params, Stmt.substituteLast.
  reader_tac; first [apply env_of_reader | idtac].
Qed.

Lemma exe_mode_reader (stmt : option addr) : keeps eq (Stmt.exe_mode stmt).
Proof. unfold Stmt.exe_mode. reader_tac. apply Stmt_Cfg_reader. Qed.

End Quiet.

(** ** C4: the execute mode *)

Lemma exe_mode_quiet_agrees (stmt : option addr) (s s' : State) :
  quiet s s' -> (Stmt.exe_mode stmt s').1 = (Stmt.exe_mode stmt s).1.
Proof.
  intros Hq. unfold Stmt.exe_mode.
  apply agrees_seq; [apply Stmt_Cfg_reader|by apply Stmt_Cfg_quiet|].
  intros cfg. destruct (IsAutoCommitting cfg); [|done].
  apply agrees_stmts; [exact Hq|].
  intros o o' Hv. injection Hv as _ Hs _ _ _ _. rewrite Hs.
  apply agrees_seq; [apply keeps_deref; done|apply agrees_deref, Hq|].
  intros se. simpl. by destruct (length (openTxs se) =? 0)%nat.
Qed.

Lemma once_quiet (a : addr) (s s' : State) : quiet s s' -> once a s s'.
Proof. intros (_ & _ & _ & _ & X). exists []. rewrite app_nil_r. by split; [|left]. Qed.

Lemma quiet_once (a : addr) (s s1 s' : State) : quiet s s1 -> once a s1 s' -> once a s s'.
Proof.
  intros Hq (new & Hn & Hm). pose proof Hq as (_ & _ & _ & _ & X).
  exists new. split; [by rewrite Hn, X|].
  destruct Hm as [->|(h & it & m & -> & Hm)]; [by left|right].
  exists h, it, m. split; [done|]. by rewrite <- (exe_mode_quiet_agrees _ _ _ Hq).
Qed.

Lemma once_then_quiet (a : addr) (s s1 s' : State) : once a s s1 -> quiet s1 s' -> once a s s'.
Proof.
  intros (new & Hn & Hm) (_ & _ & _ & _ & X). exists new. split; [by rewrite X|done].
Qed.

(** A function does [once a] when it keeps that relation. *)
Lemma once_seq_l {A B : Type} (a : addr) (m : Go A) (k : A -> Go B) :
  keeps quiet m -> (forall x, keeps (once a) (k x)) -> keeps (once a) (seq m k).
Proof.
  intros Hm Hk s. unfold seq. specialize (Hm s).
  destruct (m s) as [[x|v] s1]; simpl in *; [|by apply once_quiet].
  eapply quiet_once; [exact Hm|apply Hk].
Qed.

Lemma once_orReturn {A : Type} (a : addr) (m : Go (option error)) (fail : error -> A)
      (k : Go A) :
  keeps quiet m -> keeps (once a) k -> keeps (once a) (orReturn m fail k).
Proof.
  intros Hm Hk. unfold orReturn. apply once_seq_l; [done|].
  intros [e|]; [|done]. intros s. apply once_quiet, quiet_refl.
Qed.

Lemma once_seq_r {A B : Type} (a : addr) (m : Go A) (k : A -> Go B) :
  keeps (once a) m -> (forall x, keeps quiet (k x)) -> keeps (once a) (seq m k).
Proof.
  intros Hm Hk s. unfold seq. specialize (Hm s).
  destruct (m s) as [[x|v] s1]; simpl in *; [|done].
  eapply once_then_quiet; [exact Hm|apply Hk].
Qed.

Lemma once_of_quiet {A : Type} (a : addr) (m : Go A) : keeps quiet m -> keeps (once a) m.
Proof. intros H s. apply once_quiet, H. Qed.

Section Execute.
Variable W : World.

Lemma quiet_reader {A : Type} (m : Go A) : keeps eq m -> keeps quiet m.
Proof. apply reader_keeps, quiet_refl. Qed.

(** The body of [exe] logs at most one execute, with the mode that
    [exe_mode] computes. *)
Lemma exe_body_once (a : addr) (ps : list param) (b : bool) :
  keeps (once a) (Stmt.exe_body W (Some a) ps b).
Proof.
  unfold Stmt.exe_body.
  apply once_orReturn; [apply quiet_reader, Stmt_checkClosed_reader|].
  apply once_seq_l; [apply quiet_reader, exe_params_reader|]. intros ps'.
  apply once_seq_l; [apply bind_quiet|]. intros [it e].
  apply once_orReturn; [apply keeps_ret, quiet_refl|].
  apply once_orReturn; [apply setPrefetchSize_quiet|].
  (* from here on the state is as [exe_mode] reads it *)
  intros s. unfold seq at 1.
  pose proof (exe_mode_reader (Some a) s) as Hr.
  destruct (Stmt.exe_mode (Some a) s) as [[m|v] s1] eqn:Hm; simpl in Hr; subst s1;
    [|apply once_quiet, quiet_refl].
  unfold seq at 1. pose proof (deref_state stmts (Some a) s) as Hd.
  destruct (deref stmts (Some a) s) as [[o|v] s1]; simpl in Hd; subst s1;
    [|apply once_quiet, quiet_refl].
  unfold seq at 1. pose proof (deref_state sess (ses o) s) as Hd.
  destruct (deref sess (ses o) s) as [[se|v] s1]; simpl in Hd; subst s1;
    [|apply once_quiet, quiet_refl].
  unfold seq at 1. pose proof (env_of_reader (Some a) s) as Hd.
  destruct (Stmt.env_of (Some a) s) as [[env|v] s1]; simpl in Hd; subst s1;
    [|apply once_quiet, quiet_refl].
  unfold seq at 1. pose proof (deref_state envs env s) as Hd.
  destruct (deref envs env s) as [[e0|v] s1]; simpl in Hd; subst s1;
    [|apply once_quiet, quiet_refl].
  unfold call_oci. rewrite seq_assoc, seq_modify, seq_ret.
  set (s2 := set_log (fun l => l ++ [OCIStmtExecute (ocistmt o) it m]) s).
  assert (H2 : once a s s2).
  { exists [OCIStmtExecute (ocistmt o) it m]. split.
    - unfold s2, execs. simpl. by rewrite filter_app.
    - right. exists (ocistmt o), it, m. by rewrite Hm. }
  eapply once_then_quiet; [exact H2|].
  refine ((_ : keeps quiet (seq _ _)) s2).
  repeat first [ apply exe_tail_quiet | apply attr_quiet
               | apply quiet_reader; apply env_of_reader
               | progress quiet_tac ].
Qed.

Lemma exe_once (a : addr) (ps : list param) (b : bool) :
  keeps (once a) (Stmt.exe W (Some a) ps b).
Proof.
  unfold Stmt.exe. apply once_seq_l; [quiet_tac|]. intros [].
  intros s. unfold catch. pose proof (exe_body_once a ps b s) as H.
  destruct (Stmt.exe_body W (Some a) ps b s) as [[r|v] s1]; [exact H|].
  eapply once_then_quiet; [exact H|].
  refine ((_ : keeps quiet (seq _ _)) s1). quiet_tac.
Qed.

(** What [exe_mode] computes. *)
Lemma exe_mode_spec (a sa : addr) (o : Stmt) (se : Ses) (cfg : StmtCfg) (s : State) :
  stmts s !! a = Some o -> ses o = Some sa -> sess s !! sa = Some se ->
  Stmt.Cfg (Some a) s = (Return cfg, s) ->
  Stmt.exe_mode (Some a) s = (Return (modeOf cfg se), s).
Proof.
  intros Ho Hs Hse Hcfg. unfold Stmt.exe_mode, modeOf.
  rewrite (seq_eq _ _ _ _ _ Hcfg). destruct (IsAutoCommitting cfg); [|done].
  rewrite (seq_deref stmts a o _ s Ho), Hs, (seq_deref sess sa se _ s Hse). simpl.
  by destruct (length (openTxs se) =? 0)%nat.
Qed.

End Execute.

Lemma modeOf_commit (cfg : StmtCfg) (se : Ses) :
  modeOf cfg se = OCI_COMMIT_ON_SUCCESS <-> IsAutoCommitting cfg = true /\ openTxs se = [].
Proof.
  unfold modeOf. destruct (IsAutoCommitting cfg), (openTxs se); simpl; split;
    try done; intros [? ?]; done.
Qed.

(** C4 (amended): [exe] makes at most one execute call, and its mode is
    commit-on-success iff the configuration enables auto-commit and the
    session has no open transaction, whatever the statement kind; otherwise
    it is the default mode. *)
Theorem exe_mode_selection (W : World) (s s' : State) (a sa : addr) (o : Stmt) (se : Ses)
    (cfg : StmtCfg) (ps : list param) (b : bool) (r : result (Z * Z * option error)) :
  stmts s !! a = Some o -> ses o = Some sa -> sess s !! sa = Some se ->
  Stmt.Cfg (Some a) s = (Return cfg, s) ->
  Stmt.exe W (Some a) ps b s = (r, s') ->
  (exists new, execs (log s') = execs (log s) ++ new
     /\ (new = [] \/ exists h it, new = [OCIStmtExecute h it (modeOf cfg se)]))
  /\ (modeOf cfg se = OCI_COMMIT_ON_SUCCESS <->
      IsAutoCommitting cfg = true /\ openTxs se = [])
  /\ (modeOf cfg se = OCI_COMMIT_ON_SUCCESS \/ modeOf cfg se = OCI_DEFAULT).
Proof.
  intros Ho Hs Hse Hcfg He. split; [|split].
  - pose proof (exe_once W a ps b s) as (new & Hn & Hm). rewrite He in Hn. simpl in Hn.
    exists new. split; [done|].
    destruct Hm as [->|(h & it & m & -> & Hm)]; [by left|right].
    rewrite (exe_mode_spec a sa o se cfg s Ho Hs Hse Hcfg) in Hm. injection Hm as <-. eauto.
  - apply modeOf_commit.
  - unfold modeOf. destruct (_ && _); eauto.
Qed.

Lemma exe_mode_selection_witness :
  exists new,
    execs (log (Stmt.exe Example.W (Some 1%nat) [p_int64 5] false Example.s0).2)
    = execs (log Example.s0) ++ new
    /\ (new = [] \/ exists h it,
          new = [OCIStmtExecute h it (modeOf (env_cfg (Example.env1 false Bin)) Example.ses1)]).
Proof.
  apply (exe_mode_selection Example.W Example.s0 _ 1%nat 1%nat
           (Example.stmt1 OCI_STMT_SELECT "SELECT 1 FROM dual") Example.ses1
           (env_cfg (Example.env1 false Bin)) [p_int64 5] false
           (Stmt.exe Example.W (Some 1%nat) [p_int64 5] false Example.s0).1).
  - reflexivity.
  - reflexivity.
  - reflexivity.
  - vm_compute. reflexivity.
  - apply surjective_pairing.
Defined.

(** C4 as stated fails: a SELECT with auto-commit on and no open
    transaction is executed in commit-on-success mode. *)
Lemma C4_counterexample : ~ C4_as_stated.
Proof.
  intros H.
  assert (Hcfg : Stmt.Cfg (Some 1%nat) Example.s0
                 = (Return (env_cfg (Example.env1 false Bin)), Example.s0))
    by (vm_compute; reflexivity).
  assert (Hin : OCIStmtExecute (Some 15%nat) 1 OCI_COMMIT_ON_SUCCESS
                ∈ log (Stmt.exe Example.W (Some 1%nat) [p_int64 5] false Example.s0).2).
  { vm_compute. right. left. }
  destruct (H Example.W Example.s0 _ 1%nat 1%nat _ Example.ses1 _ [p_int64 5] false _ _ _ _
              eq_refl eq_refl eq_refl Hcfg (surjective_pairing _) Hin) as [Hm _].
  destruct (Hm eq_refl) as [Hk _]. vm_compute in Hk. discriminate.
Qed.

(** ** C7: the identity capture of exe *)

Section Capture.
Variable W : World.

(** The copy-back loop ends with the capture descriptor: the variable
    [lastInsertId] holds what the provider reported for its position. *)
Lemma setBindPtrs_loop_capture (pre : list (option bnd)) (pos : nat) (s s' : State) :
  Stmt.setBindPtrs_loop W (pre ++ [Some (captureBnd pos)]) s = (Return None, s') ->
  lastInsertId s' = outInt64 W pos.
Proof.
  revert s. induction pre as [|[d|] pre IH]; intros s H; simpl in H.
  - apply seq_inv in H as (e & s1 & H1 & H).
    unfold Stmt.setPtr, captureBnd in H1.
    apply seq_inv in H1 as (e1 & s2 & H2 & H1).
    destruct e1 as [e1|].
    + unfold ret in H1. injection H1 as <- <-. discriminate.
    + rewrite seq_modify in H1. unfold ret in H1. injection H1 as <- <-.
      unfold ret in H. by injection H as <-.
  - apply seq_inv in H as (e & s1 & H1 & H). destruct e as [e|]; [discriminate|].
    by eapply IH.
  - discriminate.
Qed.

(** On an Insert statement of the package environment whose text has the
    clause, [exe] replaces the last parameter by the capture. *)
Lemma exe_params_capture (s : State) (a : addr) (o : Stmt) (env : Env) (ps : list param) :
  Stmt_env s a o env ->
  isPkgEnv env = true -> stmtType o = OCI_STMT_INSERT ->
  Stmt.hasLastInsertIdClause W (sql o) = true -> ps <> [] ->
  Stmt.exe_params W (Some a) ps s
  = (Return (<[(length ps - 1)%nat := p_int64_ptr lastInsertIdVar]> ps), s).
Proof.
  intros (Ho & sa & se & va & sv & ea & Hs & Hse & Hv & Hsv & He & Henv) Hpkg Hk Hc Hps.
  unfold Stmt.exe_params, Stmt.env_of.
  rewrite (seq_deref stmts a o _ s Ho), !seq_assoc, (seq_deref stmts a o _ s Ho), Hs.
  rewrite seq_assoc, (seq_deref sess sa se _ s Hse), Hv.
  rewrite seq_assoc, (seq_deref srvs va sv _ s Hsv), seq_ret, He.
  rewrite (seq_deref envs ea env _ s Henv), Hpkg, Hk. simpl.
  rewrite (seq_deref stmts a o _ s Ho), Hc.
  unfold Stmt.substituteLast. by destruct ps.
Qed.

End Capture.

(** *** [frame]: the steps between the bind pass and the copy-back *)

Lemma frame_refl (s : State) : frame s s.
Proof. done. Qed.

Lemma frame_trans (s1 s2 s3 : State) : frame s1 s2 -> frame s2 s3 -> frame s1 s3.
Proof. unfold frame. congruence. Qed.

Ltac frame_tac :=
  repeat first
    [ keeps_step frame_refl frame_trans
    | apply keeps_modify; intros ?; reflexivity ].

Lemma reader_frame {A : Type} (m : Go A) : keeps eq m -> keeps frame m.
Proof. apply reader_keeps, frame_refl. Qed.

Lemma call_go_frame (W : World) (c : call) : keeps frame (call_go W c).
Proof. unfold call_go. frame_tac. Qed.

Section Frame.
Variable W : World.

Lemma call_oci_frame (c : call) : keeps frame (call_oci W c).
Proof. unfold call_oci. frame_tac. Qed.

Lemma setAttr_frame (stmt : option addr) (v : Z) (t : attr) :
  keeps frame (Stmt.setAttr W stmt v t).
Proof.
  unfold Stmt.setAttr.
  repeat first [ apply call_oci_frame | apply reader_frame, env_of_reader | progress frame_tac ].
Qed.

Lemma attr_frame (stmt : option addr) (t : attr) : keeps frame (Stmt.attr W stmt t).
Proof.
  unfold Stmt.attr.
  repeat first [ apply call_oci_frame | apply reader_frame, env_of_reader | progress frame_tac ].
Qed.

Lemma setPrefetchSize_frame (stmt : option addr) : keeps frame (Stmt.setPrefetchSize W stmt).
Proof.
  unfold Stmt.setPrefetchSize.
  repeat first [ apply setAttr_frame | apply reader_frame, Stmt_Cfg_reader
               | progress frame_tac ].
Qed.

End Frame.

(** *** [firm]: the capacity of the descriptor array during a bind pass *)

Lemma firm_refl (a : addr) (s : State) : firm a s s.
Proof. done. Qed.

Lemma firm_trans (a : addr) (s1 s2 s3 : State) : firm a s1 s2 -> firm a s2 s3 -> firm a s1 s3.
Proof. unfold firm. congruence. Qed.

Lemma firm_log (a : addr) (f : list call -> list call) (s : State) : firm a s (set_log f s).
Proof. done. Qed.

Lemma firm_update (a a' : addr) (f : Stmt -> Stmt) (s : State) :
  (forall o, length (arr (bnds (f o))) = length (arr (bnds o))) ->
  firm a s (set_stmts (fun m => match m !! a' with
                                | Some o => <[a' := f o]> m
                                | None => m
                                end) s).
Proof.
  intros Hf. unfold firm, capOf. simpl. destruct (stmts s !! a') as [o|] eqn:Ho; [|done].
  destruct (decide (a = a')) as [->|Hne].
  - rewrite lookup_insert_eq, Ho. simpl. by rewrite Hf.
  - by rewrite lookup_insert_ne.
Qed.

Lemma reader_firm {A : Type} (a : addr) (m : Go A) : keeps eq m -> keeps (firm a) m.
Proof. apply reader_keeps, firm_refl. Qed.

Section Firm.
Variable W : World.
Variable a : addr.
Variable b : bool.

Ltac firm_tac :=
  repeat first
    [ keeps_step (firm_refl a) (firm_trans a)
    | apply keeps_modify; intros ?;
      first [ apply firm_log
            | apply firm_update; intros ?; simpl; first [reflexivity | apply length_insert] ]
    | apply reader_firm; first [apply Stmt_Cfg_reader] ].

Lemma store_local_firm (n : nat) (d : bnd) (lb : local_bnds) :
  keeps (firm a) (Stmt.store_local a n d lb).
Proof. unfold Stmt.store_local, Stmt.update. firm_tac. Qed.

Lemma bind_value_firm (idx : bndIdx) (m : meth) (arg : param) (usesCfg ptrBind : bool)
      (n : nat) (l : locals) :
  keeps (firm a) (Stmt.bind_value W a idx m arg usesCfg ptrBind n l).
Proof.
  unfold Stmt.bind_value, Stmt.evalCfg, Stmt.store_local, Stmt.update, call_go. firm_tac.
Qed.

Lemma bind_null_firm (assign : bool) (t : SQLT) (n : nat) (l : locals) :
  keeps (firm a) (Stmt.bind_null W a assign t n l).
Proof. unfold Stmt.bind_null, Stmt.setNilBind, Stmt.update, call_go. firm_tac. Qed.

Lemma bind_nullable_firm (IsNull : bool) (t : SQLT) (idx : bndIdx) (arg : param)
      (usesCfg : bool) (n : nat) (l : locals) :
  keeps (firm a) (Stmt.bind_nullable W a IsNull t idx arg usesCfg n l).
Proof.
  unfold Stmt.bind_nullable. destruct IsNull; [apply bind_null_firm|apply bind_value_firm].
Qed.

Lemma bind_batch_firm (idx : bndIdx) (m : meth) (arg : param)
      (usesCfg shadowsErr ptrBind : bool) (n : nat) (l : locals) :
  keeps (firm a) (Stmt.bind_batch W a b idx m arg usesCfg shadowsErr ptrBind n l).
Proof.
  unfold Stmt.bind_batch, Stmt.evalCfg, Stmt.store_local, Stmt.update, call_go. firm_tac.
Qed.

Lemma bind_batchLen_firm (idx : bndIdx) (m : meth) (arg : param) (k : nat)
      (n : nat) (l : locals) :
  keeps (firm a) (Stmt.bind_batchLen W a idx m arg k n l).
Proof.
  unfold Stmt.bind_batchLen, Stmt.evalCfg, Stmt.store_local, Stmt.update, call_go. firm_tac.
Qed.

Lemma bindParam_firm (n : nat) (p : param) (l : locals) :
  keeps (firm a) (Stmt.bindParam W a b n p l).
Proof.
  destruct p; unfold Stmt.bindParam;
    repeat first [ apply bind_value_firm | apply bind_nullable_firm | apply bind_batch_firm
                 | apply bind_batchLen_firm | apply bind_null_firm
                 | apply store_local_firm | progress firm_tac ].
Qed.

Lemma bind_loop_firm (ps : list param) (n : nat) (l : locals) :
  keeps (firm a) (Stmt.bind_loop W a b n ps l).
Proof.
  revert n l. induction ps as [|p ps IH]; intros n l; simpl; [firm_tac|].
  apply (keeps_seq _ (firm_trans a)); [apply bindParam_firm|].
  intros [l1|it e]; [apply IH|firm_tac].
Qed.

(** *** The shape of the local slice *)

Lemma store_local_shape (n : nat) (d : bnd) (lb lb' : local_bnds) (s s' : State) :
  Stmt.store_local a n d lb s = (Return lb', s') -> shapeOf lb' = shapeOf lb.
Proof.
  unfold Stmt.store_local. destruct lb as [|l0].
  - intros H. apply seq_inv in H as ([] & s1 & _ & H). unfold ret in H. by injection H as <- <-.
  - unfold ret. intros H. injection H as <- <-. simpl. by rewrite length_insert.
Qed.

Lemma bind_value_shape (idx : bndIdx) (m : meth) (arg : param) (usesCfg ptrBind : bool)
      (n : nat) (l l' : locals) (s s' : State) :
  Stmt.bind_value W a idx m arg usesCfg ptrBind n l s = (Return (Next l'), s') ->
  shapeOf (l_bnds l') = shapeOf (l_bnds l).
Proof.
  unfold Stmt.bind_value. intros H.
  apply seq_inv in H as (lb & s1 & H1 & H). apply seq_inv in H as ([] & s2 & H2 & H).
  apply seq_inv in H as (e & s3 & H3 & H). apply store_local_shape in H1.
  destruct e as [e|]; [discriminate|].
  apply seq_inv in H as ([] & s4 & H4 & H). unfold ret in H. by injection H as <- <-.
Qed.

Lemma bind_null_shape (assign : bool) (t : SQLT) (n : nat) (l l' : locals) (s s' : State) :
  Stmt.bind_null W a assign t n l s = (Return (Next l'), s') ->
  shapeOf (l_bnds l') = shapeOf (l_bnds l).
Proof.
  unfold Stmt.bind_null. intros H. apply seq_inv in H as (e & s1 & H1 & H).
  unfold ret in H. by injection H as <- <-.
Qed.

Lemma bind_nullable_shape (IsNull : bool) (t : SQLT) (idx : bndIdx) (arg : param)
      (usesCfg : bool) (n : nat) (l l' : locals) (s s' : State) :
  Stmt.bind_nullable W a IsNull t idx arg usesCfg n l s = (Return (Next l'), s') ->
  shapeOf (l_bnds l') = shapeOf (l_bnds l).
Proof.
  unfold Stmt.bind_nullable. destruct IsNull; [apply bind_null_shape|apply bind_value_shape].
Qed.

Lemma bind_batch_shape (idx : bndIdx) (m : meth) (arg : param)
      (usesCfg shadowsErr ptrBind : bool) (n : nat) (l l' : locals) (s s' : State) :
  Stmt.bind_batch W a b idx m arg usesCfg shadowsErr ptrBind n l s = (Return (Next l'), s') ->
  shapeOf (l_bnds l') = shapeOf (l_bnds l).
Proof.
  unfold Stmt.bind_batch. intros H.
  apply seq_inv in H as (lb & s1 & H1 & H). apply seq_inv in H as ([] & s2 & H2 & H).
  apply seq_inv in H as (e & s3 & H3 & H). apply store_local_shape in H1.
  destruct e as [e|]; [discriminate|].
  apply seq_inv in H as ([] & s4 & H4 & H). unfold ret in H. by injection H as <- <-.
Qed.

Lemma bind_batchLen_shape (idx : bndIdx) (m : meth) (arg : param) (k : nat)
      (n : nat) (l l' : locals) (s s' : State) :
  Stmt.bind_batchLen W a idx m arg k n l s = (Return (Next l'), s') ->
  shapeOf (l_bnds l') = shapeOf (l_bnds l).
Proof.
  unfold Stmt.bind_batchLen. intros H.
  apply seq_inv in H as (lb & s1 & H1 & H). apply seq_inv in H as ([] & s2 & H2 & H).
  apply seq_inv in H as (e & s3 & H3 & H). apply store_local_shape in H1.
  destruct e as [e|]; [discriminate|]. unfold ret in H. by injection H as <- <-.
Qed.

Ltac shape_case H :=
  first [ apply bind_value_shape in H
        | apply bind_nullable_shape in H
        | apply bind_batch_shape in H
        | apply bind_batchLen_shape in H
        | apply bind_null_shape in H ];
  exact H.

Lemma bindParam_shape (n : nat) (p : param) (l l' : locals) (s s' : State) :
  Stmt.bindParam W a b n p l s = (Return (Next l'), s') ->
  shapeOf (l_bnds l') = shapeOf (l_bnds l).
Proof.
  intros H. destruct p; unfold Stmt.bindParam in H; try (solve [shape_case H]).
  - apply seq_inv in H as (cfg & s1 & Hcfg & H).
    destruct (byteSlice cfg); [destruct (binPool W); [| |discriminate]|].
    + shape_case H.
    + destruct v; shape_case H.
    + shape_case H.
  - destruct p.
    + apply seq_inv in H as (lb & s1 & _ & H). discriminate.
    + shape_case H.
    + shape_case H.
  - apply seq_inv in H as (o & s1 & Ho & H). shape_case H.
  - destruct IsNull; [shape_case H|]. destruct (binPool W); try discriminate. shape_case H.
  - destruct (Reader l0); shape_case H.
  - destruct l0; shape_case H.
  - destruct IsNull; shape_case H.
  - destruct (isSlice && elemIsInterface); discriminate.
Qed.

Lemma bind_loop_shape (ps : list param) (n : nat) (l l' : locals) (s s' : State) :
  Stmt.bind_loop W a b n ps l s = (Return (Next l'), s') ->
  shapeOf (l_bnds l') = shapeOf (l_bnds l).
Proof.
  revert n l s. induction ps as [|p ps IH]; intros n l s H; simpl in H.
  - unfold ret in H. by injection H as <- <-.
  - apply seq_inv in H as (f & s1 & Hp & H). destruct f as [l1|]; [|discriminate].
    rewrite (IH _ _ _ H). by eapply bindParam_shape.
Qed.

Lemma seq_ext {A B : Type} (m : Go A) (k1 k2 : A -> Go B) (s : State) :
  (forall x s1, k1 x s1 = k2 x s1) -> seq m k1 s = seq m k2 s.
Proof. intros H. unfold seq. destruct (m s) as [[x|v] s1]; [apply H|done]. Qed.

Lemma bind_loop_app (ps1 ps2 : list param) (n : nat) (l : locals) (s : State) :
  Stmt.bind_loop W a b n (ps1 ++ ps2) l s =
  seq (Stmt.bind_loop W a b n ps1 l)
      (fun f => match f with
                | Next l1 => Stmt.bind_loop W a b (n + length ps1) ps2 l1
                | Exit it e => ret (Exit it e)
                end) s.
Proof.
  revert n l s. induction ps1 as [|p ps1 IH]; intros n l s; simpl.
  - rewrite seq_ret. by rewrite Nat.add_0_r.
  - rewrite seq_assoc. apply seq_ext. intros [l1|it e] s1.
    + rewrite IH. by replace (S n + length ps1)%nat with (n + S (length ps1))%nat by lia.
    + by rewrite seq_ret.
Qed.

End Firm.

(** *** The descriptor of the capture ends the installed list *)

Lemma take_insert_last {A : Type} (l : list A) (n : nat) (x : A) :
  (n < length l)%nat -> take (S n) (<[n := x]> l) = take n l ++ [x].
Proof.
  intros Hn. rewrite (take_S_r _ _ x); [|by apply list_lookup_insert_eq].
  by rewrite take_insert_ge.
Qed.

Section CaptureBind.
Variable W : World.
Variable a : addr.
Variable b : bool.

Lemma bind_value_capture (n : nat) (l l' : locals) (s s' : State) :
  Stmt.bind_value W a bndIdxInt64Ptr m_bind (p_int64_ptr lastInsertIdVar) false true n l s
  = (Return (Next l'), s') ->
  match l_bnds l with
  | Fresh l0 => l_bnds l' = Fresh (<[n := Some (captureBnd (S n))]> l0)
  | Shared =>
      l_bnds l' = Shared
      /\ forall o, stmts s !! a = Some o ->
           exists o', stmts s' !! a = Some o'
                      /\ arr (bnds o') = <[n := Some (captureBnd (S n))]> (arr (bnds o))
  end.
Proof.
  unfold Stmt.bind_value. intros H.
  apply seq_inv in H as (lb & s1 & H1 & H). apply seq_inv in H as ([] & s2 & H2 & H).
  unfold Stmt.evalCfg, ret in H2. injection H2 as <-.
  apply seq_inv in H as (e & s3 & H3 & H).
  unfold call_go in H3. rewrite seq_modify in H3.
  destruct e as [e|]; [discriminate|].
  apply seq_inv in H as ([] & s4 & H4 & H). unfold ret in H. injection H as <- <-.
  unfold Stmt.update, modify in H4. injection H4 as <-.
  assert (Hs3 : stmts s3 = stmts s1).
  { destruct (answer W _) as [e|v]; unfold ret, panic in H3; [|discriminate].
    by injection H3 as _ <-. }
  unfold Stmt.store_local in H1. destruct (l_bnds l) as [|l0]; simpl.
  - apply seq_inv in H1 as ([] & s1' & Hu & H1). unfold ret in H1. injection H1 as <- <-.
    unfold Stmt.update, modify in Hu. injection Hu as <-.
    split; [done|]. intros o Ho. rewrite Hs3. simpl. rewrite Ho, lookup_insert_eq.
    eexists. split; [apply lookup_insert_eq|done].
  - unfold ret in H1. by injection H1 as <- <-.
Qed.

(** [bind] on a non-empty parameter list, step by step. *)
Lemma bind_nonempty (ps : list param) (s s' : State) (o : Stmt) (it : Z) :
  ps <> [] -> stmts s !! a = Some o ->
  Stmt.bind W (Some a) ps b s = (Return (it, None), s') ->
  exists l s1,
    Stmt.bind_loop W a b 0 ps
      (mkLocals 1 None (if (cap (bnds o) <? length ps)%nat
                        then Fresh (replicate (length ps) None) else Shared)) s
    = (Return (Next l), s1)
    /\ s' = (Stmt.update a (Stmt.set_bnds (fun sl =>
               match l_bnds l with
               | Shared => mkSlice (arr sl) (length ps)
               | Fresh d => mkSlice d (length ps)
               end)) s1).2.
Proof.
  intros Hps Ho H. unfold Stmt.bind in H. destruct ps as [|p ps]; [done|].
  rewrite (seq_deref stmts a o _ s Ho) in H.
  apply seq_inv in H as (f & s1 & Hl & H). destruct f as [l|it' e].
  - apply seq_inv in H as ([] & s2 & Hu & H). unfold ret in H.
    injection H as _ _ <-. exists l, s1. split; [exact Hl|]. by rewrite Hu.
  - unfold ret in H. injection H as _ He _. subst.
    apply bind_loop_exit in Hl. by destruct Hl.
Qed.

(** After a successful bind pass whose last parameter is the capture, the
    installed descriptors end with the capture descriptor. *)
Lemma bind_capture (ps0 : list param) (s s' : State) (o : Stmt) (it : Z) :
  stmts s !! a = Some o ->
  Stmt.bind W (Some a) (ps0 ++ [p_int64_ptr lastInsertIdVar]) b s = (Return (it, None), s') ->
  exists o' pre,
    stmts s' !! a = Some o'
    /\ elems (bnds o') = pre ++ [Some (captureBnd (S (length ps0)))].
Proof.
  intros Ho H.
  apply (bind_nonempty _ _ _ o) in H as (l & s2 & Hl & ->); [|by destruct ps0|done].
  rewrite length_app in *. simpl in *.
  replace (length ps0 + 1)%nat with (S (length ps0)) in * by lia.
  set (l0 := mkLocals 1 None _) in Hl.
  rewrite bind_loop_app in Hl.
  apply seq_inv in Hl as (f & s1 & Hpre & Hl). destruct f as [l1|]; [|discriminate].
  simpl in Hl. apply seq_inv in Hl as (f & s2' & Hlast & Hl).
  destruct f as [l2|]; [|discriminate]. unfold ret in Hl. injection Hl as <- <-.
  unfold Stmt.bindParam in Hlast.
  pose proof (bind_loop_firm W a b ps0 0%nat l0 s) as F1. rewrite Hpre in F1. simpl in F1.
  pose proof (bind_loop_shape W a b _ _ _ _ _ _ Hpre) as S1.
  pose proof (bind_value_capture _ _ _ _ _ Hlast) as Hc.
  unfold firm, capOf in F1. rewrite Ho in F1. simpl in F1.
  destruct (stmts s1 !! a) as [o1|] eqn:Ho1; [|discriminate]. simpl in F1.
  injection F1 as F1.
  pose proof (bind_value_firm W a bndIdxInt64Ptr m_bind (p_int64_ptr lastInsertIdVar) false true (length ps0) l1 s1) as F2. rewrite Hlast in F2. simpl in F2.
  unfold firm, capOf in F2. rewrite Ho1 in F2. simpl in F2.
  destruct (stmts s2' !! a) as [o2|] eqn:Ho2; [|discriminate]. simpl in F2.
  injection F2 as F2.
  unfold Stmt.update, modify. simpl. rewrite lookup_insert_eq.
  unfold l0 in S1. simpl in S1.
  destruct (cap (bnds o) <? S (length ps0))%nat eqn:Hcap.
  - (* a fresh array of the length of the parameter list *)
    simpl in S1. rewrite length_replicate in S1.
    destruct (l_bnds l1) as [|d1]; [discriminate|]. simpl in S1. injection S1 as S1.
    rewrite Hc. eexists _, _. split; [reflexivity|]. unfold elems. simpl.
    apply take_insert_last. lia.
  - (* the array of the statement, which is long enough *)
    destruct (l_bnds l1) as [|d1]; [|discriminate].
    destruct Hc as [-> Hc]. destruct (Hc o1 eq_refl) as (o2' & Ho2' & Harr).
    injection Ho2' as <-.
    eexists _, _. split; [reflexivity|]. unfold elems. simpl. rewrite Harr.
    apply take_insert_last. apply Nat.ltb_ge in Hcap. unfold cap in Hcap. lia.
Qed.

End CaptureBind.

(** *** Running [exe] backwards from a successful return *)

Lemma keeps_inv {A : Type} (R : State -> State -> Prop) (m : Go A) (s s' : State)
      (r : result A) :
  keeps R m -> m s = (r, s') -> R s s'.
Proof. intros K H. specialize (K s). by rewrite H in K. Qed.

Lemma deref_reader {A : Type} (m : State -> gmap addr A) (p : option addr) :
  keeps eq (deref m p).
Proof. intros s. by rewrite deref_state. Qed.

Lemma deref_inv {A : Type} (m : State -> gmap addr A) (p : option addr) (s s' : State) (x : A) :
  deref m p s = (Return x, s') -> s' = s /\ exists a, p = Some a /\ m s !! a = Some x.
Proof.
  unfold deref. destruct p as [a|]; [|discriminate].
  destruct (m s !! a) as [y|] eqn:Hy; [|discriminate].
  intros H. injection H as <- <-. eauto.
Qed.

Lemma catch_inv {A : Type} (m : Go A) (h : string -> Go A) (s s' : State) (r : A) :
  catch m h s = (Return r, s') ->
  m s = (Return r, s') \/ exists v s1, m s = (Panicked v, s1) /\ h v s1 = (Return r, s').
Proof. unfold catch. destruct (m s) as [[x|v] s1]; eauto. Qed.

Lemma insert_last {A : Type} (l : list A) (x y : A) :
  <[(length (l ++ [y]) - 1)%nat := x]> (l ++ [y]) = l ++ [x].
Proof.
  rewrite length_app. simpl.
  replace (length l + 1 - 1)%nat with (length l + 0)%nat by lia.
  by rewrite insert_app_r.
Qed.

Section Identity.
Variable W : World.

Lemma attr_inv (stmt : option addr) (t : attr) (s s' : State) (z : Z) :
  Stmt.attr W stmt t s = (Return (inl z), s') -> z = rowCount W.
Proof.
  unfold Stmt.attr. intros H.
  apply seq_inv in H as (o & s1 & _ & H). apply seq_inv in H as (env & s2 & _ & H).
  apply seq_inv in H as (e & s3 & _ & H). apply seq_inv in H as (r & s4 & _ & H).
  destruct (sword_eqb r OCI_ERROR).
  - apply seq_inv in H as (? & ? & _ & H). apply seq_inv in H as (? & ? & _ & H).
    discriminate.
  - unfold ret in H. by injection H as <- _.
Qed.

(** The end of [exe] when the installed descriptors end with the capture. *)
Lemma exe_tail_capture (a : addr) (ra0 ra li : Z) (s s' : State) (o : Stmt)
      (pre : list (option bnd)) (pos : nat) :
  stmts s !! a = Some o -> elems (bnds o) = pre ++ [Some (captureBnd pos)] ->
  Stmt.exe_tail W (Some a) ra0 true s = (Return (ra, li, None), s') ->
  ra = ra0 /\ li = outInt64 W pos /\ lastInsertId s' = li.
Proof.
  intros Ho He H. unfold Stmt.exe_tail in H.
  apply catch_inv in H as [H|(v & s1 & _ & H)].
  - apply seq_inv in H as (e & s1 & Hp & H).
    unfold Stmt.setBindPtrs in Hp. rewrite (seq_deref stmts a o _ s Ho), He in Hp.
    destruct e as [e|].
    + unfold seq, get, ret in H. simpl in H. discriminate.
    + apply setBindPtrs_loop_capture in Hp. unfold seq, get, ret in H. simpl in H.
      injection H as <- <- <-. done.
  - unfold seq, get, ret in H. simpl in H. discriminate.
Qed.

(** A successful [exe] on an Insert statement of the package environment
    whose text has the clause returns the row count of the provider and
    the identity the provider reported for the last position. *)
Lemma exe_capture (s s' : State) (a : addr) (o : Stmt) (env : Env) (ps : list param)
      (b : bool) (ra li : Z) :
  Stmt_env s a o env -> isPkgEnv env = true -> stmtType o = OCI_STMT_INSERT ->
  Stmt.hasLastInsertIdClause W (sql o) = true -> ps <> [] ->
  Stmt.exe W (Some a) ps b s = (Return (ra, li, None), s') ->
  ra = rowCount W /\ li = outInt64 W (length ps) /\ lastInsertId s' = li.
Proof.
  intros E Hpkg Hk Hc Hps H.
  unfold Stmt.exe in H. rewrite seq_modify in H.
  apply catch_inv in H as [H|(v & s1 & _ & H)];
    [|unfold seq, get, ret in H; simpl in H; discriminate].
  set (s0 := set_lastInsertId 0 s) in *.
  assert (E0 : Stmt_env s0 a o env) by exact E.
  pose proof (exe_params_capture W s0 a o env ps E0 Hpkg Hk Hc Hps) as Hsub.
  destruct (exists_last Hps) as (ps0 & p & ->). rewrite insert_last in Hsub.
  destruct E0 as [Ho _].
  unfold Stmt.exe_body, orReturn in H.
  (* checkClosed *)
  apply seq_inv in H as (e & s1 & H1 & H).
  apply (keeps_inv eq) in H1 as <-; [|apply Stmt_checkClosed_reader].
  destruct e as [e|]; [unfold ret in H; discriminate|].
  (* the substitution and the bind pass *)
  rewrite (seq_eq _ _ _ _ _ Hsub) in H.
  apply seq_inv in H as ([it err] & s3 & Hb & H). cbv beta iota in H.
  apply seq_inv in H as (e & s4 & He & H). unfold ret in He. injection He as <- <-.
  destruct err as [err|]; [unfold ret in H; discriminate|].
  destruct (bind_capture W a b ps0 s0 s3 o it Ho Hb) as (o1 & pre & Ho1 & Hel).
  destruct (bind_flag W s0 s3 a o _ b it Ho Hb) as (o1' & Ho1' & Hfl).
  rewrite Ho1 in Ho1'. injection Ho1' as <-.
  rewrite existsb_app in Hfl. simpl in Hfl. rewrite !orb_true_r in Hfl.
  pose proof (keeps_inv quiet _ _ _ _ (bind_quiet W (Some a) _ b) Hb) as (_ & _ & _ & Hv & _).
  specialize (Hv a). rewrite Ho1, Ho in Hv.
  assert (Hty : stmtType o1 = stmtType o) by (unfold view in Hv; simpl in Hv; congruence).
  clear Hv.
  (* the prefetch size, the mode and the execute *)
  apply seq_inv in H as (e & s4 & Hpf & H).
  apply (keeps_inv frame) in Hpf; [|apply setPrefetchSize_frame].
  destruct e as [e|]; [unfold ret in H; discriminate|].
  apply seq_inv in H as (mode & s5 & Hm & H).
  apply (keeps_inv eq) in Hm as <-; [|apply exe_mode_reader].
  apply seq_inv in H as (o2 & s5 & Hd & H).
  apply (keeps_inv eq) in Hd as <-; [|apply deref_reader].
  apply seq_inv in H as (se & s5 & Hd & H).
  apply (keeps_inv eq) in Hd as <-; [|apply deref_reader].
  apply seq_inv in H as (ea & s5 & Hd & H).
  apply (keeps_inv eq) in Hd as <-; [|apply env_of_reader].
  apply seq_inv in H as (e0 & s5 & Hd & H).
  apply (keeps_inv eq) in Hd as <-; [|apply deref_reader].
  apply seq_inv in H as (r & s5 & Hcall & H).
  apply (keeps_inv frame) in Hcall; [|apply call_oci_frame].
  apply seq_inv in H as (o3 & s6 & Hd & H).
  apply deref_inv in Hd as (-> & a' & Ha' & Ho3). injection Ha' as <-.
  unfold frame in *. rewrite Hcall, Hpf, Ho1 in Ho3. injection Ho3 as <-.
  cbv beta zeta in H.
  destruct (sword_eqb r OCI_ERROR).
  { apply seq_inv in H as (? & ? & _ & H). apply seq_inv in H as (? & ? & _ & H).
    unfold ret in H. discriminate. }
  rewrite Hty, Hk, Hfl in H.
  change (Stmt.isRowCountKind OCI_STMT_INSERT) with true in H. cbv beta iota in H.
  apply seq_inv in H as (x & s6 & Ha & H). destruct x as [z|e]; [|unfold ret in H; discriminate].
  pose proof (attr_inv _ _ _ _ _ Ha) as ->.
  apply (keeps_inv frame) in Ha; [|apply attr_frame]. unfold frame in Ha.
  eapply exe_tail_capture in H; [|by rewrite Ha, Hcall, Hpf|exact Hel].
  rewrite length_app. simpl. by replace (length ps0 + 1)%nat with (S (length ps0)) by lia.
Qed.

End Identity.

(** C7 (amended): the substitution is made only for a statement of the
    environment of the database/sql package: there, for an Insert
    statement whose text has the recognized clause and a non-empty
    parameter list, [exe] hands [bind] the parameters with the last slot
    replaced by the identity capture, and a successful [exe] returns the
    row count together with the identity the provider reported for that
    slot; [Exe] returns the row count and the error of [exe] and drops
    the identity. *)
Theorem exe_identity_capture (W : World) (s : State) (a : addr) (o : Stmt) (env : Env)
    (ps : list param) :
  Stmt_env s a o env -> isPkgEnv env = true -> stmtType o = OCI_STMT_INSERT ->
  Stmt.hasLastInsertIdClause W (sql o) = true -> ps <> [] ->
  Stmt.exe_params W (Some a) ps s
  = (Return (<[(length ps - 1)%nat := p_int64_ptr lastInsertIdVar]> ps), s)
  /\ (forall b ra li s',
        Stmt.exe W (Some a) ps b s = (Return (ra, li, None), s') ->
        ra = rowCount W /\ li = outInt64 W (length ps))
  /\ (forall ra li e s',
        Stmt.exe W (Some a) ps false s = (Return (ra, li, e), s') ->
        Stmt.Exe W (Some a) ps s = (Return (ra, e), s')).
Proof.
  intros E Hpkg Hk Hc Hps. split; [by eapply exe_params_capture|]. split.
  - intros b ra li s' H.
    destruct (exe_capture W s s' a o env ps b ra li E Hpkg Hk Hc Hps H) as (-> & -> & _).
    done.
  - intros ra li e s' H. unfold Stmt.Exe. by rewrite (seq_eq _ _ _ _ _ H).
Qed.

(** The example on ASCII text, and the substitution on a text whose
    RETURNING is written with dotless i, in a world whose case mapping
    knows that letter. *)
Lemma exe_identity_capture_witness :
  let s := Example.store true OCI_STMT_INSERT Example.insertText Bin in
  let s_u := Example.store true OCI_STMT_INSERT Sample.text_written Bin in
  (Stmt.exe_params Example.W (Some 1%nat) [p_int64 5; p_int64 0] s
   = (Return [p_int64 5; p_int64_ptr lastInsertIdVar], s)
   /\ (forall b ra li s',
         Stmt.exe Example.W (Some 1%nat) [p_int64 5; p_int64 0] b s
         = (Return (ra, li, None), s') ->
         ra = 1 /\ li = 42)
   /\ (forall ra li e s',
         Stmt.exe Example.W (Some 1%nat) [p_int64 5; p_int64 0] false s
         = (Return (ra, li, e), s') ->
         Stmt.Exe Example.W (Some 1%nat) [p_int64 5; p_int64 0] s = (Return (ra, e), s')))
  /\ Stmt.exe_params Sample.W_unicode (Some 1%nat) [p_int64 5; p_int64 0] s_u
     = (Return [p_int64 5; p_int64_ptr lastInsertIdVar], s_u).
Proof.
  split.
  - apply (exe_identity_capture Example.W
             (Example.store true OCI_STMT_INSERT Example.insertText Bin) 1%nat
             (Example.stmt1 OCI_STMT_INSERT Example.insertText) (Example.env1 true Bin)
             [p_int64 5; p_int64 0]).
    + split; [reflexivity|]. exists 1%nat, Example.ses1, 1%nat, Example.srv1, 1%nat.
      repeat split; reflexivity.
    + reflexivity.
    + reflexivity.
    + vm_compute. reflexivity.
    + discriminate.
  - apply (exe_identity_capture Sample.W_unicode
             (Example.store true OCI_STMT_INSERT Sample.text_written Bin) 1%nat
             (Example.stmt1 OCI_STMT_INSERT Sample.text_written) (Example.env1 true Bin)
             [p_int64 5; p_int64 0]).
    + split; [reflexivity|]. exists 1%nat, Example.ses1, 1%nat, Example.srv1, 1%nat.
      repeat split; reflexivity.
    + reflexivity.
    + reflexivity.
    + vm_compute. reflexivity.
    + discriminate.
Defined.

(** The successful run of the example: [exe] returns the row count and the
    identity, and the variable of the capture holds the identity. *)
Lemma exe_identity_capture_run :
  let s := Example.store true OCI_STMT_INSERT Example.insertText Bin in
  (Stmt.exe Example.W (Some 1%nat) [p_int64 5; p_int64 0] false s).1 = Return (1, 42, None)
  /\ (Stmt.Exe Example.W (Some 1%nat) [p_int64 5; p_int64 0] s).1 = Return (1, None).
Proof. split; vm_compute; reflexivity. Qed.

(** C7 as stated fails: outside the environment of the database/sql
    package the parameters of an Insert statement with the clause reach
    [bind] unchanged. *)
Lemma C7_counterexample : ~ C7_as_stated.
Proof.
  intros H.
  assert (Hopen : Stmt_open (Example.store false OCI_STMT_INSERT Example.insertText Bin) 1%nat
                    (Example.stmt1 OCI_STMT_INSERT Example.insertText)).
  { split; [reflexivity|]. split; [by eexists|].
    exists 1%nat, Example.ses1, 1%nat, Example.srv1, 1%nat, (Example.env1 false Bin).
    repeat split; reflexivity. }
  specialize (H Example.W _ _ _ [p_int64 5; p_int64 0] Hopen eq_refl).
  assert (Hc : Stmt.hasLastInsertIdClause Example.W (sql (Example.stmt1 OCI_STMT_INSERT Example.insertText))
               = true) by (vm_compute; reflexivity).
  specialize (H Hc). assert (Hne : [p_int64 5; p_int64 0] <> []) by discriminate.
  specialize (H Hne). vm_compute in H. discriminate.
Qed.

(** ** C6: the NULL descriptor after the pass *)






Section Slot.
Variable W : World.
Variable a : addr.
Variable b : bool.
Variable n : nat.












End Slot.



(** ** The nested hypotheses of C6 and C10 at concrete inputs *)


Lemma open_and_execute_never_panic_witness :
  let s := Example.store true OCI_STMT_INSERT Example.insertText Bin in
  Stmt.exe Example.W (Some 1%nat) [] false s
  = (Return (0, 0, Some (errR index_out_of_range)), set_lastInsertId 0 s).
Proof.
  intros s.
  destruct (open_and_execute_never_panic Example.W) as (_ & _ & _ & _ & _ & _ & _ & H & _).
  apply (H 1%nat [] false s (set_lastInsertId 0 s) index_out_of_range).
  vm_compute. reflexivity.
Defined.

(** * Further properties of the modelled functions *)

(** ** The calls a function makes *)

Lemma logged_refl (P : call -> bool) (s : State) : logged P s s.
Proof. exists []. by rewrite app_nil_r. Qed.

Lemma logged_trans (P : call -> bool) (s1 s2 s3 : State) :
  logged P s1 s2 -> logged P s2 s3 -> logged P s1 s3.
Proof.
  intros (n1 & H1 & F1) (n2 & H2 & F2). exists (n1 ++ n2). split.
  - by rewrite H2, H1, app_assoc.
  - by rewrite forallb_app, F1, F2.
Qed.

Lemma logged_same (P : call -> bool) (s s' : State) : log s' = log s -> logged P s s'.
Proof. intros H. exists []. by rewrite app_nil_r. Qed.

Lemma logged_call (P : call -> bool) (c : call) (s : State) :
  P c = true -> logged P s (set_log (fun l => l ++ [c]) s).
Proof. intros H. exists [c]. split; [done|]. simpl. by rewrite H. Qed.

Lemma logged_weaken (P Q : call -> bool) (s s' : State) :
  (forall c, P c = true -> Q c = true) -> logged P s s' -> logged Q s s'.
Proof.
  intros HPQ (new & H & F). exists new. split; [done|].
  rewrite forallb_forall in *. intros c Hc. by apply HPQ, F.
Qed.

Lemma keeps_weaken {A : Type} (R R' : State -> State -> Prop) (m : Go A) :
  (forall s s', R s s' -> R' s s') -> keeps R m -> keeps R' m.
Proof. intros H K s. apply H, K. Qed.

Lemma reader_logged {A : Type} (P : call -> bool) (m : Go A) :
  keeps eq m -> keeps (logged P) m.
Proof. apply reader_keeps, logged_refl. Qed.

Lemma call_go_logged (W : World) (P : call -> bool) (c : call) :
  P c = true -> keeps (logged P) (call_go W c).
Proof.
  intros H s. unfold call_go. rewrite seq_modify.
  destruct (answer W c); by apply logged_call.
Qed.

Lemma call_oci_logged (W : World) (P : call -> bool) (c : call) :
  P c = true -> keeps (logged P) (call_oci W c).
Proof. intros H s. unfold call_oci. rewrite seq_modify. by apply logged_call. Qed.

(** Decomposes a goal [keeps (logged P) m]; [leaf] proves that a call
    satisfies [P]. *)
Ltac logged_with P leaf :=
  repeat first
    [ keeps_step (logged_refl P) (logged_trans P)
    | apply keeps_modify; intros ?; apply logged_same; reflexivity
    | apply call_go_logged; leaf
    | apply call_oci_logged; leaf
    | apply reader_logged;
      first [ apply Stmt_Cfg_reader | apply env_of_reader | apply Stmt_checkClosed_reader
            | apply exe_params_reader | apply exe_mode_reader ] ].

Ltac refl_leaf := reflexivity.

Ltac logged_tac P := logged_with P refl_leaf.

Ltac binder_leaf :=
  unfold binderIn; simpl; apply andb_true_intro; split; apply Nat.leb_le; lia.

(** ** The calls of a bind pass *)

Section BindCalls.
Variable W : World.
Variable a : addr.
Variable b : bool.

Lemma bind_value_logged (idx : bndIdx) (m : meth) (arg : param) (usesCfg ptrBind : bool)
      (n : nat) (l : locals) :
  keeps (logged (binderIn (S n) (S n))) (Stmt.bind_value W a idx m arg usesCfg ptrBind n l).
Proof.
  unfold Stmt.bind_value, Stmt.store_local, Stmt.evalCfg, Stmt.update.
  logged_with (binderIn (S n) (S n)) binder_leaf.
Qed.

Lemma bind_null_logged (assign : bool) (t : SQLT) (n : nat) (l : locals) :
  keeps (logged (binderIn (S n) (S n))) (Stmt.bind_null W a assign t n l).
Proof.
  unfold Stmt.bind_null, Stmt.setNilBind, Stmt.update.
  logged_with (binderIn (S n) (S n)) binder_leaf.
Qed.

Lemma bind_nullable_logged (IsNull : bool) (t : SQLT) (idx : bndIdx) (arg : param)
      (usesCfg : bool) (n : nat) (l : locals) :
  keeps (logged (binderIn (S n) (S n))) (Stmt.bind_nullable W a IsNull t idx arg usesCfg n l).
Proof.
  unfold Stmt.bind_nullable. destruct IsNull; [apply bind_null_logged|apply bind_value_logged].
Qed.

Lemma bind_batch_logged (idx : bndIdx) (m : meth) (arg : param)
      (usesCfg shadowsErr ptrBind : bool) (n : nat) (l : locals) :
  keeps (logged (binderIn (S n) (S n)))
        (Stmt.bind_batch W a b idx m arg usesCfg shadowsErr ptrBind n l).
Proof.
  unfold Stmt.bind_batch, Stmt.store_local, Stmt.evalCfg, Stmt.update.
  logged_with (binderIn (S n) (S n)) binder_leaf.
Qed.

Lemma bind_batchLen_logged (idx : bndIdx) (m : meth) (arg : param) (k : nat)
      (n : nat) (l : locals) :
  keeps (logged (binderIn (S n) (S n))) (Stmt.bind_batchLen W a idx m arg k n l).
Proof.
  unfold Stmt.bind_batchLen, Stmt.store_local, Stmt.evalCfg, Stmt.update.
  logged_with (binderIn (S n) (S n)) binder_leaf.
Qed.

Lemma bindParam_logged (n : nat) (p : param) (l : locals) :
  keeps (logged (binderIn (S n) (S n))) (Stmt.bindParam W a b n p l).
Proof.
  destruct p; unfold Stmt.bindParam;
    repeat first [ apply bind_value_logged | apply bind_nullable_logged
                 | apply bind_batch_logged | apply bind_batchLen_logged
                 | apply bind_null_logged
                 | progress (unfold Stmt.store_local, Stmt.update)
                 | progress (logged_with (binderIn (S n) (S n)) binder_leaf) ].
Qed.

Lemma binderIn_weaken (lo hi lo' hi' : nat) (c : call) :
  (lo' <= lo)%nat -> (hi <= hi')%nat -> binderIn lo hi c = true -> binderIn lo' hi' c = true.
Proof.
  unfold binderIn. destruct (binderPos c) as [p|]; [|done].
  intros H1 H2 H. apply andb_true_iff in H as [Ha Hb].
  apply Nat.leb_le in Ha, Hb. apply andb_true_intro. split; apply Nat.leb_le; lia.
Qed.

Lemma bind_loop_logged (ps : list param) (n : nat) (l : locals) :
  keeps (logged (binderIn (S n) (n + length ps))) (Stmt.bind_loop W a b n ps l).
Proof.
  revert n l. induction ps as [|p ps IH]; intros n l; simpl.
  - apply keeps_ret, logged_refl.
  - apply (keeps_seq _ (logged_trans _)).
    + eapply keeps_weaken; [|apply bindParam_logged].
      intros s s'. apply logged_weaken. intros c. apply binderIn_weaken; lia.
    + intros [l1|it e]; [|apply keeps_ret, logged_refl].
      eapply keeps_weaken; [|apply IH].
      intros s s'. apply logged_weaken. intros c. apply binderIn_weaken; lia.
Qed.

End BindCalls.

Lemma bind_logged (W : World) (stmt : option addr) (ps : list param) (b : bool) :
  keeps (logged (binderIn 1 (length ps))) (Stmt.bind W stmt ps b).
Proof.
  unfold Stmt.bind. destruct ps as [|p ps]; [apply keeps_ret, logged_refl|].
  apply (keeps_seq _ (logged_trans _)); [apply keeps_deref, logged_refl|]. intros o.
  destruct stmt as [a'|]; [|apply keeps_panic, logged_refl].
  apply (keeps_seq _ (logged_trans _)).
  - apply (bind_loop_logged W a' b (p :: ps) 0).
  - intros [l|it e]; unfold Stmt.update;
      logged_tac (binderIn 1 (length (p :: ps))).
Qed.


(** *** A turn of the loop that goes on made exactly one binder call *)

Lemma logged_none (s s' : State) : logged (fun _ => false) s s' -> log s' = log s.
Proof.
  intros (new & H & F). destruct new as [|c new]; [|discriminate]. by rewrite app_nil_r in H.
Qed.

Lemma mute_inv {A : Type} (m : Go A) (s s' : State) (r : result A) :
  keeps (logged (fun _ => false)) m -> m s = (r, s') -> log s' = log s.
Proof. intros K H. apply logged_none. by eapply keeps_inv. Qed.

Lemma call_go_log (W : World) (c : call) (s s' : State) (r : result (option error)) :
  call_go W c s = (r, s') -> log s' = log s ++ [c].
Proof.
  unfold call_go. rewrite seq_modify. destruct (answer W c); unfold ret, panic;
    intros H; by injection H as _ <-.
Qed.

Lemma call_oci_log (W : World) (c : call) (s s' : State) (r : result sword) :
  call_oci W c s = (r, s') -> log s' = log s ++ [c] /\ r = Return (oci W c).
Proof.
  unfold call_oci. rewrite seq_modify. unfold ret. intros H. by injection H as <- <-.
Qed.

Section BindOne.
Variable W : World.
Variable a : addr.
Variable b : bool.

Lemma store_local_mute (n : nat) (d : bnd) (lb : local_bnds) :
  keeps (logged (fun _ => false)) (Stmt.store_local a n d lb).
Proof. unfold Stmt.store_local, Stmt.update. logged_tac (fun _ : call => false). Qed.

Lemma evalCfg_mute (usesCfg : bool) : keeps (logged (fun _ => false)) (Stmt.evalCfg a usesCfg).
Proof. unfold Stmt.evalCfg. logged_tac (fun _ : call => false). Qed.

Lemma update_mute (f : Stmt -> Stmt) : keeps (logged (fun _ => false)) (Stmt.update a f).
Proof. unfold Stmt.update. logged_tac (fun _ : call => false). Qed.

Lemma bind_value_one (idx : bndIdx) (m : meth) (arg : param) (usesCfg ptrBind : bool)
      (n : nat) (l l' : locals) (s s' : State) :
  Stmt.bind_value W a idx m arg usesCfg ptrBind n l s = (Return (Next l'), s') ->
  oneAt n s s'.
Proof.
  unfold Stmt.bind_value. intros H.
  apply seq_inv in H as (lb & s1 & H1 & H). apply seq_inv in H as ([] & s2 & H2 & H).
  apply seq_inv in H as (e & s3 & H3 & H).
  apply (mute_inv _ _ _ _ (store_local_mute _ _ _)) in H1.
  apply (mute_inv _ _ _ _ (evalCfg_mute _)) in H2.
  apply call_go_log in H3.
  destruct e as [e|]; [discriminate|].
  apply seq_inv in H as ([] & s4 & H4 & H). unfold ret in H. injection H as _ <-.
  assert (H5 : log s4 = log s3).
  { destruct ptrBind; [by apply (mute_inv _ _ _ _ (update_mute _)) in H4|].
    unfold ret in H4. by injection H4 as <-. }
  eexists. split; [by rewrite H5, H3, H2, H1|reflexivity].
Qed.

Lemma bind_null_one (assign : bool) (sqlt : SQLT) (n : nat) (l l' : locals) (s s' : State) :
  Stmt.bind_null W a assign sqlt n l s = (Return (Next l'), s') -> oneAt n s s'.
Proof.
  unfold Stmt.bind_null, Stmt.setNilBind. intros H.
  apply seq_inv in H as (e & s1 & H1 & H). unfold ret in H. injection H as _ <-.
  apply seq_inv in H1 as (o & s2 & H2 & H1).
  apply (keeps_inv eq) in H2 as <-; [|apply deref_reader].
  destruct (n <? len (bnds o))%nat; [|discriminate].
  apply seq_inv in H1 as ([] & s3 & H3 & H1).
  apply (mute_inv _ _ _ _ (update_mute _)) in H3. apply call_go_log in H1.
  eexists. split; [by rewrite H1, H3|reflexivity].
Qed.

Lemma bind_nullable_one (IsNull : bool) (sqlt : SQLT) (idx : bndIdx) (arg : param)
      (usesCfg : bool) (n : nat) (l l' : locals) (s s' : State) :
  Stmt.bind_nullable W a IsNull sqlt idx arg usesCfg n l s = (Return (Next l'), s') ->
  oneAt n s s'.
Proof.
  unfold Stmt.bind_nullable. destruct IsNull; [apply bind_null_one|apply bind_value_one].
Qed.

Lemma bind_batch_one (idx : bndIdx) (m : meth) (arg : param) (usesCfg shadowsErr ptrBind : bool)
      (n : nat) (l l' : locals) (s s' : State) :
  Stmt.bind_batch W a b idx m arg usesCfg shadowsErr ptrBind n l s = (Return (Next l'), s') ->
  oneAt n s s'.
Proof.
  unfold Stmt.bind_batch. intros H.
  apply seq_inv in H as (lb & s1 & H1 & H). apply seq_inv in H as ([] & s2 & H2 & H).
  apply seq_inv in H as (e & s3 & H3 & H).
  apply (mute_inv _ _ _ _ (store_local_mute _ _ _)) in H1.
  apply (mute_inv _ _ _ _ (evalCfg_mute _)) in H2.
  apply call_go_log in H3.
  destruct e as [e|]; [discriminate|].
  apply seq_inv in H as ([] & s4 & H4 & H). unfold ret in H. injection H as _ <-.
  assert (H5 : log s4 = log s3).
  { destruct ptrBind; [by apply (mute_inv _ _ _ _ (update_mute _)) in H4|].
    unfold ret in H4. by injection H4 as <-. }
  eexists. split; [by rewrite H5, H3, H2, H1|reflexivity].
Qed.

Lemma bind_batchLen_one (idx : bndIdx) (m : meth) (arg : param) (k : nat)
      (n : nat) (l l' : locals) (s s' : State) :
  Stmt.bind_batchLen W a idx m arg k n l s = (Return (Next l'), s') -> oneAt n s s'.
Proof.
  unfold Stmt.bind_batchLen. intros H.
  apply seq_inv in H as (lb & s1 & H1 & H). apply seq_inv in H as ([] & s2 & H2 & H).
  apply seq_inv in H as (e & s3 & H3 & H).
  apply (mute_inv _ _ _ _ (store_local_mute _ _ _)) in H1.
  apply (mute_inv _ _ _ _ (evalCfg_mute _)) in H2.
  apply call_go_log in H3.
  destruct e as [e|]; [discriminate|]. unfold ret in H. injection H as _ <-.
  eexists. split; [by rewrite H3, H2, H1|reflexivity].
Qed.

Ltac one_case H :=
  first [ apply bind_value_one in H
        | apply bind_nullable_one in H
        | apply bind_batch_one in H
        | apply bind_batchLen_one in H
        | apply bind_null_one in H ];
  exact H.

Lemma bindParam_one (n : nat) (p : param) (l l' : locals) (s s' : State) :
  Stmt.bindParam W a b n p l s = (Return (Next l'), s') -> oneAt n s s'.
Proof.
  intros H. destruct p; unfold Stmt.bindParam in H; try (solve [one_case H]).
  - (* []uint8 *)
    apply seq_inv in H as (cfg & s1 & Hcfg & H).
    apply (keeps_inv eq) in Hcfg as <-; [|apply Stmt_Cfg_reader].
    destruct (byteSlice cfg); [destruct (binPool W); [| |discriminate]|].
    + one_case H.
    + destruct v; one_case H.
    + one_case H.
  - (* *Time *)
    destruct p.
    + apply seq_inv in H as (lb & s1 & _ & H). discriminate.
    + one_case H.
    + one_case H.
  - (* *string *)
    apply seq_inv in H as (o & s1 & Ho & H).
    apply (keeps_inv eq) in Ho as <-; [|apply deref_reader]. one_case H.
  - (* Raw *)
    destruct IsNull; [one_case H|]. destruct (binPool W); try discriminate. one_case H.
  - (* Lob *)
    destruct (Reader l0); one_case H.
  - (* *Lob *)
    destruct l0; one_case H.
  - (* Bfile *)
    destruct IsNull; one_case H.
  - (* a type without a case *)
    destruct (isSlice && elemIsInterface); discriminate.
Qed.

Lemma bind_loop_calls (ps : list param) (n : nat) (l l' : locals) (s s' : State) :
  Stmt.bind_loop W a b n ps l s = (Return (Next l'), s') ->
  exists cs, log s' = log s ++ cs
             /\ map binderPos cs = map Some (List.seq (S n) (length ps)).
Proof.
  revert n l s. induction ps as [|p ps IH]; intros n l s H; simpl in H.
  - unfold ret in H. injection H as _ <-. exists []. by rewrite app_nil_r.
  - apply seq_inv in H as (f & s1 & Hp & H). destruct f as [l1|]; [|discriminate].
    apply bindParam_one in Hp as (c & Hc & Hpos).
    apply IH in H as (cs & Hcs & Hmap).
    exists (c :: cs). split.
    + rewrite Hcs, Hc, <- app_assoc. reflexivity.
    + simpl. by rewrite Hpos, Hmap.
Qed.

End BindOne.

(** X1.  A bind pass, whatever its outcome, leaves the environments, servers and
    sessions as they are, keeps the configuration, session, handle, kind,
    text and buffer size of every statement, and calls nothing but
    binders of descriptors, at positions between 1 and the number of
    parameters: it never calls the provider. *)
Theorem bind_touches_only_descriptors (W : World) (stmt : option addr) (ps : list param)
    (b : bool) (s : State) :
  let s' := (Stmt.bind W stmt ps b s).2 in
  envs s' = envs s /\ srvs s' = srvs s /\ sess s' = sess s
  /\ (forall a, view <$> (stmts s' !! a) = view <$> (stmts s !! a))
  /\ logged (binderIn 1 (length ps)) s s'.
Proof.
  intros s'. destruct (bind_quiet W stmt ps b s) as (E1 & E2 & E3 & E4 & _).
  do 4 (split; [done|]). apply bind_logged.
Qed.

(** X2.  A bind pass that succeeds made exactly one binder call per parameter,
    in the order of the parameters and at the 1-based positions
    1, 2, ..., and no other call. *)
Theorem bind_one_call_per_parameter (W : World) (a : addr) (ps : list param) (b : bool)
    (s s' : State) (it : Z) :
  Stmt.bind W (Some a) ps b s = (Return (it, None), s') ->
  exists cs, log s' = log s ++ cs
             /\ map binderPos cs = map Some (List.seq 1 (length ps)).
Proof.
  intros H.
  apply bind_inv in H as [(-> & _ & ->)|(l0 & l & s1 & f & Hl & _ & _ & _ & _ & ->)].
  - exists []. by rewrite app_nil_r.
  - apply bind_loop_calls in Hl as (cs & Hcs & Hmap). exists cs. split; [|done].
    rewrite <- Hcs. by apply (mute_inv _ _ _ _ (update_mute a f) (surjective_pairing _)).
Qed.

Lemma bind_one_call_per_parameter_witness :
  exists cs,
    log (Stmt.bind Example.W (Some 1%nat) [p_int64 7; p_bool true; p_string "x"] false
                   Example.s0).2
    = log Example.s0 ++ cs
    /\ map binderPos cs = map Some (List.seq 1 3).
Proof.
  apply (bind_one_call_per_parameter Example.W 1%nat [p_int64 7; p_bool true; p_string "x"]
           false Example.s0 _ 1).
  vm_compute. reflexivity.
Defined.

(** X3.  After a bind pass that succeeds on a non-empty parameter list,
    [stmt.bnds] has one slot per parameter; its backing array is the old
    one when that was large enough and a new one of exactly the needed
    size otherwise.  On an empty parameter list the pass returns 1 and
    leaves the statement, with the descriptors of an earlier pass, as it
    is. *)
Theorem bind_resizes_descriptors (W : World) (a : addr) (ps : list param) (b : bool)
    (s s' : State) (o : Stmt) (it : Z) :
  stmts s !! a = Some o ->
  Stmt.bind W (Some a) ps b s = (Return (it, None), s') ->
  (ps = [] -> it = 1 /\ s' = s)
  /\ (ps <> [] ->
      exists o', stmts s' !! a = Some o'
        /\ len (bnds o') = length ps
        /\ cap (bnds o') = if (cap (bnds o) <? length ps)%nat then length ps
                           else cap (bnds o)).
Proof.
  intros Ho H. split.
  - intros ->. unfold Stmt.bind, ret in H. by injection H as <- <-.
  - intros Hps.
    apply (bind_nonempty W a b ps s s' o it Hps Ho) in H as (l & s1 & Hl & ->).
    pose proof (keeps_inv _ _ _ _ _ (bind_loop_firm W a b ps 0 _) Hl) as F.
    pose proof (bind_loop_shape W a b _ _ _ _ _ _ Hl) as Sh.
    unfold firm, capOf in F. rewrite Ho in F.
    destruct (stmts s1 !! a) as [o1|] eqn:Ho1; [|discriminate].
    injection F as F.
    unfold Stmt.update, modify. cbn [snd]. unfold set_stmts. cbn [stmts].
    rewrite Ho1, lookup_insert_eq.
    eexists. split; [reflexivity|].
    destruct (cap (bnds o) <? length ps)%nat eqn:Hcap; cbn [l_bnds shapeOf] in Sh.
    + destruct (l_bnds l) as [|d]; [discriminate|]. cbn [shapeOf] in Sh.
      rewrite length_replicate in Sh. injection Sh as Sh. by unfold cap.
    + destruct (l_bnds l) as [|d]; [|discriminate]. by unfold cap.
Qed.

Lemma bind_resizes_descriptors_witness :
  exists o',
    stmts (Stmt.bind Example.W (Some 1%nat) [p_int64 7] false Example.s_bound).2 !! 1%nat
    = Some o'
    /\ len (bnds o') = 1%nat /\ cap (bnds o') = 2%nat.
Proof.
  destruct (bind_resizes_descriptors Example.W 1%nat [p_int64 7] false Example.s_bound
              (Stmt.bind Example.W (Some 1%nat) [p_int64 7] false Example.s_bound).2
              Example.stmt_bound 1) as [_ H].
  - reflexivity.
  - vm_compute. reflexivity.
  - apply H. discriminate.
Defined.

(** ** Failures of the bind pass inside exe and qry *)

Lemma checkClosed_open (a : addr) (o : Stmt) (s : State) :
  stmts s !! a = Some o -> is_Some (ocistmt o) ->
  Stmt.checkClosed (Some a) s = (Return None, s).
Proof.
  intros Ho [h Hh]. unfold Stmt.checkClosed. by rewrite (seq_deref stmts a o _ s Ho), Hh.
Qed.

Lemma catch_returned {A : Type} (m : Go A) (h : string -> Go A) (s s1 : State) (x : A) :
  m s = (Return x, s1) -> catch m h s = (Return x, s1).
Proof. intros H. unfold catch. by rewrite H. Qed.

Lemma seq_panicked {A B : Type} (m : Go A) (k : A -> Go B) (s s1 : State) (v : string) :
  m s = (Panicked v, s1) -> seq m k s = (Panicked v, s1).
Proof. intros H. unfold seq. by rewrite H. Qed.

(** X5.  A bind pass that fails ends [exe] and [qry] before the execute: an
    error of the pass is returned (annotated) with zero rows, a panic of the
    pass is recovered and returned as an error, and in both cases no
    execute call is made. *)
Theorem exe_qry_stop_at_bind_failure (W : World) (a : addr) (o : Stmt) (ps ps' : list param)
    (b : bool) (s : State) :
  stmts s !! a = Some o -> is_Some (ocistmt o) ->
  Stmt.exe_params W (Some a) ps (set_lastInsertId 0 s) = (Return ps', set_lastInsertId 0 s) ->
  (forall it e s1,
      Stmt.bind W (Some a) ps' b (set_lastInsertId 0 s) = (Return (it, Some e), s1) ->
      Stmt.exe W (Some a) ps b s = (Return (0, 0, Some (errE e)), s1)
      /\ execs (log s1) = execs (log s))
  /\ (forall v s1,
      Stmt.bind W (Some a) ps' b (set_lastInsertId 0 s) = (Panicked v, s1) ->
      Stmt.exe W (Some a) ps b s = (Return (0, lastInsertId s1, Some (errR v)), s1)
      /\ execs (log s1) = execs (log s))
  /\ (forall it e s1,
      Stmt.bind W (Some a) ps false s = (Return (it, Some e), s1) ->
      Stmt.qry W (Some a) ps s = (Return (None, Some (errE e)), s1)
      /\ execs (log s1) = execs (log s))
  /\ (forall v s1,
      Stmt.bind W (Some a) ps false s = (Panicked v, s1) ->
      Stmt.qry W (Some a) ps s = (Return (None, Some (errR v)), s1)
      /\ execs (log s1) = execs (log s)).
Proof.
  intros Ho Hh Hps.
  assert (Hq : forall b' qs s0 r s1, Stmt.bind W (Some a) qs b' s0 = (r, s1) ->
                 execs (log s1) = execs (log s0)).
  { intros b' qs s0 r s1 H. by destruct (keeps_inv _ _ _ _ _ (bind_quiet W _ _ _) H)
      as (_ & _ & _ & _ & ?). }
  pose proof (checkClosed_open a o (set_lastInsertId 0 s) Ho Hh) as Hc0.
  pose proof (checkClosed_open a o s Ho Hh) as Hc.
  split; [|split; [|split]].
  - intros it e s1 Hb. split; [|exact (Hq _ _ _ _ _ Hb)].
    unfold Stmt.exe. rewrite seq_modify. apply catch_returned.
    unfold Stmt.exe_body, orReturn.
    rewrite (seq_eq _ _ _ _ _ Hc0), (seq_eq _ _ _ _ _ Hps), (seq_eq _ _ _ _ _ Hb).
    reflexivity.
  - intros v s1 Hb. split; [|exact (Hq _ _ _ _ _ Hb)].
    unfold Stmt.exe. rewrite seq_modify.
    rewrite (catch_panicked _ _ _ s1 v); [reflexivity|].
    unfold Stmt.exe_body, orReturn.
    rewrite (seq_eq _ _ _ _ _ Hc0), (seq_eq _ _ _ _ _ Hps). by apply seq_panicked.
  - intros it e s1 Hb. split; [|exact (Hq _ _ _ _ _ Hb)].
    unfold Stmt.qry. apply catch_returned. unfold Stmt.qry_body, orReturn.
    rewrite (seq_eq _ _ _ _ _ Hc), (seq_eq _ _ _ _ _ Hb). reflexivity.
  - intros v s1 Hb. split; [|exact (Hq _ _ _ _ _ Hb)].
    unfold Stmt.qry. rewrite (catch_panicked _ _ _ s1 v); [reflexivity|].
    unfold Stmt.qry_body, orReturn. rewrite (seq_eq _ _ _ _ _ Hc). by apply seq_panicked.
Qed.

Lemma exe_qry_stop_at_bind_failure_witness :
  let ps := [p_int64 7; p_other "chan int" false false] in
  let e := errF "Invalid bind parameter (%v) (%T:%v)." in
  (exists s1, Stmt.exe Example.W (Some 1%nat) ps false Example.s0
              = (Return (0, 0, Some (errE e)), s1)
              /\ execs (log s1) = execs (log Example.s0))
  /\ (exists s1, Stmt.qry Example.W (Some 1%nat) ps Example.s0
                 = (Return (None, Some (errE e)), s1)
                 /\ execs (log s1) = execs (log Example.s0)).
Proof.
  intros ps e.
  destruct (exe_qry_stop_at_bind_failure Example.W 1%nat
              (Example.stmt1 OCI_STMT_SELECT "SELECT 1 FROM dual") ps ps false Example.s0)
    as (H1 & _ & H3 & _).
  - reflexivity.
  - by eexists.
  - vm_compute. reflexivity.
  - split.
    + eexists. apply (H1 1 e). vm_compute. reflexivity.
    + eexists. apply (H3 1 e). vm_compute. reflexivity.
Defined.

(** ** Parameters of a type without a case *)

Lemma bind_loop_supported (W : World) (a : addr) (b : bool) (ps : list param) (n : nat)
      (l l' : locals) (s s' : State) :
  Stmt.bind_loop W a b n ps l s = (Return (Next l'), s') ->
  forall t sl ei, p_other t sl ei ∉ ps.
Proof.
  revert n l s. induction ps as [|p ps IH]; intros n l s H t sl ei Hin.
  - by apply elem_of_nil in Hin.
  - simpl in H. apply seq_inv in H as (f & s1 & Hp & H). destruct f as [l1|]; [|discriminate].
    apply elem_of_cons in Hin as [<-|Hin]; [|by eapply IH].
    unfold Stmt.bindParam in Hp. destruct (sl && ei); discriminate.
Qed.

(** X4.  A bind pass never succeeds on a parameter list that holds a value of a
    type without a case in the type switch: together with the previous
    theorem, [exe] and [qry] never execute a statement with such a
    parameter. *)
Theorem bind_rejects_unsupported (W : World) (a : addr) (ps : list param) (b : bool)
    (s s' : State) (it : Z) (t : string) (sl ei : bool) :
  p_other t sl ei ∈ ps ->
  Stmt.bind W (Some a) ps b s <> (Return (it, None), s').
Proof.
  intros Hin H.
  apply bind_inv in H as [(-> & _ & _)|(l0 & l & s1 & f & Hl & _)].
  - by apply elem_of_nil in Hin.
  - by eapply bind_loop_supported.
Qed.

Lemma bind_rejects_unsupported_witness :
  Stmt.bind Example.W (Some 1%nat) [p_int64 7; p_other "chan int" false false] false
            Example.s0
  <> (Return (1, None), Example.s0).
Proof.
  apply (bind_rejects_unsupported Example.W 1%nat _ false Example.s0 Example.s0 1
           "chan int" false false).
  apply list_elem_of_In. simpl. right. left. reflexivity.
Defined.

(** ** The prefetch size *)

Lemma env_of_spec (s : State) (a : addr) (o : Stmt) (env : Env) :
  Stmt_env s a o env ->
  exists ea, Stmt.env_of (Some a) s = (Return (Some ea), s) /\ envs s !! ea = Some env.
Proof.
  intros (Ho & sa & se & va & sv & ea & Hs & Hse & Hv & Hsv & He & Henv).
  exists ea. split; [|done]. unfold Stmt.env_of.
  rewrite (seq_deref stmts a o _ s Ho), Hs, (seq_deref sess sa se _ s Hse), Hv.
  by rewrite (seq_deref srvs va sv _ s Hsv), He.
Qed.

Lemma setAttr_spec (W : World) (s : State) (a : addr) (o : Stmt) (env : Env) (v : Z)
      (t : attr) :
  Stmt_env s a o env ->
  Stmt.setAttr W (Some a) v t s
  = (Return (if sword_eqb (oci W (OCIAttrSet (ocistmt o) t v)) OCI_ERROR
             then Some (errE (ociError (ociErrorMsg W))) else None),
     set_log (fun l => l ++ [OCIAttrSet (ocistmt o) t v]) s).
Proof.
  intros E. destruct (env_of_spec s a o env E) as (ea & He & Henv). pose proof E as [Ho _].
  unfold Stmt.setAttr.
  rewrite (seq_deref stmts a o _ s Ho), (seq_eq _ _ _ _ _ He), (seq_deref envs ea env _ s Henv).
  unfold call_oci. rewrite seq_assoc, seq_modify, seq_ret.
  set (s1 := set_log _ s).
  destruct (sword_eqb _ OCI_ERROR); [|done].
  assert (E1 : Stmt_env s1 a o env) by exact E.
  destruct (env_of_spec s1 a o env E1) as (ea1 & He1 & Henv1).
  by rewrite (seq_eq _ _ _ _ _ He1), (seq_deref envs ea1 env _ s1 Henv1).
Qed.

(** X10.  [setPrefetchSize] sets at most one attribute: the prefetch row count
    when the configuration has one, else the prefetch memory size when the
    configuration has one, else nothing; an error of the provider is
    returned. *)
Theorem setPrefetchSize_one_attribute (W : World) (s : State) (a : addr) (o : Stmt)
    (env : Env) (cfg : StmtCfg) :
  Stmt_env s a o env ->
  Stmt.Cfg (Some a) s = (Return cfg, s) ->
  Stmt.setPrefetchSize W (Some a) s
  = match prefetchCall cfg (ocistmt o) with
    | None => (Return None, s)
    | Some c =>
        (Return (if sword_eqb (oci W c) OCI_ERROR
                 then Some (errE (errE (ociError (ociErrorMsg W)))) else None),
         set_log (fun l => l ++ [c]) s)
    end.
Proof.
  intros E Hcfg. unfold Stmt.setPrefetchSize, prefetchCall.
  rewrite (seq_eq _ _ _ _ _ Hcfg).
  destruct (0 <? prefetchRowCount cfg).
  - rewrite (seq_eq _ _ _ _ _ (setAttr_spec W s a o env _ _ E)).
    by destruct (sword_eqb _ OCI_ERROR).
  - destruct (0 <? prefetchMemorySize cfg); [|done].
    rewrite (seq_eq _ _ _ _ _ (setAttr_spec W s a o env _ _ E)).
    by destruct (sword_eqb _ OCI_ERROR).
Qed.

Lemma setPrefetchSize_one_attribute_witness :
  Stmt.setPrefetchSize Example.W (Some 1%nat) Sample.s_prefetch
  = (Return None,
     set_log (fun l => l ++ [OCIAttrSet (Some 15%nat) OCI_ATTR_PREFETCH_ROWS 10])
             Sample.s_prefetch).
Proof.
  apply (setPrefetchSize_one_attribute Example.W Sample.s_prefetch 1%nat Sample.stmt_prefetch
           (Example.env1 false Bin) Sample.cfg_prefetch).
  - split; [reflexivity|]. exists 1%nat, Example.ses1, 1%nat, Example.srv1, 1%nat.
    repeat split; reflexivity.
  - vm_compute. reflexivity.
Defined.

(** ** The copy-back loop *)

Section CopyBack.
Variable W : World.

Lemma setPtr_spec (d : bnd) (s : State) :
  (Stmt.setPtr W d s).1 = match answer W (bnd_setPtr d) with
                          | Done e => Return e
                          | Panics v => Panicked v
                          end
  /\ log (Stmt.setPtr W d s).2 = log s ++ [bnd_setPtr d].
Proof.
  unfold Stmt.setPtr, call_go. rewrite seq_assoc, seq_modify.
  destruct (answer W (bnd_setPtr d)) as [[e|]|v]; [done| |done].
  rewrite seq_ret. repeat case_match; done.
Qed.

Lemma setBindPtrs_loop_all (ds : list bnd) (s : State) :
  (forall d, d ∈ ds -> answer W (bnd_setPtr d) = Done None) ->
  exists s', Stmt.setBindPtrs_loop W (map Some ds) s = (Return None, s')
             /\ log s' = log s ++ map bnd_setPtr ds.
Proof.
  revert s. induction ds as [|d ds IH]; intros s Hall; simpl.
  - exists s. by rewrite app_nil_r.
  - destruct (setPtr_spec d s) as [Hr Hl].
    rewrite (Hall d) in Hr by (by left).
    destruct (Stmt.setPtr W d s) as [r s1] eqn:Hp. simpl in Hr, Hl. subst r.
    rewrite (seq_eq _ _ _ _ _ Hp).
    destruct (IH s1) as (s' & H & Hlog); [intros d' Hd'; apply Hall; by right|].
    exists s'. split; [done|]. by rewrite Hlog, Hl, <- app_assoc.
Qed.

Lemma setBindPtrs_loop_stop (pre post : list bnd) (d : bnd) (e : error) (s : State) :
  (forall d', d' ∈ pre -> answer W (bnd_setPtr d') = Done None) ->
  answer W (bnd_setPtr d) = Done (Some e) ->
  exists s', Stmt.setBindPtrs_loop W (map Some (pre ++ d :: post)) s
             = (Return (Some (errE e)), s')
             /\ log s' = log s ++ map bnd_setPtr (pre ++ [d]).
Proof.
  revert s. induction pre as [|d0 pre IH]; intros s Hall Hd; simpl.
  - destruct (setPtr_spec d s) as [Hr Hl]. rewrite Hd in Hr.
    destruct (Stmt.setPtr W d s) as [r s1] eqn:Hp. simpl in Hr, Hl. subst r.
    rewrite (seq_eq _ _ _ _ _ Hp). by exists s1.
  - destruct (setPtr_spec d0 s) as [Hr Hl].
    rewrite (Hall d0) in Hr by (by left).
    destruct (Stmt.setPtr W d0 s) as [r s1] eqn:Hp. simpl in Hr, Hl. subst r.
    rewrite (seq_eq _ _ _ _ _ Hp).
    destruct (IH s1) as (s' & H & Hlog); [intros d' Hd'; apply Hall; by right|done|].
    exists s'. split; [done|]. by rewrite Hlog, Hl, <- app_assoc.
Qed.

End CopyBack.

(** X11.  [setBindPtrs] calls [setPtr] on the installed descriptors in order.
    When all succeed it returns nil after the last one; when one returns
    an error it returns that error (annotated) and the descriptors after
    it are not copied back. *)
Theorem setBindPtrs_stops_at_first_error (W : World) (a : addr) (o : Stmt) (s : State) :
  stmts s !! a = Some o ->
  (forall ds,
      elems (bnds o) = map Some ds ->
      (forall d, d ∈ ds -> answer W (bnd_setPtr d) = Done None) ->
      exists s', Stmt.setBindPtrs W (Some a) s = (Return None, s')
                 /\ log s' = log s ++ map bnd_setPtr ds)
  /\ (forall pre d post e,
      elems (bnds o) = map Some (pre ++ d :: post) ->
      (forall d', d' ∈ pre -> answer W (bnd_setPtr d') = Done None) ->
      answer W (bnd_setPtr d) = Done (Some e) ->
      exists s', Stmt.setBindPtrs W (Some a) s = (Return (Some (errE e)), s')
                 /\ log s' = log s ++ map bnd_setPtr (pre ++ [d])).
Proof.
  intros Ho. split.
  - intros ds He Hall. unfold Stmt.setBindPtrs. rewrite (seq_deref stmts a o _ s Ho), He.
    by apply setBindPtrs_loop_all.
  - intros pre d post e He Hall Hd. unfold Stmt.setBindPtrs.
    rewrite (seq_deref stmts a o _ s Ho), He. by apply setBindPtrs_loop_stop.
Qed.

Lemma setBindPtrs_stops_at_first_error_witness :
  (exists s', Stmt.setBindPtrs Example.W (Some 1%nat) Sample.s_three = (Return None, s')
              /\ log s' = log Sample.s_three
                          ++ map bnd_setPtr [Example.b1; Example.b2; Sample.b3])
  /\ (exists s', Stmt.setBindPtrs Sample.W_setPtr (Some 1%nat) Sample.s_three
                 = (Return (Some (errE (er "no buffer"))), s')
                 /\ log s' = log Sample.s_three ++ map bnd_setPtr [Example.b1; Example.b2]).
Proof.
  split.
  - apply (setBindPtrs_stops_at_first_error Example.W 1%nat Sample.stmt_three Sample.s_three
             eq_refl); [reflexivity|]. intros d _. reflexivity.
  - apply (proj2 (setBindPtrs_stops_at_first_error Sample.W_setPtr 1%nat Sample.stmt_three
                    Sample.s_three eq_refl) [Example.b1] Example.b2 [Sample.b3]);
      [reflexivity| |reflexivity].
    intros d' Hd. apply list_elem_of_singleton in Hd as ->. reflexivity.
Defined.

(** ** Configuration getters and setters *)

(** X16.  After [Stmt.SetCfg], [Stmt.Cfg] returns the configuration that was set
    when it is not the zero value and the environment is not the one of
    the database/sql package; in that environment [SetCfg] has no effect on
    what [Cfg] returns. *)
Theorem Stmt_Cfg_after_SetCfg (s : State) (a : addr) (o : Stmt) (env : Env) (c : StmtCfg) :
  Stmt_env s a o env ->
  let s1 := (Stmt.SetCfg (Some a) c s).2 in
  (isPkgEnv env = false -> StmtCfg_IsZero c = false ->
   Stmt.Cfg (Some a) s1 = (Return c, s1))
  /\ (isPkgEnv env = true -> (Stmt.Cfg (Some a) s1).1 = (Stmt.Cfg (Some a) s).1).
Proof.
  intros E s1. pose proof E as (Ho & sa & se & va & sv & ea & Hs & Hse & Hv & Hsv & He & Henv).
  set (o1 := mkStmt (stmt_id o) (Some c) (ses o) (ocistmt o) (stmtType o) (sql o) (gcts o)
                    (bnds o) (hasPtrBind o) (stringPtrBufferSize o) (openRsets o)).
  assert (Hs1 : s1 = set_stmts (fun m => <[a := o1]> m) s).
  { unfold s1, Stmt.SetCfg. rewrite (seq_deref stmts a o _ s Ho).
    unfold Stmt.update, modify, set_stmts. simpl. by rewrite Ho. }
  assert (Ho1 : stmts s1 !! a = Some o1) by (rewrite Hs1; apply lookup_insert_eq).
  assert (E1 : Stmt_env s1 a o1 env).
  { split; [done|]. exists sa, se, va, sv, ea. by rewrite Hs1. }
  destruct (env_of_spec s1 a o1 env E1) as (ea1 & He1 & Henv1).
  destruct (env_of_spec s a o env E) as (ea0 & He0 & Henv0).
  split.
  - intros Hpkg Hz. unfold Stmt.Cfg.
    rewrite (seq_deref stmts a o1 _ s1 Ho1), (seq_eq _ _ _ _ _ He1).
    rewrite (seq_deref envs ea1 env _ s1 Henv1), Hpkg. simpl. by rewrite Hz.
  - intros Hpkg. unfold Stmt.Cfg, Env.Cfg.
    rewrite (seq_deref stmts a o1 _ s1 Ho1), (seq_eq _ _ _ _ _ He1).
    rewrite (seq_deref envs ea1 env _ s1 Henv1), Hpkg.
    rewrite (seq_deref stmts a o _ s Ho), (seq_eq _ _ _ _ _ He0).
    rewrite (seq_deref envs ea0 env _ s Henv0), Hpkg.
    by rewrite (seq_deref envs ea1 env _ s1 Henv1), (seq_deref envs ea0 env _ s Henv0).
Qed.

Lemma Stmt_Cfg_after_SetCfg_witness :
  let s1 := (Stmt.SetCfg (Some 1%nat) Sample.cfg_prefetch Example.s0).2 in
  Stmt.Cfg (Some 1%nat) s1 = (Return Sample.cfg_prefetch, s1).
Proof.
  intros s1.
  apply (Stmt_Cfg_after_SetCfg Example.s0 1%nat
           (Example.stmt1 OCI_STMT_SELECT "SELECT 1 FROM dual") (Example.env1 false Bin)
           Sample.cfg_prefetch).
  - split; [reflexivity|]. exists 1%nat, Example.ses1, 1%nat, Example.srv1, 1%nat.
    repeat split; reflexivity.
  - reflexivity.
  - reflexivity.
Defined.

(** X17.  After [Srv.SetCfg], [Srv.Cfg] returns the configuration that was set
    when its statement configuration is not the zero value and the
    environment is not the one of the database/sql package; otherwise it
    returns the link that was set together with the statement
    configuration of the environment. *)
Theorem Srv_Cfg_after_SetCfg (s : State) (a ea : addr) (o : Srv) (env : Env) (c : SrvCfg) :
  srvs s !! a = Some o -> srv_env o = Some ea -> envs s !! ea = Some env ->
  let s1 := (Srv.SetCfg (Some a) c s).2 in
  (isPkgEnv env = false -> StmtCfg_IsZero (srv_StmtCfg c) = false ->
   Srv.Cfg (Some a) s1 = (Return c, s1))
  /\ (isPkgEnv env = true \/ StmtCfg_IsZero (srv_StmtCfg c) = true ->
      exists c', Srv.Cfg (Some a) s1 = (Return c', s1)
                 /\ Dblink c' = Dblink c
                 /\ Env.Cfg (Some ea) s1 = (Return (srv_StmtCfg c'), s1)).
Proof.
  intros Ho He Henv s1.
  set (o1 := mkSrv (srv_id o) (Some c) (srv_env o) (ocisrv o) (isUTF8 o) (openSess o)).
  assert (Hs1 : s1 = set_srvs (fun m => <[a := o1]> m) s).
  { unfold s1, Srv.SetCfg. rewrite (seq_deref srvs a o _ s Ho).
    unfold Srv.update, modify, set_srvs. simpl. by rewrite Ho. }
  assert (Ho1 : srvs s1 !! a = Some o1) by (rewrite Hs1; apply lookup_insert_eq).
  assert (Henv1 : envs s1 !! ea = Some env) by by rewrite Hs1.
  split.
  - intros Hpkg Hz. unfold Srv.Cfg. rewrite (seq_deref srvs a o1 _ s1 Ho1).
    unfold o1. cbn [srv_cfg srv_env]. cbv zeta.
    rewrite Hz, He, seq_assoc, (seq_deref envs ea env _ s1 Henv1), seq_ret, Hpkg.
    reflexivity.
  - intros Hor. exists (mkSrvCfg (Dblink c) (env_cfg env)).
    assert (HE : Env.Cfg (Some ea) s1 = (Return (env_cfg env), s1)).
    { unfold Env.Cfg. by rewrite (seq_deref envs ea env _ s1 Henv1). }
    split; [|by split].
    unfold Srv.Cfg. rewrite (seq_deref srvs a o1 _ s1 Ho1).
    unfold o1. cbn [srv_cfg srv_env]. cbv zeta. rewrite He.
    destruct (StmtCfg_IsZero (srv_StmtCfg c)) eqn:Hz.
    + by rewrite seq_ret, (seq_eq _ _ _ _ _ HE).
    + destruct Hor as [Hpkg|?]; [|done].
      by rewrite seq_assoc, (seq_deref envs ea env _ s1 Henv1), seq_ret, Hpkg,
        (seq_eq _ _ _ _ _ HE).
Qed.

Lemma Srv_Cfg_after_SetCfg_witness :
  let c := mkSrvCfg "orcl" Sample.cfg_prefetch in
  let s1 := (Srv.SetCfg (Some 1%nat) c Example.s0).2 in
  Srv.Cfg (Some 1%nat) s1 = (Return c, s1).
Proof.
  intros c s1.
  apply (Srv_Cfg_after_SetCfg Example.s0 1%nat 1%nat Example.srv1 (Example.env1 false Bin) c);
    reflexivity.
Defined.

(** ** Using a node after its close *)

(** X18.  After the internal close of an open statement, [exe] and [qry] return
    the error "Stmt is closed." without binding or calling the provider,
    no result set is open, and the statement is in the pool of the driver
    once more. *)
Theorem Stmt_use_after_close (W : World) (s : State) (a : addr) (o : Stmt)
    (ps : list param) (b : bool) :
  Stmt_open s a o ->
  let s1 := (Stmt.close W (Some a) s).2 in
  Stmt.exe W (Some a) ps b s1
  = (Return (0, 0, Some (errE (er "Stmt is closed."))), set_lastInsertId 0 s1)
  /\ Stmt.qry W (Some a) ps s1 = (Return (None, Some (errE (er "Stmt is closed."))), s1)
  /\ Stmt.NumRset (Some a) s1 = (Return 0%nat, s1)
  /\ stmtPool s1 = a :: stmtPool s.
Proof.
  intros Hopen s1.
  assert (Ho1 : stmts s1 !! a = Some (Stmt_closed o) /\ stmtPool s1 = a :: stmtPool s).
  { unfold s1. rewrite (Stmt_close_spec W a o s Hopen).
    destruct (attempt W (Stmt_children o)) as [[tried es] p]. simpl.
    split; [apply lookup_insert_eq|done]. }
  destruct Ho1 as [Ho1 Hpool].
  assert (Hc : forall s2, stmts s2 !! a = Some (Stmt_closed o) ->
                 Stmt.checkClosed (Some a) s2 = (Return (Some (er "Stmt is closed.")), s2)).
  { intros s2 H2. unfold Stmt.checkClosed. by rewrite (seq_deref stmts a _ _ s2 H2). }
  split; [|split; [|split]].
  - unfold Stmt.exe. rewrite seq_modify. apply catch_returned.
    unfold Stmt.exe_body, orReturn.
    by rewrite (seq_eq _ _ _ _ _ (Hc (set_lastInsertId 0 s1) Ho1)).
  - unfold Stmt.qry. apply catch_returned.
    unfold Stmt.qry_body, orReturn. by rewrite (seq_eq _ _ _ _ _ (Hc _ Ho1)).
  - unfold Stmt.NumRset. by rewrite (seq_deref stmts a _ _ s1 Ho1).
  - done.
Qed.

Lemma Stmt_use_after_close_witness :
  let s1 := (Stmt.close Example.W (Some 1%nat) Example.s_bound).2 in
  Stmt.exe Example.W (Some 1%nat) [p_int64 5] false s1
  = (Return (0, 0, Some (errE (er "Stmt is closed."))), set_lastInsertId 0 s1)
  /\ Stmt.qry Example.W (Some 1%nat) [p_int64 5] s1
     = (Return (None, Some (errE (er "Stmt is closed."))), s1)
  /\ Stmt.NumRset (Some 1%nat) s1 = (Return 0%nat, s1)
  /\ stmtPool s1 = 1%nat :: stmtPool Example.s_bound.
Proof.
  apply (Stmt_use_after_close Example.W Example.s_bound 1%nat Example.stmt_bound
           [p_int64 5] false).
  split; [reflexivity|]. split; [by eexists|].
  exists 1%nat, Example.ses1, 1%nat, Example.srv1, 1%nat, (Example.env1 false Bin).
  repeat split; reflexivity.
Defined.

(** X19.  After the internal close of an open server, [OpenSes] returns the
    error "Srv is closed." without calling the provider, the server has no
    open session, and it is in the pool of the driver once more. *)
Theorem Srv_use_after_close (W : World) (s : State) (a : addr) (o : Srv) (cfg : SesCfg) :
  Srv_open s a o -> SesCfg_IsZero cfg = false ->
  let s1 := (Srv.close W (Some a) s).2 in
  Srv.OpenSes W (Some a) cfg s1 = (Return (None, Some (errE (er "Srv is closed."))), s1)
  /\ Srv.NumSes (Some a) s1 = (Return 0%nat, s1)
  /\ srvPool s1 = a :: srvPool s.
Proof.
  intros Hopen Hz s1.
  assert (Ho1 : srvs s1 !! a = Some (Srv_closed o) /\ srvPool s1 = a :: srvPool s).
  { unfold s1. rewrite (Srv_close_spec W a o s Hopen).
    destruct (attempt W (Srv_children o)) as [[tried es] p]. simpl.
    split; [apply lookup_insert_eq|done]. }
  destruct Ho1 as [Ho1 Hpool]. split; [|split; [|done]].
  - unfold Srv.OpenSes. rewrite Hz. apply catch_returned.
    unfold Srv.OpenSes_body, orReturn, Srv.checkClosed.
    by rewrite seq_assoc, (seq_deref srvs a _ _ s1 Ho1).
  - unfold Srv.NumSes. by rewrite (seq_deref srvs a _ _ s1 Ho1).
Qed.

Lemma Srv_use_after_close_witness :
  let cfg := mkSesCfg "scott" "tiger" DSNMode StmtCfg_zero in
  let s1 := (Srv.close Example.W (Some 1%nat) Example.s0).2 in
  Srv.OpenSes Example.W (Some 1%nat) cfg s1
  = (Return (None, Some (errE (er "Srv is closed."))), s1)
  /\ Srv.NumSes (Some 1%nat) s1 = (Return 0%nat, s1)
  /\ srvPool s1 = 1%nat :: srvPool Example.s0.
Proof.
  intros cfg.
  apply (Srv_use_after_close Example.W Example.s0 1%nat Example.srv1 cfg).
  - split; [reflexivity|]. split; [by eexists|].
    exists 1%nat, (Example.env1 false Bin). repeat split; try reflexivity. by eexists.
  - reflexivity.
Defined.

(** ** The identity capture outside its conditions *)

(** X8.  [exe] hands the parameters to [bind] unchanged unless the environment
    is the one of the database/sql package, the statement is an Insert and
    its text has the clause.  When all three hold and the parameter list
    is empty, the substitution indexes out of range: the panic is
    recovered and [exe] returns it as an error, having bound and executed
    nothing. *)
Theorem exe_params_edges (W : World) (s : State) (a : addr) (o : Stmt) (env : Env) :
  Stmt_env s a o env ->
  (forall ps,
      isPkgEnv env && (stmtType o =? OCI_STMT_INSERT)
      && Stmt.hasLastInsertIdClause W (sql o) = false ->
      Stmt.exe_params W (Some a) ps s = (Return ps, s))
  /\ (forall b,
      isPkgEnv env && (stmtType o =? OCI_STMT_INSERT)
      && Stmt.hasLastInsertIdClause W (sql o) = true ->
      is_Some (ocistmt o) ->
      Stmt.exe W (Some a) [] b s
      = (Return (0, 0, Some (errR index_out_of_range)), set_lastInsertId 0 s)).
Proof.
  intros E.
  assert (Hp : forall s0 ps, Stmt_env s0 a o env ->
            Stmt.exe_params W (Some a) ps s0
            = (if isPkgEnv env && (stmtType o =? OCI_STMT_INSERT)
                  && Stmt.hasLastInsertIdClause W (sql o)
               then Stmt.substituteLast ps else ret ps) s0).
  { intros s0 ps E0. destruct (env_of_spec s0 a o env E0) as (ea & He & Henv).
    destruct E0 as [Ho _]. unfold Stmt.exe_params.
    rewrite (seq_deref stmts a o _ s0 Ho), (seq_eq _ _ _ _ _ He).
    rewrite (seq_deref envs ea env _ s0 Henv).
    destruct (isPkgEnv env && (stmtType o =? OCI_STMT_INSERT)); [|done].
    by rewrite (seq_deref stmts a o _ s0 Ho). }
  split.
  - intros ps Hc. by rewrite (Hp s ps E), Hc.
  - intros b Hc Hh. pose proof E as [Ho _].
    unfold Stmt.exe. rewrite seq_modify.
    rewrite (catch_panicked _ _ _ (set_lastInsertId 0 s) index_out_of_range); [done|].
    unfold Stmt.exe_body, orReturn.
    rewrite (seq_eq _ _ _ _ _ (checkClosed_open a o (set_lastInsertId 0 s) Ho Hh)).
    apply seq_panicked. by rewrite (Hp (set_lastInsertId 0 s) [] E), Hc.
Qed.

(** The two parts on ASCII text, and the first part on a text whose only
    RETURNING after case mapping is in a trailing comment, in a world
    whose mapping knows the letter of that comment. *)
Lemma exe_params_edges_witness :
  Stmt.exe_params Example.W (Some 1%nat) [p_int64 5; p_int64 0]
                  (Example.store true OCI_STMT_UPDATE Example.insertText Bin)
  = (Return [p_int64 5; p_int64 0],
     Example.store true OCI_STMT_UPDATE Example.insertText Bin)
  /\ Stmt.exe Example.W (Some 1%nat) [] false
              (Example.store true OCI_STMT_INSERT Example.insertText Bin)
     = (Return (0, 0, Some (errR index_out_of_range)),
        set_lastInsertId 0 (Example.store true OCI_STMT_INSERT Example.insertText Bin))
  /\ Stmt.exe_params Sample.W_unicode (Some 1%nat) [p_int64 5; p_int64 0]
                     (Example.store true OCI_STMT_INSERT Sample.text_comment Bin)
     = (Return [p_int64 5; p_int64 0],
        Example.store true OCI_STMT_INSERT Sample.text_comment Bin).
Proof.
  split; [|split].
  3: { apply (exe_params_edges Sample.W_unicode
               (Example.store true OCI_STMT_INSERT Sample.text_comment Bin) 1%nat
               (Example.stmt1 OCI_STMT_INSERT Sample.text_comment) (Example.env1 true Bin)).
       - split; [reflexivity|]. exists 1%nat, Example.ses1, 1%nat, Example.srv1, 1%nat.
         repeat split; reflexivity.
       - vm_compute. reflexivity. }
  - apply (exe_params_edges Example.W
             (Example.store true OCI_STMT_UPDATE Example.insertText Bin) 1%nat
             (Example.stmt1 OCI_STMT_UPDATE Example.insertText) (Example.env1 true Bin)).
    + split; [reflexivity|]. exists 1%nat, Example.ses1, 1%nat, Example.srv1, 1%nat.
      repeat split; reflexivity.
    + reflexivity.
  - apply (exe_params_edges Example.W
             (Example.store true OCI_STMT_INSERT Example.insertText Bin) 1%nat
             (Example.stmt1 OCI_STMT_INSERT Example.insertText) (Example.env1 true Bin)).
    + split; [reflexivity|]. exists 1%nat, Example.ses1, 1%nat, Example.srv1, 1%nat.
      repeat split; reflexivity.
    + vm_compute. reflexivity.
    + by eexists.
Defined.

(** ** Column types *)

(** X20.  [SetGcts] returns the column types that were set before and installs
    the new ones, which [Gcts] then returns; nothing else of the statement
    changes. *)
Theorem SetGcts_then_Gcts (s : State) (a : addr) (o : Stmt) (g : list Z) :
  stmts s !! a = Some o ->
  exists s1,
    Stmt.SetGcts (Some a) g s = (Return (gcts o), s1)
    /\ Stmt.Gcts (Some a) s1 = (Return g, s1)
    /\ stmts s1 = <[a := mkStmt (stmt_id o) (stmt_cfg o) (ses o) (ocistmt o) (stmtType o)
                           (sql o) g (bnds o) (hasPtrBind o) (stringPtrBufferSize o)
                           (openRsets o)]> (stmts s)
    /\ log s1 = log s.
Proof.
  intros Ho.
  set (o1 := mkStmt (stmt_id o) (stmt_cfg o) (ses o) (ocistmt o) (stmtType o) (sql o) g
                    (bnds o) (hasPtrBind o) (stringPtrBufferSize o) (openRsets o)).
  exists (set_stmts (fun m => <[a := o1]> m) s). split; [|split; [|done]].
  - unfold Stmt.SetGcts. rewrite (seq_deref stmts a o _ s Ho).
    unfold Stmt.update. rewrite seq_modify. unfold ret, set_stmts. simpl. by rewrite Ho.
  - unfold Stmt.Gcts. rewrite (seq_deref stmts a o1 _ _); [done|]. apply lookup_insert_eq.
Qed.

Lemma SetGcts_then_Gcts_witness :
  exists s1,
    Stmt.SetGcts (Some 1%nat) [3; 4] Example.s0 = (Return [], s1)
    /\ Stmt.Gcts (Some 1%nat) s1 = (Return [3; 4], s1).
Proof.
  destruct (SetGcts_then_Gcts Example.s0 1%nat
              (Example.stmt1 OCI_STMT_SELECT "SELECT 1 FROM dual") [3; 4] eq_refl)
    as (s1 & H1 & H2 & _).
  exists s1. split; [exact H1|exact H2].
Defined.

(** ** Counting executes *)

Lemma upTo_refl (P : call -> bool) (k : nat) (s : State) : upTo P k s s.
Proof. exists []. rewrite app_nil_r. do 2 (split; [done|]). simpl. lia. Qed.

Lemma upTo_add (P : call -> bool) (j k : nat) (s1 s2 s3 : State) :
  upTo P j s1 s2 -> upTo P k s2 s3 -> upTo P (j + k) s1 s3.
Proof.
  intros (n1 & H1 & F1 & L1) (n2 & H2 & F2 & L2). exists (n1 ++ n2). split; [|split].
  - by rewrite H2, H1, app_assoc.
  - by rewrite forallb_app, F1, F2.
  - unfold execs in *. rewrite filter_app, length_app. lia.
Qed.

Lemma upTo_trans (P : call -> bool) (s1 s2 s3 : State) :
  upTo P 0 s1 s2 -> upTo P 0 s2 s3 -> upTo P 0 s1 s3.
Proof. apply (upTo_add P 0 0). Qed.

Lemma execs_none (new : list call) :
  forallb (fun c => negb (isExecute c)) new = true -> execs new = [].
Proof.
  induction new as [|c new IH]; [done|]. simpl. intros H.
  apply andb_prop in H as [Hc H]. unfold execs in *.
  rewrite filter_cons_False; [by apply IH|]. by destruct (isExecute c).
Qed.

Lemma upTo_logged (P : call -> bool) (s s' : State) :
  logged (fun c => P c && negb (isExecute c)) s s' -> upTo P 0 s s'.
Proof.
  intros (new & H & F). exists new. split; [done|].
  rewrite forallb_forall in F. split.
  - apply forallb_forall. intros c Hc. by destruct (andb_prop _ _ (F c Hc)).
  - rewrite execs_none; [simpl; lia|].
    apply forallb_forall. intros c Hc. by destruct (andb_prop _ _ (F c Hc)).
Qed.

Lemma upTo_call (P : call -> bool) (c : call) (s : State) :
  P c = true -> upTo P 1 s (set_log (fun l => l ++ [c]) s).
Proof.
  intros H. exists [c]. split; [done|]. split; [simpl; by rewrite H|].
  unfold execs. destruct (decide (isExecute c = true)).
  - rewrite filter_cons_True by done. simpl. lia.
  - rewrite filter_cons_False by done. simpl. lia.
Qed.

(** Two-phase functions: [R0] before and after, [R1] around the one step
    that counts. *)
Section Phases.
Variables R0 R1 : State -> State -> Prop.
Hypothesis R0_refl : forall s, R0 s s.
Hypothesis R0_R1 : forall s s', R0 s s' -> R1 s s'.
Hypothesis R01 : forall s1 s2 s3, R0 s1 s2 -> R1 s2 s3 -> R1 s1 s3.
Hypothesis R10 : forall s1 s2 s3, R1 s1 s2 -> R0 s2 s3 -> R1 s1 s3.

Lemma phase_of {A : Type} (m : Go A) : keeps R0 m -> keeps R1 m.
Proof. intros H s. apply R0_R1, H. Qed.

Lemma phase_seq_l {A B : Type} (m : Go A) (k : A -> Go B) :
  keeps R0 m -> (forall x, keeps R1 (k x)) -> keeps R1 (seq m k).
Proof.
  intros Hm Hk s. unfold seq. specialize (Hm s).
  destruct (m s) as [[x|v] s1]; simpl in *; [|by apply R0_R1].
  eapply R01; [exact Hm|apply Hk].
Qed.

Lemma phase_seq_r {A B : Type} (m : Go A) (k : A -> Go B) :
  keeps R1 m -> (forall x, keeps R0 (k x)) -> keeps R1 (seq m k).
Proof.
  intros Hm Hk s. unfold seq. specialize (Hm s).
  destruct (m s) as [[x|v] s1]; simpl in *; [|done].
  eapply R10; [exact Hm|apply Hk].
Qed.

Lemma phase_orReturn {A : Type} (m : Go (option error)) (fail : error -> A) (k : Go A) :
  keeps R0 m -> keeps R1 k -> keeps R1 (orReturn m fail k).
Proof.
  intros Hm Hk. unfold orReturn. apply phase_seq_l; [done|].
  intros [e|]; [|done]. intros s. apply R0_R1, R0_refl.
Qed.

Lemma phase_catch {A : Type} (m : Go A) (h : string -> Go A) :
  keeps R1 m -> (forall v, keeps R0 (h v)) -> keeps R1 (catch m h).
Proof.
  intros Hm Hh s. unfold catch. specialize (Hm s).
  destruct (m s) as [[x|v] s1]; simpl in *; [done|].
  eapply R10; [exact Hm|apply Hh].
Qed.

End Phases.

(** ** The calls of qry *)

Section QryCalls.
Variable W : World.

Lemma binderIn_qryCall0 (lo hi : nat) (c : call) : binderIn lo hi c = true -> qryCall0 c = true.
Proof. by destruct c. Qed.

Lemma bind_qryCall0 (stmt : option addr) (ps : list param) (b : bool) :
  keeps (logged qryCall0) (Stmt.bind W stmt ps b).
Proof.
  eapply keeps_weaken; [|apply bind_logged].
  intros s s'. apply logged_weaken. apply binderIn_qryCall0.
Qed.

Lemma setPrefetchSize_qryCall0 (stmt : option addr) :
  keeps (logged qryCall0) (Stmt.setPrefetchSize W stmt).
Proof. unfold Stmt.setPrefetchSize, Stmt.setAttr. logged_tac qryCall0. Qed.

Lemma setPtr_qryCall0 (d : bnd) : keeps (logged qryCall0) (Stmt.setPtr W d).
Proof. unfold Stmt.setPtr. logged_tac qryCall0. Qed.

Lemma setBindPtrs_qryCall0 (stmt : option addr) :
  keeps (logged qryCall0) (Stmt.setBindPtrs W stmt).
Proof.
  unfold Stmt.setBindPtrs. apply (keeps_seq _ (logged_trans _)); [apply keeps_deref, logged_refl|].
  intros o. induction (elems (bnds o)) as [|[d|] l IH]; simpl.
  - apply keeps_ret, logged_refl.
  - apply (keeps_seq _ (logged_trans _)); [apply setPtr_qryCall0|].
    intros [e|]; [apply keeps_ret, logged_refl|apply IH].
  - apply keeps_panic, logged_refl.
Qed.

Lemma qry_tail_qryCall0 (a : addr) : keeps (logged qryCall0) (Stmt.qry_tail W a).
Proof. unfold Stmt.qry_tail, Stmt.update. logged_tac qryCall0. Qed.

Lemma qry_body_calls (stmt : option addr) (ps : list param) :
  keeps (upTo qryCall 1) (Stmt.qry_body W stmt ps).
Proof.
  pose proof (upTo_refl qryCall 0) as X0.
  pose proof (fun s s' (H : upTo qryCall 0 s s') =>
                upTo_add qryCall 0 1 s s s' (upTo_refl _ _ _)
                  ltac:(destruct H as (n & ? & ? & ?); exists n; repeat split; [done..|lia]))
    as X01.
  pose proof (upTo_add qryCall 0 1) as XL. pose proof (upTo_add qryCall 1 0) as XR.
  assert (K0 : forall A (m : Go A), keeps (logged qryCall0) m -> keeps (upTo qryCall 0) m).
  { intros A m H s. apply upTo_logged, H. }
  unfold Stmt.qry_body.
  apply (phase_orReturn _ _ X0 X01 XL);
    [apply K0, reader_logged, Stmt_checkClosed_reader|].
  apply (phase_seq_l _ _ X01 XL); [apply K0, bind_qryCall0|]. intros [it e].
  apply (phase_orReturn _ _ X0 X01 XL); [apply keeps_ret, X0|].
  apply (phase_orReturn _ _ X0 X01 XL); [apply K0, setPrefetchSize_qryCall0|].
  apply (phase_seq_l _ _ X01 XL); [apply keeps_deref, X0|]. intros o.
  apply (phase_seq_l _ _ X01 XL); [apply keeps_deref, X0|]. intros se.
  apply (phase_seq_l _ _ X01 XL); [apply keeps_deref, X0|]. intros sv.
  apply (phase_seq_l _ _ X01 XL); [apply keeps_deref, X0|]. intros e0.
  apply (phase_seq_r _ _ XR).
  - intros s. unfold call_oci. rewrite seq_modify. by apply upTo_call.
  - intros r. apply K0. destruct stmt as [a|];
      unfold orReturn; logged_tac qryCall0;
      first [apply setBindPtrs_qryCall0 | apply qry_tail_qryCall0].
Qed.

End QryCalls.

(** X12.  Whatever its outcome, [qry] calls nothing but binders, the prefetch
    attribute, the execute, the copy-back of the descriptors and the open
    and close of the result set; it executes at most once, with zero
    iterations and in the default mode, so a query never commits. *)
Theorem qry_calls (W : World) (stmt : option addr) (ps : list param) (s : State) :
  upTo qryCall 1 s (Stmt.qry W stmt ps s).2.
Proof.
  pose proof (upTo_add qryCall 1 0) as XR.
  unfold Stmt.qry.
  apply (phase_catch _ _ XR); [apply qry_body_calls|].
  intros v. apply keeps_ret, upTo_refl.
Qed.

(** ** Fields that a bind pass keeps *)

Section Kept.
Context {X : Type}.
Variable proj : Stmt -> X.
Hypothesis proj_bnds : forall f o, proj (Stmt.set_bnds f o) = proj o.
Hypothesis proj_flag : forall b o, proj (Stmt.set_hasPtrBind b o) = proj o.

Lemma kept_refl (s : State) : kept proj s s.
Proof. by intros a. Qed.

Lemma kept_trans (s1 s2 s3 : State) : kept proj s1 s2 -> kept proj s2 s3 -> kept proj s1 s3.
Proof. intros H1 H2 a. by rewrite H2, H1. Qed.

Lemma kept_sym (s1 s2 : State) : kept proj s1 s2 -> kept proj s2 s1.
Proof. intros H a. by rewrite H. Qed.

Lemma kept_frame (s s' : State) : frame s s' -> kept proj s s'.
Proof. intros H a. unfold frame in H. by rewrite H. Qed.

Lemma kept_update (a : addr) (f : Stmt -> Stmt) (s : State) :
  (forall o, proj (f o) = proj o) ->
  kept proj s (set_stmts (fun m => match m !! a with
                                   | Some o => <[a := f o]> m
                                   | None => m
                                   end) s).
Proof.
  intros Hf a'. simpl. destruct (stmts s !! a) as [o|] eqn:Ho; [|done].
  destruct (decide (a' = a)) as [->|Hne].
  - rewrite lookup_insert_eq, Ho. simpl. by rewrite Hf.
  - by rewrite lookup_insert_ne.
Qed.

Lemma kept_is_Some (a : addr) (s s' : State) :
  kept proj s s' -> is_Some (stmts s !! a) -> is_Some (stmts s' !! a).
Proof.
  intros H [o Ho]. specialize (H a). rewrite Ho in H.
  destruct (stmts s' !! a); [by eexists|discriminate].
Qed.

Lemma frame_keeps_kept {A : Type} (m : Go A) : keeps frame m -> keeps (kept proj) m.
Proof. apply keeps_weaken, kept_frame. Qed.

Ltac kept_tac :=
  repeat first
    [ keeps_step kept_refl kept_trans
    | apply keeps_modify; intros ?;
      first [ apply kept_update; intros ?; first [apply proj_bnds | apply proj_flag]
            | apply kept_frame; reflexivity ]
    | apply frame_keeps_kept, reader_frame;
      first [ apply Stmt_Cfg_reader | apply env_of_reader | apply Stmt_checkClosed_reader ] ].

Section KeptBind.
Variable W : World.
Variable a : addr.
Variable b : bool.

Lemma bind_value_kept (idx : bndIdx) (m : meth) (arg : param) (usesCfg ptrBind : bool)
      (n : nat) (l : locals) :
  keeps (kept proj) (Stmt.bind_value W a idx m arg usesCfg ptrBind n l).
Proof.
  unfold Stmt.bind_value, Stmt.evalCfg, Stmt.store_local, Stmt.update, call_go. kept_tac.
Qed.

Lemma bind_null_kept (assign : bool) (t : SQLT) (n : nat) (l : locals) :
  keeps (kept proj) (Stmt.bind_null W a assign t n l).
Proof. unfold Stmt.bind_null, Stmt.setNilBind, Stmt.update, call_go. kept_tac. Qed.

Lemma bind_nullable_kept (IsNull : bool) (t : SQLT) (idx : bndIdx) (arg : param)
      (usesCfg : bool) (n : nat) (l : locals) :
  keeps (kept proj) (Stmt.bind_nullable W a IsNull t idx arg usesCfg n l).
Proof.
  unfold Stmt.bind_nullable. destruct IsNull; [apply bind_null_kept|apply bind_value_kept].
Qed.

Lemma bind_batch_kept (idx : bndIdx) (m : meth) (arg : param)
      (usesCfg shadowsErr ptrBind : bool) (n : nat) (l : locals) :
  keeps (kept proj) (Stmt.bind_batch W a b idx m arg usesCfg shadowsErr ptrBind n l).
Proof.
  unfold Stmt.bind_batch, Stmt.evalCfg, Stmt.store_local, Stmt.update, call_go. kept_tac.
Qed.

Lemma bind_batchLen_kept (idx : bndIdx) (m : meth) (arg : param) (k : nat)
      (n : nat) (l : locals) :
  keeps (kept proj) (Stmt.bind_batchLen W a idx m arg k n l).
Proof.
  unfold Stmt.bind_batchLen, Stmt.evalCfg, Stmt.store_local, Stmt.update, call_go. kept_tac.
Qed.

Lemma bindParam_kept (n : nat) (p : param) (l : locals) :
  keeps (kept proj) (Stmt.bindParam W a b n p l).
Proof.
  destruct p; unfold Stmt.bindParam;
    repeat first [ apply bind_value_kept | apply bind_nullable_kept | apply bind_batch_kept
                 | apply bind_batchLen_kept | apply bind_null_kept
                 | progress (unfold Stmt.store_local, Stmt.update)
                 | progress kept_tac ].
Qed.

Lemma bind_loop_kept (ps : list param) (n : nat) (l : locals) :
  keeps (kept proj) (Stmt.bind_loop W a b n ps l).
Proof.
  revert n l. induction ps as [|p ps IH]; intros n l; simpl; [kept_tac|].
  apply (keeps_seq _ kept_trans); [apply bindParam_kept|].
  intros [l1|it e]; [apply IH|kept_tac].
Qed.

End KeptBind.

Lemma bind_kept (W : World) (stmt : option addr) (ps : list param) (b : bool) :
  keeps (kept proj) (Stmt.bind W stmt ps b).
Proof.
  unfold Stmt.bind. destruct ps as [|p ps]; [kept_tac|].
  apply (keeps_seq _ kept_trans); [kept_tac|]. intros o.
  destruct stmt as [a|]; [|kept_tac].
  apply (keeps_seq _ kept_trans); [apply bind_loop_kept|].
  intros [l|it e]; unfold Stmt.update; kept_tac.
Qed.

End Kept.

Lemma setPtr_frame (W : World) (d : bnd) : keeps frame (Stmt.setPtr W d).
Proof. unfold Stmt.setPtr. repeat first [apply call_go_frame | progress frame_tac]. Qed.

Lemma setBindPtrs_frame (W : World) (stmt : option addr) : keeps frame (Stmt.setBindPtrs W stmt).
Proof.
  unfold Stmt.setBindPtrs. apply (keeps_seq _ frame_trans); [apply keeps_deref, frame_refl|].
  intros o. induction (elems (bnds o)) as [|[d|] l IH]; simpl; [frame_tac| |frame_tac].
  apply (keeps_seq _ frame_trans); [apply setPtr_frame|].
  intros [e|]; [frame_tac|apply IH].
Qed.

(** ** Functions that change the store only before a successful return *)

Section Ends.
Variable R : State -> State -> Prop.
Hypothesis R_trans : forall s1 s2 s3, R s1 s2 -> R s2 s3 -> R s1 s3.
Variable s0 : State.
Context {A : Type}.
Variable Q : A -> State -> Prop.

Lemma ends_ret (x : A) (s : State) : (R s0 s -> Q x s) -> ends R s0 Q (ret x) s.
Proof. intros H HR. by apply H. Qed.

Lemma ends_panic (v : string) (s : State) : ends R s0 Q (panic v) s.
Proof. by intros HR. Qed.

Lemma ends_seq {B : Type} (m : Go B) (k : B -> Go A) (s : State) :
  keeps R m -> (forall x s1, ends R s0 Q (k x) s1) -> ends R s0 Q (seq m k) s.
Proof.
  intros Hm Hk HR. unfold seq. specialize (Hm s).
  destruct (m s) as [[x|v] s1]; simpl in Hm.
  - apply Hk. by eapply R_trans.
  - by eapply R_trans.
Qed.

Lemma ends_deref {B : Type} (field : State -> gmap addr B) (p : option addr)
      (k : B -> Go A) (s : State) :
  (forall a x, p = Some a -> field s !! a = Some x -> ends R s0 Q (k x) s) ->
  ends R s0 Q (seq (deref field p) k) s.
Proof.
  intros Hk HR. unfold seq, deref. destruct p as [a|]; [|done].
  destruct (field s !! a) as [x|] eqn:Hx; [|done]. by apply (Hk a x).
Qed.

Lemma ends_orReturn (m : Go (option error)) (fail : error -> A) (k : Go A) (s : State) :
  keeps R m -> (forall e s1, R s0 s1 -> Q (fail e) s1) ->
  (forall s1, ends R s0 Q k s1) -> ends R s0 Q (orReturn m fail k) s.
Proof.
  intros Hm Hf Hk. unfold orReturn. apply ends_seq; [done|].
  intros [e|] s1; [|apply Hk]. apply ends_ret. apply Hf.
Qed.

Lemma ends_catch (m : Go A) (h : string -> Go A) (s : State) :
  ends R s0 Q m s -> (forall v s1, ends R s0 Q (h v) s1) -> ends R s0 Q (catch m h) s.
Proof.
  intros Hm Hh HR. unfold catch. specialize (Hm HR).
  destruct (m s) as [[x|v] s1]; [done|]. by apply Hh.
Qed.

End Ends.

(** ** The result set of qry *)

Lemma ends_intro {A : Type} (R : State -> State -> Prop) (s0 : State)
      (Q : A -> State -> Prop) (m : Go A) (s : State) :
  (R s0 s -> ends R s0 Q m s) -> ends R s0 Q m s.
Proof. intros H HR. exact (H HR HR). Qed.

Section QryRset.
Variable W : World.
Variable a : addr.
Variable s0 : State.

Let R := kept openRsets.
Let Q := qryOutcome a (rsetFromPool W) s0.

Lemma R_trans_rsets (s1 s2 s3 : State) : R s1 s2 -> R s2 s3 -> R s1 s3.
Proof. apply kept_trans. Qed.

Lemma Q_error (r : option addr) (e : error) (s : State) : R s0 s -> Q (r, Some e) s.
Proof. done. Qed.

Lemma qry_register (o0 : Stmt) (s : State) :
  stmts s0 !! a = Some o0 ->
  ends R s0 Q
    (seq (Stmt.update a (fun o => mkStmt (stmt_id o) (stmt_cfg o) (ses o) (ocistmt o)
                          (stmtType o) (sql o) (gcts o) (bnds o) (hasPtrBind o)
                          (stringPtrBufferSize o) (openRsets o ++ [rsetFromPool W])))
         (fun _ => ret (Some (rsetFromPool W), None))) s.
Proof.
  intros H0 HR. unfold Stmt.update. rewrite seq_modify. unfold ret.
  pose proof (HR a) as Ha. rewrite H0 in Ha.
  destruct (stmts s !! a) as [o|] eqn:Ho; [|discriminate]. simpl in Ha. injection Ha as Ha.
  split; [done|]. exists o0, (mkStmt (stmt_id o) (stmt_cfg o) (ses o) (ocistmt o)
                          (stmtType o) (sql o) (gcts o) (bnds o) (hasPtrBind o)
                          (stringPtrBufferSize o) (openRsets o ++ [rsetFromPool W])).
  split; [done|]. simpl. rewrite Ho. split; [apply lookup_insert_eq|].
  split; [by rewrite Ha|]. intros a' Hne. rewrite lookup_insert_ne by done. apply HR.
Qed.

Lemma qry_tail_ends (s : State) : ends R s0 Q (Stmt.qry_tail W a) s.
Proof.
  unfold Stmt.qry_tail. apply ends_catch.
  - apply ends_intro. intros HR. apply ends_deref. intros a' o [= <-] Ho.
    assert (H0 : is_Some (stmts s0 !! a)).
    { eapply (kept_is_Some openRsets); [apply kept_sym, HR|by eexists]. }
    destruct H0 as [o0 H0].
    apply (ends_seq _ R_trans_rsets);
      [apply (frame_keeps_kept openRsets), call_go_frame|].
    intros [e|] s1.
    + apply (ends_seq _ R_trans_rsets);
        [apply (frame_keeps_kept openRsets), call_go_frame|].
      intros _ s2. apply ends_ret. apply Q_error.
    + by apply (qry_register o0).
  - intros v s1. apply ends_ret. apply Q_error.
Qed.

Lemma qry_ends (ps : list param) (s : State) : ends R s0 Q (Stmt.qry W (Some a) ps) s.
Proof.
  pose proof (fun A (m : Go A) (H : keeps frame m) => frame_keeps_kept openRsets m H) as KF.
  unfold Stmt.qry. apply ends_catch; [|intros v s1; apply ends_ret, Q_error].
  unfold Stmt.qry_body.
  apply (ends_orReturn _ R_trans_rsets);
    [apply KF, reader_frame, Stmt_checkClosed_reader|intros; by apply Q_error|]. intros s1.
  apply (ends_seq _ R_trans_rsets); [by apply bind_kept|]. intros [it e] s2.
  apply (ends_orReturn _ R_trans_rsets);
    [apply keeps_ret, kept_refl|intros; by apply Q_error|]. intros s3.
  apply (ends_orReturn _ R_trans_rsets);
    [apply KF, setPrefetchSize_frame|intros; by apply Q_error|]. intros s4.
  apply (ends_seq _ R_trans_rsets); [apply keeps_deref, kept_refl|]. intros o s5.
  apply (ends_seq _ R_trans_rsets); [apply keeps_deref, kept_refl|]. intros se s6.
  apply (ends_seq _ R_trans_rsets); [apply keeps_deref, kept_refl|]. intros sv s7.
  apply (ends_seq _ R_trans_rsets); [apply keeps_deref, kept_refl|]. intros e0 s8.
  apply (ends_seq _ R_trans_rsets); [apply KF, call_oci_frame|]. intros r s9.
  apply (ends_seq _ R_trans_rsets); [apply keeps_deref, kept_refl|]. intros o' s10.
  destruct (sword_eqb r OCI_ERROR).
  - apply (ends_seq _ R_trans_rsets); [apply keeps_deref, kept_refl|]. intros e1 s11.
    apply ends_ret. apply Q_error.
  - apply (ends_orReturn _ R_trans_rsets); [|intros; by apply Q_error|apply qry_tail_ends].
    destruct (hasPtrBind o'); [apply KF, setBindPtrs_frame|apply keeps_ret, kept_refl].
Qed.

End QryRset.

(** X13.  A query that returns without error returns the result set it opened
    and has added it to the open result sets of the statement, and of no
    other; a query that returns an error has left the open result sets of
    every statement as they were. *)
Theorem qry_registers_result_set (W : World) (a : addr) (ps : list param) (s s' : State)
    (res : option addr * option error) :
  Stmt.qry W (Some a) ps s = (Return res, s') ->
  qryOutcome a (rsetFromPool W) s res s'.
Proof.
  intros H. pose proof (qry_ends W a s ps s (kept_refl openRsets s)) as He.
  by rewrite H in He.
Qed.

Lemma qry_registers_result_set_witness :
  qryOutcome 1%nat 9%nat Example.s0 (Some 9%nat, None)
             (Stmt.qry Example.W (Some 1%nat) [p_int64 5] Example.s0).2.
Proof.
  apply (qry_registers_result_set Example.W 1%nat [p_int64 5] Example.s0).
  vm_compute. reflexivity.
Defined.

(** ** Srv.OpenSes *)

Lemma still_refl (s : State) : still s s.
Proof. by repeat split. Qed.

Lemma still_trans (s1 s2 s3 : State) : still s1 s2 -> still s2 s3 -> still s1 s3.
Proof.
  intros (A1 & A2 & A3 & A4) (B1 & B2 & B3 & B4). repeat split; congruence.
Qed.

Ltac still_tac :=
  repeat first
    [ keeps_step still_refl still_trans
    | apply keeps_modify; intros ?; by repeat split ].

Lemma call_go_still (W : World) (c : call) : keeps still (call_go W c).
Proof. unfold call_go. still_tac. Qed.

Lemma call_oci_still (W : World) (c : call) : keeps still (call_oci W c).
Proof. unfold call_oci. still_tac. Qed.

Lemma reader_still {A : Type} (m : Go A) : keeps eq m -> keeps still m.
Proof. apply reader_keeps, still_refl. Qed.

Lemma Srv_checkClosed_reader (srv : option addr) : keeps eq (Srv.checkClosed srv).
Proof. unfold Srv.checkClosed. reader_tac. apply Env_checkClosed_reader. Qed.

Ltac openSes_leaf :=
  unfold openSesCall;
  repeat match goal with H : _ = _ |- _ => rewrite H end;
  try match goal with |- context [Mode ?c] => destruct (Mode c) end; reflexivity.

(** X14.  Whatever its outcome, [OpenSes] calls nothing but handle allocations,
    attribute settings and the begin of the session; it sets the user name
    and the password only when the configuration has one of them, begins
    the session with database credentials in that case and with external
    credentials otherwise, and in the mode of the configuration. *)
Theorem OpenSes_calls (W : World) (srv : option addr) (cfg : SesCfg) (s : State) :
  logged (openSesCall cfg) s (Srv.OpenSes W srv cfg s).2.
Proof.
  revert s. change (keeps (logged (openSesCall cfg)) (Srv.OpenSes W srv cfg)).
  unfold Srv.OpenSes, Srv.OpenSes_body, Srv.update. cbv zeta.
  destruct (SesCfg_IsZero cfg); [apply keeps_ret, logged_refl|].
  apply (keeps_catch _ (logged_trans _)); [|intros v; apply keeps_ret, logged_refl].
  destruct srv as [a|]; [|apply keeps_ret, logged_refl].
  destruct (negb (Username cfg =? "")%string || negb (Password cfg =? "")%string) eqn:Hw;
  repeat first
    [ apply reader_logged, Srv_checkClosed_reader
    | keeps_step (logged_refl (openSesCall cfg)) (logged_trans (openSesCall cfg))
    | apply keeps_modify; intros ?; apply logged_same; reflexivity
    | apply call_go_logged; openSes_leaf
    | apply call_oci_logged; openSes_leaf ].
Qed.

Section OpenSesOutcome.
Variable W : World.
Variable a : addr.
Variable cfg : SesCfg.
Variable s0 : State.

Let Q := openSesOutcome W a cfg s0.

Lemma openSes_error (e : error) (s : State) : still s0 s -> Q (None, Some e) s.
Proof. by split. Qed.

Lemma openSes_register (o : Srv) (svc ocis : handle) (s : State) :
  srvs s0 !! a = Some o ->
  svc = newHandle W OCI_HTYPE_SVCCTX -> ocis = newHandle W OCI_HTYPE_SESSION ->
  ends still s0 Q
    (seq (modify (set_sess (fun m =>
            let old := match m !! sesFromPool W with Some x => x | None => Srv.zeroSes end in
            <[sesFromPool W := mkSes (if ses_id old =? 0 then nextSesId W else ses_id old)
                                     (Some cfg) (Some a) (Some svc) (Some ocis)
                                     (openStmts old) (openTxs old)]> m)))
         (fun _ => seq (Srv.update a (fun o => mkSrv (srv_id o) (srv_cfg o) (srv_env o)
                                                   (ocisrv o) (isUTF8 o)
                                                   (openSess o ++ [sesFromPool W])))
                       (fun _ => ret (Some (sesFromPool W), None)))) s.
Proof.
  intros H0 -> -> (E1 & E2 & E3 & E4). rewrite seq_modify. unfold Srv.update.
  rewrite seq_modify. unfold ret, Q, openSesOutcome. simpl.
  rewrite E2, H0, E3. split; [done|]. split; [by eexists|]. split.
  - eexists. split; [apply lookup_insert_eq|]. by repeat split.
  - split; [|done]. intros x Hx. by rewrite lookup_insert_ne.
Qed.

Ltac still_leaf :=
  repeat first [ apply call_go_still | apply call_oci_still
               | apply reader_still, Srv_checkClosed_reader | progress still_tac ].

Lemma OpenSes_ends (s : State) : ends still s0 Q (Srv.OpenSes W (Some a) cfg) s.
Proof.
  unfold Srv.OpenSes. destruct (SesCfg_IsZero cfg); [apply ends_ret, openSes_error|].
  apply ends_catch; [|intros v s1; apply ends_ret, openSes_error].
  unfold Srv.OpenSes_body. cbv zeta.
  apply (ends_orReturn _ still_trans); [still_leaf|intros; by apply openSes_error|].
  intros s1. apply ends_intro. intros HR. apply ends_deref. intros a' o [= <-] Ho.
  assert (H0 : srvs s0 !! a = Some o).
  { destruct HR as (_ & E2 & _). by rewrite <- E2. }
  repeat first
    [ apply (openSes_register o); [exact H0|reflexivity|reflexivity]
    | apply (ends_orReturn _ still_trans);
      [still_leaf|intros; by apply openSes_error|intros ?]
    | apply (ends_seq _ still_trans); [still_leaf|intros ? ?]
    | match goal with |- ends _ _ _ (if ?c then _ else _) _ => destruct c end
    | apply ends_ret, openSes_error ].
Qed.

End OpenSesOutcome.

(** X15.  [OpenSes] that returns without error returns the session taken from
    the pool: the session holds the server, the configuration and the two
    handles allocated for it, and is added as the last of the open
    sessions of the server; nothing else in the store changes.  [OpenSes]
    that returns an error returns no session and leaves environments,
    servers, sessions and statements as they were. *)
Theorem OpenSes_registers_session (W : World) (a : addr) (cfg : SesCfg) (s s' : State)
    (res : option addr * option error) :
  Srv.OpenSes W (Some a) cfg s = (Return res, s') ->
  openSesOutcome W a cfg s res s'.
Proof.
  intros H. pose proof (OpenSes_ends W a cfg s s (still_refl s)) as He.
  by rewrite H in He.
Qed.

Lemma OpenSes_registers_session_witness :
  let cfg := mkSesCfg "scott" "tiger" DSNMode StmtCfg_zero in
  openSesOutcome Example.W 1%nat cfg Example.s0 (Some 5%nat, None)
                 (Srv.OpenSes Example.W (Some 1%nat) cfg Example.s0).2.
Proof.
  intros cfg.
  apply (OpenSes_registers_session Example.W 1%nat cfg Example.s0).
  vm_compute. reflexivity.
Defined.

(** ** The execute of exe *)

(** X6.  When [exe] executes, the bind pass over the parameters (with the last
    one replaced where the identity capture applies) has succeeded, and
    the one execute is made on the handle of the statement with the
    iteration count that the pass returned; in every other case [exe]
    makes no execute call. *)
Theorem exe_executes_with_bind_count (W : World) (a : addr) (o : Stmt) (ps : list param)
    (b : bool) (s : State) :
  stmts s !! a = Some o ->
  let s0 := set_lastInsertId 0 s in
  let s' := (Stmt.exe W (Some a) ps b s).2 in
  execs (log s') = execs (log s)
  \/ exists ps' it s1 m,
       Stmt.exe_params W (Some a) ps s0 = (Return ps', s0)
       /\ Stmt.bind W (Some a) ps' b s0 = (Return (it, None), s1)
       /\ execs (log s') = execs (log s) ++ [OCIStmtExecute (ocistmt o) it m].
Proof.
  intros Ho s0 s'.
  assert (Hs' : s' = (Stmt.exe_body W (Some a) ps b s0).2).
  { unfold s', Stmt.exe. rewrite seq_modify. unfold catch. fold s0.
    by destruct (Stmt.exe_body W (Some a) ps b s0) as [[r|v] s1]. }
  rewrite Hs'. change (log s) with (log s0).
  assert (Ho0 : stmts s0 !! a = Some o) by exact Ho.
  clearbody s0. clear Hs' s' Ho s.
  remember ((Stmt.exe_body W (Some a) ps b s0).2) as sf eqn:Hsf.
  unfold Stmt.exe_body, orReturn in Hsf.
  (* checkClosed *)
  unfold seq at 1 in Hsf. pose proof (Stmt_checkClosed_reader (Some a) s0) as Hr.
  destruct (Stmt.checkClosed (Some a) s0) as [[[e|]|v] sx]; simpl in Hr; subst sx;
    [subst sf; by left| |subst sf; by left].
  (* the parameters *)
  unfold seq at 1 in Hsf. pose proof (exe_params_reader W (Some a) ps s0) as Hr.
  destruct (Stmt.exe_params W (Some a) ps s0) as [[ps'|v] sx] eqn:Hp; simpl in Hr; subst sx;
    [|subst sf; by left].
  (* the bind pass *)
  unfold seq at 1 in Hsf. pose proof (bind_quiet W (Some a) ps' b s0) as Hq.
  destruct (Stmt.bind W (Some a) ps' b s0) as [[[it e]|v] s1] eqn:Hb; simpl in Hq;
    pose proof Hq as (_ & _ & _ & Hv & Hx); [|subst sf; by left].
  rewrite seq_ret in Hsf. destruct e as [e|]; [subst sf; by left|].
  (* the prefetch size *)
  unfold seq at 1 in Hsf. pose proof (setPrefetchSize_quiet W (Some a) s1) as Hq2.
  destruct (Stmt.setPrefetchSize W (Some a) s1) as [[e|v] s2]; simpl in Hq2;
    pose proof (quiet_trans _ _ _ Hq Hq2) as Hq02; pose proof Hq02 as (_ & _ & _ & Hv2 & Hx2);
    [|subst sf; by left].
  destruct e as [e|]; [subst sf; by left|].
  (* the mode and the execute *)
  unfold seq at 1 in Hsf. pose proof (exe_mode_reader (Some a) s2) as Hr.
  destruct (Stmt.exe_mode (Some a) s2) as [[m|v] sx]; simpl in Hr; subst sx;
    [|subst sf; by left].
  unfold seq at 1 in Hsf. pose proof (deref_state stmts (Some a) s2) as Hd.
  destruct (deref stmts (Some a) s2) as [[o2|v] sx] eqn:Ho2; simpl in Hd; subst sx;
    [|subst sf; by left].
  apply deref_inv in Ho2 as (_ & a' & [= <-] & Ho2).
  assert (Hh : ocistmt o2 = ocistmt o).
  { specialize (Hv2 a). rewrite Ho2, Ho0 in Hv2. unfold view in Hv2. simpl in Hv2. congruence. }
  unfold seq at 1 in Hsf. pose proof (deref_state sess (ses o2) s2) as Hd.
  destruct (deref sess (ses o2) s2) as [[se|v] sx]; simpl in Hd; subst sx;
    [|subst sf; by left].
  unfold seq at 1 in Hsf. pose proof (env_of_reader (Some a) s2) as Hd.
  destruct (Stmt.env_of (Some a) s2) as [[env|v] sx]; simpl in Hd; subst sx;
    [|subst sf; by left].
  unfold seq at 1 in Hsf. pose proof (deref_state envs env s2) as Hd.
  destruct (deref envs env s2) as [[e0|v] sx]; simpl in Hd; subst sx;
    [|subst sf; by left].
  unfold call_oci in Hsf. rewrite seq_assoc, seq_modify, seq_ret in Hsf.
  set (s3 := set_log (fun l => l ++ [OCIStmtExecute (ocistmt o2) it m]) s2) in Hsf.
  right. exists ps', it, s1, m. split; [done|]. split; [done|].
  assert (Hrest : forall A (k : Go A), keeps quiet k -> execs (log (k s3).2) = execs (log s3)).
  { intros A k Hk. by destruct (Hk s3) as (_ & _ & _ & _ & ?). }
  rewrite Hsf, (Hrest _ (seq _ _)).
  - unfold s3, execs. simpl. rewrite filter_app, filter_cons_True by done.
    fold (execs (log s2)). by rewrite Hx2, Hh.
  - repeat first [ apply exe_tail_quiet | apply attr_quiet
                 | apply quiet_reader; apply env_of_reader
                 | progress quiet_tac ].
Qed.

Lemma exe_executes_with_bind_count_witness :
  let ps := [p_int64_s [1; 2; 3]; p_string_s ["a"; "b"; "c"]] in
  execs (log (Stmt.exe Example.W (Some 1%nat) ps false Example.s0).2)
  = execs (log Example.s0) ++ [OCIStmtExecute (Some 15%nat) 3 OCI_COMMIT_ON_SUCCESS].
Proof.
  intros ps.
  destruct (exe_executes_with_bind_count Example.W 1%nat
              (Example.stmt1 OCI_STMT_SELECT "SELECT 1 FROM dual") ps false Example.s0 eq_refl)
    as [H|(ps' & it & s1 & m & _ & _ & H)].
  - vm_compute in H. discriminate.
  - vm_compute. reflexivity.
Defined.

(** ** Statement kinds without a row count *)

Lemma plain_refl (s : State) : plain s s.
Proof. split; [by apply kept_refl|apply logged_refl]. Qed.

Lemma plain_trans (s1 s2 s3 : State) : plain s1 s2 -> plain s2 s3 -> plain s1 s3.
Proof.
  intros [K1 L1] [K2 L2]. split; [by eapply kept_trans|by eapply logged_trans].
Qed.

Lemma keeps_plain {A : Type} (m : Go A) :
  keeps quiet m \/ keeps frame m -> keeps (logged noAttrGet) m -> keeps plain m.
Proof.
  intros Hk Hl s. split; [|apply Hl].
  destruct Hk as [Hq|Hf]; [by destruct (Hq s) as (_ & _ & _ & ? & _)|].
  by apply kept_frame.
Qed.

Section NoRowCount.
Variable W : World.

Lemma bind_plain (stmt : option addr) (ps : list param) (b : bool) :
  keeps plain (Stmt.bind W stmt ps b).
Proof.
  apply keeps_plain; [left; apply bind_quiet|].
  eapply keeps_weaken; [|apply bind_logged].
  intros s s'. apply logged_weaken. intros c. by destruct c.
Qed.

Lemma setPrefetchSize_plain (stmt : option addr) : keeps plain (Stmt.setPrefetchSize W stmt).
Proof.
  apply keeps_plain; [left; apply setPrefetchSize_quiet|].
  unfold Stmt.setPrefetchSize, Stmt.setAttr. logged_tac noAttrGet.
Qed.

Lemma setBindPtrs_plain (stmt : option addr) : keeps plain (Stmt.setBindPtrs W stmt).
Proof.
  apply keeps_plain; [left; apply setBindPtrs_quiet|].
  unfold Stmt.setBindPtrs. apply (keeps_seq _ (logged_trans _)); [apply keeps_deref, logged_refl|].
  intros o. induction (elems (bnds o)) as [|[d|] l IH]; simpl.
  - apply keeps_ret, logged_refl.
  - apply (keeps_seq _ (logged_trans _)).
    + unfold Stmt.setPtr. logged_tac noAttrGet.
    + intros [e|]; [apply keeps_ret, logged_refl|apply IH].
  - apply keeps_panic, logged_refl.
Qed.

Lemma reader_plain {A : Type} (m : Go A) : keeps eq m -> keeps plain m.
Proof. apply reader_keeps, plain_refl. Qed.

Lemma call_oci_plain (c : call) : noAttrGet c = true -> keeps plain (call_oci W c).
Proof.
  intros H. apply keeps_plain; [right; apply call_oci_frame|by apply call_oci_logged].
Qed.

Variable a : addr.
Variable o : Stmt.
Variable s0 : State.
Hypothesis Ho : stmts s0 !! a = Some o.
Hypothesis Hkind : Stmt.isRowCountKind (stmtType o) = false.

(** no row was counted, and no attribute was read *)
Let Q (r : Z * Z * option error) (s' : State) : Prop := r.1.1 = 0 /\ plain s0 s'.

Ltac plain_leaf :=
  first [ apply reader_plain;
          first [ apply Stmt_checkClosed_reader | apply exe_params_reader
                | apply exe_mode_reader | apply env_of_reader ]
        | apply bind_plain | apply setPrefetchSize_plain | apply setBindPtrs_plain
        | apply call_oci_plain; reflexivity
        | apply keeps_deref, plain_refl | apply keeps_ret, plain_refl
        | apply keeps_get, plain_refl
        | apply keeps_modify; intros ?; apply plain_refl ].

Lemma exe_tail_ends (stmt : option addr) (f : bool) (s : State) :
  ends plain s0 Q (Stmt.exe_tail W stmt 0 f) s.
Proof.
  unfold Stmt.exe_tail. apply ends_catch.
  - apply (ends_seq _ plain_trans); [destruct f; plain_leaf|]. intros e s1.
    apply (ends_seq _ plain_trans); [plain_leaf|]. intros sx s2.
    destruct e; apply ends_ret; intros; by split.
  - intros v s1. apply (ends_seq _ plain_trans); [plain_leaf|]. intros sx s2.
    apply ends_ret; intros; by split.
Qed.

Lemma exe_ends (ps : list param) (b : bool) : ends plain s0 Q (Stmt.exe W (Some a) ps b) s0.
Proof.
  unfold Stmt.exe.
  apply (ends_seq _ plain_trans);
    [apply keeps_modify; intros s; split; [by intros ?|by apply logged_same]|].
  intros [] s1. apply ends_catch;
    [|intros v s2; apply (ends_seq _ plain_trans); [plain_leaf|];
      intros sx s3; apply ends_ret; intros; by split].
  unfold Stmt.exe_body.
  apply (ends_orReturn _ plain_trans); [plain_leaf|intros; by split|]. intros s2.
  apply (ends_seq _ plain_trans); [plain_leaf|]. intros ps' s3.
  apply (ends_seq _ plain_trans); [plain_leaf|]. intros [it e] s4.
  apply (ends_orReturn _ plain_trans); [plain_leaf|intros; by split|]. intros s5.
  apply (ends_orReturn _ plain_trans); [plain_leaf|intros; by split|]. intros s6.
  apply (ends_seq _ plain_trans); [plain_leaf|]. intros m s7.
  apply (ends_seq _ plain_trans); [plain_leaf|]. intros o1 s8.
  apply (ends_seq _ plain_trans); [plain_leaf|]. intros se s9.
  apply (ends_seq _ plain_trans); [plain_leaf|]. intros env s10.
  apply (ends_seq _ plain_trans); [plain_leaf|]. intros e0 s11.
  apply (ends_seq _ plain_trans); [plain_leaf|]. intros r s12.
  apply ends_intro. intros [HK _]. apply ends_deref. intros a' o2 [= <-] Ho2.
  assert (Hk2 : Stmt.isRowCountKind (stmtType o2) = false).
  { specialize (HK a). rewrite Ho2, Ho in HK. unfold view in HK. simpl in HK.
    replace (stmtType o2) with (stmtType o) by congruence. exact Hkind. }
  cbv zeta. rewrite Hk2.
  destruct (sword_eqb r OCI_ERROR).
  { apply (ends_seq _ plain_trans); [plain_leaf|]. intros ? ?.
    apply (ends_seq _ plain_trans); [plain_leaf|]. intros ? ?.
    apply ends_ret; intros; by split. }
  destruct (sword_eqb r OCI_NO_DATA).
  { apply (ends_seq _ plain_trans); [plain_leaf|]. intros ? ?.
    apply (ends_seq _ plain_trans); [plain_leaf|]. intros ? ?.
    apply ends_ret; intros; by split. }
  apply exe_tail_ends.
Qed.

End NoRowCount.

(** X7.  For a statement whose kind is none of Select, Update, Delete and
    Insert (a CREATE, DROP or ALTER, a PL/SQL block) [exe] returns zero
    affected rows whatever happens, and never reads an attribute of the
    statement. *)
Theorem exe_counts_no_rows (W : World) (a : addr) (o : Stmt) (ps : list param) (b : bool)
    (s s' : State) (ra li : Z) (e : option error) :
  stmts s !! a = Some o ->
  Stmt.isRowCountKind (stmtType o) = false ->
  Stmt.exe W (Some a) ps b s = (Return (ra, li, e), s') ->
  ra = 0 /\ logged noAttrGet s s'.
Proof.
  intros Ho Hk H. pose proof (exe_ends W a o s Ho Hk ps b (plain_refl s)) as He.
  rewrite H in He. destruct He as [Hra [_ Hl]]. by split.
Qed.

Lemma exe_counts_no_rows_witness :
  let s := Example.store false OCI_STMT_BEGIN "BEGIN NULL; END;" Bin in
  (Stmt.exe Example.W (Some 1%nat) [] false s).1 = Return (0, 0, None)
  /\ logged noAttrGet s (Stmt.exe Example.W (Some 1%nat) [] false s).2.
Proof.
  intros s. split; [vm_compute; reflexivity|].
  apply (exe_counts_no_rows Example.W 1%nat (Example.stmt1 OCI_STMT_BEGIN "BEGIN NULL; END;")
           [] false s _ 0 0 None).
  - reflexivity.
  - reflexivity.
  - vm_compute. reflexivity.
Defined.

(** ** The test for the clause of the identity capture *)

Section Clause.
Import Strings.

Lemma upper_idem (c : ascii) : upper (upper c) = upper c.
Proof. destruct c as [[] [] [] [] [] [] [] []]; reflexivity. Qed.

Lemma upper_tab (c : ascii) : Ascii.eqb (upper c) tab = Ascii.eqb c tab.
Proof. destruct c as [[] [] [] [] [] [] [] []]; reflexivity. Qed.

Lemma upper_space (c : ascii) : is_space (upper c) = is_space c.
Proof. destruct c as [[] [] [] [] [] [] [] []]; reflexivity. Qed.

Lemma upper_paren (c : ascii) (s s' : string) :
  String.prefix ")" (String (upper c) s) = String.prefix ")" (String c s').
Proof.
  destruct c as [[] [] [] [] [] [] [] []]; try reflexivity. by destruct s, s'.
Qed.

Lemma upperBytes_idem (s : string) : upperBytes (upperBytes s) = upperBytes s.
Proof. induction s as [|c s IH]; [done|]. simpl. by rewrite upper_idem, IH. Qed.

Lemma from_upperBytes (n : nat) (s : string) : from n (upperBytes s) = upperBytes (from n s).
Proof.
  revert s. induction n as [|n IH]; intros s; [done|]. destruct s as [|c s]; [done|].
  simpl. apply IH.
Qed.

Lemma lastIndexFrom_upperBytes (i : Z) (s : string) (acc : Z) :
  lastIndexFrom i (upperBytes s) ")" acc = lastIndexFrom i s ")" acc.
Proof.
  revert i acc. induction s as [|c s IH]; intros i acc; [done|].
  cbn [upperBytes lastIndexFrom]. rewrite (upper_paren c (upperBytes s) s). apply IH.
Qed.

Lemma spcRpl_eq (c : ascii) (s1 : string) :
  spcRpl (String c s1)
  = if Ascii.eqb c tab then String space (spcRpl s1)
    else if is_space c then
      match s1 with
      | String c2 s2 =>
          if is_space c2 then
            match s2 with
            | String c3 s3 =>
                if is_space c3 then String space (spcRpl s3)
                else String space (spcRpl s2)
            | EmptyString => String space EmptyString
            end
          else String c (spcRpl s1)
      | EmptyString => String c EmptyString
      end
    else String c (spcRpl s1).
Proof. reflexivity. Qed.

Lemma spcRpl_upperBytes_le (n : nat) (s : string) :
  (String.length s <= n)%nat -> spcRpl (upperBytes s) = upperBytes (spcRpl s).
Proof.
  revert s. induction n as [|n IH]; intros s Hn.
  - destruct s; [done|simpl in Hn; lia].
  - destruct s as [|c s1]; [done|]. simpl in Hn.
    change (upperBytes (String c s1)) with (String (upper c) (upperBytes s1)).
    rewrite (spcRpl_eq (upper c) (upperBytes s1)), (spcRpl_eq c s1), upper_tab, upper_space.
    destruct (Ascii.eqb c tab).
    { cbn [upperBytes]. by rewrite IH by lia. }
    destruct (is_space c).
    + destruct s1 as [|c2 s2]; [done|]. cbn [upperBytes]. rewrite upper_space.
      destruct (is_space c2).
      * destruct s2 as [|c3 s3]; [done|]. cbn [upperBytes]. rewrite upper_space.
        simpl in Hn. destruct (is_space c3); cbn [upperBytes].
        -- by rewrite IH by lia.
        -- change (String (upper c3) (upperBytes s3)) with (upperBytes (String c3 s3)).
           by rewrite IH by (simpl; lia).
      * change (String (upper c2) (upperBytes s2)) with (upperBytes (String c2 s2)).
        by rewrite IH by (simpl in *; lia).
    + cbn [upperBytes]. by rewrite IH by lia.
Qed.

Lemma spcRpl_upperBytes (s : string) : spcRpl (upperBytes s) = upperBytes (spcRpl s).
Proof. by apply (spcRpl_upperBytes_le (String.length s)). Qed.

Lemma upper_ascii (c : ascii) :
  (nat_of_ascii (upper c) <? 128)%nat = (nat_of_ascii c <? 128)%nat.
Proof. destruct c as [[] [] [] [] [] [] [] []]; reflexivity. Qed.

Lemma isASCII_upperBytes (s : string) : isASCII (upperBytes s) = isASCII s.
Proof. induction s as [|c s IH]; [done|]. simpl. by rewrite upper_ascii, IH. Qed.

Lemma isASCII_from (n : nat) (s : string) : isASCII s = true -> isASCII (from n s) = true.
Proof.
  revert s. induction n as [|n IH]; intros s H; [done|]. destruct s as [|c s]; [done|].
  simpl in *. apply andb_prop in H as [_ H]. by apply IH.
Qed.

Lemma isASCII_spcRpl_le (n : nat) (s : string) :
  (String.length s <= n)%nat -> isASCII s = true -> isASCII (spcRpl s) = true.
Proof.
  revert s. induction n as [|n IH]; intros s Hn H.
  - destruct s; [done|simpl in Hn; lia].
  - destruct s as [|c s1]; [done|]. simpl in Hn. rewrite spcRpl_eq.
    cbn [isASCII] in H. apply andb_prop in H as [Hc H1].
    assert (I1 : isASCII (spcRpl s1) = true) by (apply IH; [lia|done]).
    destruct (Ascii.eqb c tab); [by cbn [isASCII]; rewrite I1|].
    destruct (is_space c); [|by cbn [isASCII]; rewrite Hc, I1].
    destruct s1 as [|c2 s2]; [by cbn [isASCII]; rewrite Hc|].
    destruct (is_space c2); [|by cbn [isASCII]; rewrite Hc, I1].
    cbn [isASCII] in H1. apply andb_prop in H1 as [Hc2 H2]. simpl in Hn.
    destruct s2 as [|c3 s3]; [done|].
    cbn [isASCII] in H2. pose proof H2 as H2'. apply andb_prop in H2 as [Hc3 H3].
    simpl in Hn.
    destruct (is_space c3); cbn [isASCII]; apply andb_true_intro; (split; [reflexivity|]).
    + apply IH; [lia|done].
    + apply IH; [simpl; lia|exact H2'].
Qed.

Lemma isASCII_spcRpl (s : string) : isASCII s = true -> isASCII (spcRpl s) = true.
Proof. by apply (isASCII_spcRpl_le (String.length s)). Qed.

Lemma ToUpper_ascii (f : string -> string) (s : string) :
  isASCII s = true -> ToUpper f s = upperBytes s.
Proof. intros H. unfold ToUpper. by rewrite H. Qed.

End Clause.

(** X9.  On an ASCII text the test that [exe] makes for the clause of the
    identity capture does not depend on the case of the letters: the text
    and the text in upper case are recognised alike. *)
Theorem hasLastInsertIdClause_ignores_case (W : World) (text : string) :
  Strings.isASCII text = true ->
  Stmt.hasLastInsertIdClause W (Strings.ToUpper (unicodeToUpper W) text)
  = Stmt.hasLastInsertIdClause W text.
Proof.
  intros Ha. rewrite (ToUpper_ascii _ text Ha).
  unfold Stmt.hasLastInsertIdClause, Strings.LastIndex.
  rewrite !ToUpper_ascii
    by (apply isASCII_spcRpl, isASCII_from; by rewrite ?isASCII_upperBytes).
  rewrite lastIndexFrom_upperBytes, from_upperBytes, spcRpl_upperBytes, upperBytes_idem.
  reflexivity.
Qed.

Lemma hasLastInsertIdClause_ignores_case_witness :
  Stmt.hasLastInsertIdClause Example.W
    (Strings.ToUpper (unicodeToUpper Example.W) Example.insertText)
  = Stmt.hasLastInsertIdClause Example.W Example.insertText
  /\ Stmt.hasLastInsertIdClause Example.W Example.insertText = true.
Proof.
  split; [|vm_compute; reflexivity].
  apply (hasLastInsertIdClause_ignores_case Example.W Example.insertText).
  vm_compute. reflexivity.
Defined.

(** The test follows the case mapping of the text: with a mapping that
    knows dotless i, a RETURNING written with it is recognised, and one in
    a trailing comment hides the clause before it. *)
Lemma hasLastInsertIdClause_unicode_example :
  Stmt.hasLastInsertIdClause Sample.W_unicode Sample.text_written = true
  /\ Stmt.hasLastInsertIdClause Sample.W_unicode Sample.text_comment = false
  /\ Strings.isASCII Sample.text_written = false
  /\ Strings.isASCII Sample.text_comment = false.
Proof. repeat split; vm_compute; reflexivity. Qed.

(** ** Logging *)

(** X22.  [IsEnabled] is true exactly when the flag is set and the logger is an
    implementation other than nil and the empty logger; with the default
    configuration of [NewLogDrvCfg] it is false for every flag, so the
    log functions of the driver write nothing. *)
Theorem IsEnabled_needs_a_logger {Rest : Type} (c : Log.LogDrvCfg Rest) (enabled : bool)
    (newRest : Rest) :
  (Log.IsEnabled c enabled = true
   <-> enabled = true /\ exists name, Log.logger c = Log.otherLgr name)
  /\ Log.IsEnabled (Log.NewLogDrvCfg newRest) enabled = false.
Proof.
  split.
  - unfold Log.IsEnabled. destruct enabled, (Log.logger c); simpl; split;
      try discriminate; try (intros [? [? ?]]; discriminate); eauto.
  - unfold Log.IsEnabled. by destruct enabled.
Qed.

(** ** Nil receivers *)

(** X21.  On a nil receiver [Srv.Close] and [Stmt.Close] return nil, [NumSes]
    returns 0 and [IsUTF8] false, [OpenSes] and [exe] return an error that
    names the receiver, [qry] recovers the nil dereference and returns it as
    an error, and [NumRset], [Gcts] and [SetGcts] panic. *)
Theorem nil_receivers (W : World) (s : State) (cfg : SesCfg) (ps : list param) (b : bool)
    (g : list Z) :
  Srv.Close W None s = (Return None, s)
  /\ Stmt.Close W None s = (Return None, s)
  /\ Srv.NumSes None s = (Return 0%nat, s)
  /\ Srv.IsUTF8 None s = (Return false, s)
  /\ Srv.OpenSes W None cfg s
     = (Return (None, Some (er (if SesCfg_IsZero cfg then "Parameter 'cfg' may not be nil."
                                else "srv may not be nil."))), s)
  /\ Stmt.exe W None ps b s = (Return (0, 0, Some (er "stmt may not be nil.")), s)
  /\ Stmt.qry W None ps s = (Return (None, Some (errR nil_dereference)), s)
  /\ Stmt.NumRset None s = (Panicked nil_dereference, s)
  /\ Stmt.Gcts None s = (Panicked nil_dereference, s)
  /\ Stmt.SetGcts None g s = (Panicked nil_dereference, s).
Proof.
  repeat split; try reflexivity.
  unfold Srv.OpenSes. by destruct (SesCfg_IsZero cfg).
Qed.

(** ** Batch mode and associative arrays *)

Section SliceMode.
Variable W : World.
Variable b : bool.

Ltac flag_leaf := simpl; first [reflexivity | apply Bool.eqb_reflx].

Lemma bindParam_sliceMode (a : addr) (n : nat) (p : param) (l : locals) :
  keeps (logged (sliceMode b)) (Stmt.bindParam W a b n p l).
Proof.
  destruct p;
    unfold Stmt.bindParam, Stmt.bind_nullable, Stmt.bind_value, Stmt.bind_null,
      Stmt.setNilBind, Stmt.bind_batch, Stmt.bind_batchLen, Stmt.store_local,
      Stmt.evalCfg, Stmt.update;
    logged_with (sliceMode b) flag_leaf.
Qed.

Lemma bind_sliceMode (stmt : option addr) (ps : list param) :
  keeps (logged (sliceMode b)) (Stmt.bind W stmt ps b).
Proof.
  unfold Stmt.bind. destruct ps as [|p ps]; [apply keeps_ret, logged_refl|].
  apply (keeps_seq _ (logged_trans _)); [apply keeps_deref, logged_refl|]. intros o.
  destruct stmt as [a|]; [|apply keeps_panic, logged_refl].
  apply (keeps_seq _ (logged_trans _)).
  - generalize (mkLocals 1 None (if (cap (bnds o) <? length (p :: ps))%nat
                                 then Fresh (replicate (length (p :: ps)) None) else Shared)).
    generalize 0%nat. induction (p :: ps) as [|q qs IH]; intros n l; simpl.
    + apply keeps_ret, logged_refl.
    + apply (keeps_seq _ (logged_trans _)); [apply bindParam_sliceMode|].
      intros [l1|it e]; [apply IH|apply keeps_ret, logged_refl].
  - intros [l|it e]; unfold Stmt.update; logged_tac (sliceMode b).
Qed.

Lemma setBindPtrs_sliceMode (stmt : option addr) :
  keeps (logged (sliceMode b)) (Stmt.setBindPtrs W stmt).
Proof.
  unfold Stmt.setBindPtrs. apply (keeps_seq _ (logged_trans _)); [apply keeps_deref, logged_refl|].
  intros o. induction (elems (bnds o)) as [|[d|] l IH]; simpl.
  - apply keeps_ret, logged_refl.
  - apply (keeps_seq _ (logged_trans _)).
    + unfold Stmt.setPtr. logged_tac (sliceMode b).
    + intros [e|]; [apply keeps_ret, logged_refl|apply IH].
  - apply keeps_panic, logged_refl.
Qed.

Lemma exe_sliceMode (stmt : option addr) (ps : list param) :
  keeps (logged (sliceMode b)) (Stmt.exe W stmt ps b).
Proof.
  unfold Stmt.exe, Stmt.exe_body, Stmt.exe_tail, Stmt.setPrefetchSize, Stmt.setAttr,
    Stmt.attr, orReturn.
  destruct stmt as [a|]; [|apply keeps_ret, logged_refl].
  repeat first [ apply bind_sliceMode | apply setBindPtrs_sliceMode
               | progress (logged_tac (sliceMode b)) ].
Qed.

End SliceMode.

(** X23.  [Exe] calls every slice binder in batch mode and [ExeP] calls every
    slice binder in associative-array mode, whatever the parameters and
    the outcome. *)
Theorem Exe_batch_ExeP_array (W : World) (stmt : option addr) (ps : list param) (s : State) :
  logged (sliceMode false) s (Stmt.Exe W stmt ps s).2
  /\ logged (sliceMode true) s (Stmt.ExeP W stmt ps s).2.
Proof.
  split.
  - refine ((_ : keeps (logged (sliceMode false)) (Stmt.Exe W stmt ps)) s).
    unfold Stmt.Exe. apply (keeps_seq _ (logged_trans _)); [apply exe_sliceMode|].
    intros [[ra li] e]. apply keeps_ret, logged_refl.
  - refine ((_ : keeps (logged (sliceMode true)) (Stmt.ExeP W stmt ps)) s).
    unfold Stmt.ExeP. apply (keeps_seq _ (logged_trans _)); [apply exe_sliceMode|].
    intros [[ra li] e]. apply keeps_ret, logged_refl.
Qed.

(** ** The descriptors a bind pass installs *)

Lemma take_installAll (cs : list call) (n : nat) (arr : list (option bnd)) :
  (n + length cs <= length arr)%nat ->
  take (n + length cs) (installAll n cs arr) = take n arr ++ map descOfCall cs.
Proof.
  revert n arr. induction cs as [|c cs IH]; intros n arr Hn; simpl in *.
  - by rewrite Nat.add_0_r, app_nil_r.
  - replace (n + S (length cs))%nat with (S n + length cs)%nat by lia.
    rewrite IH by (rewrite length_insert; lia).
    rewrite take_insert_last by lia. by rewrite <- app_assoc.
Qed.

Section Installs.
Variable W : World.
Variable a : addr.
Variable b : bool.

Lemma effArr_frame (s s' : State) (lb : local_bnds) :
  stmts s' = stmts s -> effArr a s' lb = effArr a s lb.
Proof. intros H. unfold effArr. by rewrite H. Qed.

Lemma effArr_flag (s : State) (lb : local_bnds) (f : bool) :
  effArr a (Stmt.update a (Stmt.set_hasPtrBind f) s).2 lb = effArr a s lb.
Proof.
  destruct lb as [|arr0]; [|done]. unfold effArr, Stmt.update, modify. simpl.
  destruct (stmts s !! a) as [o|] eqn:Ho; [|by rewrite Ho].
  by rewrite lookup_insert_eq.
Qed.

Lemma store_local_eff (n : nat) (d : bnd) (lb lb' : local_bnds) (s s1 : State) :
  Stmt.store_local a n d lb s = (Return lb', s1) ->
  log s1 = log s
  /\ effArr a s1 lb' = (fun arr => <[n := Some d]> arr) <$> effArr a s lb.
Proof.
  unfold Stmt.store_local. destruct lb as [|arr0].
  - unfold Stmt.update. rewrite seq_modify. unfold ret. intros H. injection H as <- <-.
    split; [done|]. unfold effArr. simpl.
    destruct (stmts s !! a) as [o|] eqn:Ho; [|by rewrite Ho].
    by rewrite lookup_insert_eq.
  - unfold ret. intros H. by injection H as <- <-.
Qed.

Lemma call_go_stmts (c : call) (s s' : State) (r : result (option error)) :
  call_go W c s = (r, s') -> stmts s' = stmts s.
Proof. intros H. by apply (keeps_inv frame _ _ _ _ (call_go_frame W c)) in H. Qed.

Lemma bind_value_installs (idx : bndIdx) (m : meth) (arg : param) (usesCfg ptrBind : bool)
      (n : nat) (l l' : locals) (s s' : State) :
  Stmt.bind_value W a idx m arg usesCfg ptrBind n l s = (Return (Next l'), s') ->
  installs a n s l s' l'.
Proof.
  unfold Stmt.bind_value. intros H.
  apply seq_inv in H as (lb & s1 & H1 & H). apply seq_inv in H as ([] & s2 & H2 & H).
  apply seq_inv in H as (e & s3 & H3 & H).
  apply store_local_eff in H1 as [L1 E1].
  assert (s2 = s1) as ->.
  { unfold Stmt.evalCfg in H2. destruct usesCfg.
    - apply seq_inv in H2 as (c & sx & Hc & H2). unfold ret in H2. injection H2 as <-.
      apply (keeps_inv eq) in Hc; [done|apply Stmt_Cfg_reader].
    - unfold ret in H2. by injection H2 as <-. }
  pose proof (call_go_log _ _ _ _ _ H3) as L3. pose proof (call_go_stmts _ _ _ _ H3) as F3.
  destruct e as [e|]; [discriminate|].
  apply seq_inv in H as ([] & s4 & H4 & H). unfold ret in H. injection H as <- <-.
  exists (bnd_bind (Bound idx m (S n) arg)). simpl. destruct ptrBind.
  - assert (s4 = (Stmt.update a (Stmt.set_hasPtrBind true) s3).2) as -> by by rewrite H4.
    split; [simpl; by rewrite L3, L1|]. right.
    by rewrite effArr_flag, (effArr_frame _ _ _ F3), E1.
  - unfold ret in H4. injection H4 as <-. split; [by rewrite L3, L1|]. right.
    by rewrite (effArr_frame _ _ _ F3), E1.
Qed.

Lemma bind_null_installs (assign : bool) (sqlt : SQLT) (n : nat) (l l' : locals)
      (s s' : State) :
  Stmt.bind_null W a assign sqlt n l s = (Return (Next l'), s') -> installs a n s l s' l'.
Proof.
  unfold Stmt.bind_null, Stmt.setNilBind. intros H.
  apply seq_inv in H as (e & s1 & H1 & H). unfold ret in H. injection H as _ <-.
  apply seq_inv in H1 as (o & s2 & H2 & H1).
  apply (keeps_inv eq) in H2 as <-; [|apply deref_reader].
  destruct (n <? len (bnds o))%nat; [|discriminate].
  apply seq_inv in H1 as ([] & s3 & H3 & H1).
  apply (mute_inv _ _ _ _ (update_mute a _)) in H3. apply call_go_log in H1.
  eexists. split; [by rewrite H1, H3|]. by left.
Qed.

Lemma bind_nullable_installs (IsNull : bool) (sqlt : SQLT) (idx : bndIdx) (arg : param)
      (usesCfg : bool) (n : nat) (l l' : locals) (s s' : State) :
  Stmt.bind_nullable W a IsNull sqlt idx arg usesCfg n l s = (Return (Next l'), s') ->
  installs a n s l s' l'.
Proof.
  unfold Stmt.bind_nullable.
  destruct IsNull; [apply bind_null_installs|apply bind_value_installs].
Qed.

Lemma bind_batch_installs (idx : bndIdx) (m : meth) (arg : param)
      (usesCfg shadowsErr ptrBind : bool) (n : nat) (l l' : locals) (s s' : State) :
  Stmt.bind_batch W a b idx m arg usesCfg shadowsErr ptrBind n l s = (Return (Next l'), s') ->
  installs a n s l s' l'.
Proof.
  unfold Stmt.bind_batch. intros H.
  apply seq_inv in H as (lb & s1 & H1 & H). apply seq_inv in H as ([] & s2 & H2 & H).
  apply seq_inv in H as (e & s3 & H3 & H).
  apply store_local_eff in H1 as [L1 E1].
  assert (s2 = s1) as ->.
  { unfold Stmt.evalCfg in H2. destruct usesCfg.
    - apply seq_inv in H2 as (c & sx & Hc & H2). unfold ret in H2. injection H2 as <-.
      apply (keeps_inv eq) in Hc; [done|apply Stmt_Cfg_reader].
    - unfold ret in H2. by injection H2 as <-. }
  pose proof (call_go_log _ _ _ _ _ H3) as L3. pose proof (call_go_stmts _ _ _ _ H3) as F3.
  destruct e as [e|]; [discriminate|].
  apply seq_inv in H as ([] & s4 & H4 & H). unfold ret in H. injection H as <- <-.
  exists (bnd_bind_slice (Bound idx m (S n) arg) b). simpl. destruct ptrBind.
  - assert (s4 = (Stmt.update a (Stmt.set_hasPtrBind true) s3).2) as -> by by rewrite H4.
    split; [simpl; by rewrite L3, L1|]. right.
    by rewrite effArr_flag, (effArr_frame _ _ _ F3), E1.
  - unfold ret in H4. injection H4 as <-. split; [by rewrite L3, L1|]. right.
    by rewrite (effArr_frame _ _ _ F3), E1.
Qed.

Lemma bind_batchLen_installs (idx : bndIdx) (m : meth) (arg : param) (k : nat)
      (n : nat) (l l' : locals) (s s' : State) :
  Stmt.bind_batchLen W a idx m arg k n l s = (Return (Next l'), s') ->
  installs a n s l s' l'.
Proof.
  unfold Stmt.bind_batchLen. intros H.
  apply seq_inv in H as (lb & s1 & H1 & H). apply seq_inv in H as ([] & s2 & H2 & H).
  apply seq_inv in H as (e & s3 & H3 & H).
  apply store_local_eff in H1 as [L1 E1].
  assert (s2 = s1) as ->.
  { unfold Stmt.evalCfg in H2.
    apply seq_inv in H2 as (c & sx & Hc & H2). unfold ret in H2. injection H2 as <-.
    apply (keeps_inv eq) in Hc; [done|apply Stmt_Cfg_reader]. }
  pose proof (call_go_log _ _ _ _ _ H3) as L3. pose proof (call_go_stmts _ _ _ _ H3) as F3.
  destruct e as [e|]; [discriminate|]. unfold ret in H. injection H as <- <-.
  exists (bnd_bind (Bound idx m (S n) arg)). simpl.
  split; [by rewrite L3, L1|]. right. by rewrite (effArr_frame _ _ _ F3), E1.
Qed.

Ltac installs_case H :=
  first [ apply bind_value_installs in H
        | apply bind_nullable_installs in H
        | apply bind_batch_installs in H
        | apply bind_batchLen_installs in H
        | apply bind_null_installs in H ];
  exact H.

Lemma bindParam_installs (n : nat) (p : param) (l l' : locals) (s s' : State) :
  Stmt.bindParam W a b n p l s = (Return (Next l'), s') -> installs a n s l s' l'.
Proof.
  intros H. destruct p; unfold Stmt.bindParam in H; try (solve [installs_case H]).
  - (* []uint8 *)
    apply seq_inv in H as (cfg & s1 & Hcfg & H).
    apply (keeps_inv eq) in Hcfg as <-; [|apply Stmt_Cfg_reader].
    destruct (byteSlice cfg); [destruct (binPool W); [| |discriminate]|].
    + installs_case H.
    + destruct v; installs_case H.
    + installs_case H.
  - (* *Time *)
    destruct p.
    + apply seq_inv in H as (lb & s1 & _ & H). discriminate.
    + installs_case H.
    + installs_case H.
  - (* *string *)
    apply seq_inv in H as (o & s1 & Ho & H).
    apply (keeps_inv eq) in Ho as <-; [|apply deref_reader]. installs_case H.
  - (* Raw *)
    destruct IsNull; [installs_case H|]. destruct (binPool W); try discriminate.
    installs_case H.
  - (* Lob *)
    destruct (Reader l0); installs_case H.
  - (* *Lob *)
    destruct l0; installs_case H.
  - (* Bfile *)
    destruct IsNull; installs_case H.
  - (* a type without a case *)
    destruct (isSlice && elemIsInterface); discriminate.
Qed.

Lemma bind_loop_installs (ps : list param) (n : nat) (l l' : locals) (s s' : State) :
  Stmt.bind_loop W a b n ps l s = (Return (Next l'), s') ->
  exists cs, log s' = log s ++ cs /\ length cs = length ps
    /\ (existsb isNilBind cs = false ->
        effArr a s' (l_bnds l') = installAll n cs <$> effArr a s (l_bnds l)).
Proof.
  revert n l s. induction ps as [|p ps IH]; intros n l s H; simpl in H.
  - unfold ret in H. injection H as <- <-. exists []. rewrite app_nil_r.
    do 2 (split; [done|]). intros _. simpl. by destruct (effArr a s (l_bnds l)).
  - apply seq_inv in H as (f & s1 & Hp & H). destruct f as [l1|]; [|discriminate].
    apply bindParam_installs in Hp as (c & Hc & Hi).
    apply IH in H as (cs & Hcs & Hlen & Hrest).
    exists (c :: cs). split; [by rewrite Hcs, Hc, <- app_assoc|].
    split; [simpl; by rewrite Hlen|]. intros Hno. simpl in Hno.
    apply orb_false_elim in Hno as [Hc0 Hno].
    destruct Hi as [Hi|Hi]; [by rewrite Hi in Hc0|].
    rewrite (Hrest Hno), Hi. simpl.
    by destruct (effArr a s (l_bnds l)).
Qed.

End Installs.

(** X24.  A bind pass that succeeds on a non-empty parameter list makes one
    binder call per parameter, and unless one of them binds a NULL
    descriptor, [stmt.bnds] then holds exactly the descriptors of these
    calls, in the order of the parameters. *)
Theorem bind_installs_descriptors (W : World) (a : addr) (ps : list param) (b : bool)
    (s s' : State) (o : Stmt) (it : Z) :
  ps <> [] ->
  stmts s !! a = Some o ->
  Stmt.bind W (Some a) ps b s = (Return (it, None), s') ->
  exists cs o',
    log s' = log s ++ cs
    /\ length cs = length ps
    /\ stmts s' !! a = Some o'
    /\ (existsb isNilBind cs = false -> elems (bnds o') = map descOfCall cs).
Proof.
  intros Hps Ho H.
  apply (bind_nonempty W a b ps s s' o it Hps Ho) in H as (l & s1 & Hl & ->).
  pose proof (keeps_inv _ _ _ _ _ (bind_loop_firm W a b ps 0 _) Hl) as F.
  pose proof (bind_loop_shape W a b _ _ _ _ _ _ Hl) as Sh.
  apply bind_loop_installs in Hl as (cs & Hcs & Hlen & Heff).
  unfold firm, capOf in F. rewrite Ho in F.
  destruct (stmts s1 !! a) as [o1|] eqn:Ho1; [|discriminate]. injection F as F.
  exists cs. unfold Stmt.update, modify. cbn [snd]. unfold set_stmts. cbn [stmts log].
  rewrite Ho1, lookup_insert_eq. eexists. do 3 (split; [done|]).
  intros Hno. specialize (Heff Hno). unfold elems. cbn [len arr Stmt.set_bnds bnds].
  rewrite <- Hlen. cbn [l_bnds] in Heff, Sh.
  destruct (cap (bnds o) <? length ps)%nat eqn:Hcap.
  - destruct (l_bnds l) as [|d]; [discriminate|]. cbn [effArr fmap option_fmap option_map] in Heff.
    injection Heff as ->. cbn [arr].
    apply (take_installAll cs 0). rewrite length_replicate. simpl. lia.
  - destruct (l_bnds l) as [|d]; [|discriminate]. unfold effArr in Heff.
    rewrite Ho1, Ho in Heff. cbn [fmap option_fmap option_map] in Heff.
    injection Heff as Heff. cbn [arr]. rewrite Heff.
    apply (take_installAll cs 0). apply Nat.ltb_ge in Hcap. unfold cap in Hcap.
    simpl. lia.
Qed.

Lemma bind_installs_descriptors_witness :
  exists o',
    stmts (Stmt.bind Example.W (Some 1%nat) [p_int64 7; p_bool true; p_string "x"]
             false Example.s0).2 !! 1%nat = Some o'
    /\ elems (bnds o')
       = [Some (Bound bndIdxInt64 m_bind 1 (p_int64 7));
          Some (Bound bndIdxBool m_bind 2 (p_bool true));
          Some (Bound bndIdxString m_bind 3 (p_string "x"))].
Proof.
  destruct (bind_installs_descriptors Example.W 1%nat
              [p_int64 7; p_bool true; p_string "x"] false Example.s0
              (Stmt.bind Example.W (Some 1%nat) [p_int64 7; p_bool true; p_string "x"]
                 false Example.s0).2
              (Example.stmt1 OCI_STMT_SELECT "SELECT 1 FROM dual") 1)
    as (cs & o' & Hlog & _ & Ho' & Hel).
  - discriminate.
  - reflexivity.
  - vm_compute. reflexivity.
  - exists o'. split; [exact Ho'|]. vm_compute in Hlog. subst cs. apply Hel. reflexivity.
Defined.
